(** * ProjectPrayagV1: lane consolidation and lane-aware path prediction

    A shallow embedding of the algorithmic core of the two programs of the
    repository:

    - [RoadMapper/lane_processing.py]: moving-average smoothing, the
      Hausdorff shape distance, greedy clustering, endpoint snapping and the
      duration filter;
    - [RoadMapper/video_processing.py] and [RoadMapper/output_generation.py]:
      the collection of the tracks from the detections and the export of
      the lanes;
    - [VehiclePathPredictorV1]: the lane manager's queries and path
      sampling, the predictor with its preconditions and probability score,
      and the tracker's temporal smoothing of predictions and its
      bookkeeping from one frame to the next.

    Python floats are read as real numbers ([R]): every arithmetic operation
    is the exact one, so statements hold up to the rounding of the machine
    arithmetic.  Where the range of floats decides whether the code raises,
    it is written out: [**] raises when its result is out of range, and the
    length that the lane manager divides by is [0.0] when its square
    underflows.  Python integers are [Z], lists are [list], a point [[x, y]]
    is a pair of reals. *)

From Stdlib Require Import Reals Lra Lia ZArith List Bool.
From Stdlib Require Import Sorted Permutation.
Import ListNotations.

Open Scope R_scope.

(** ** Exceptions

    A computation either returns normally or leaves through an uncaught
    exception ([IndexError], [ZeroDivisionError]).  The predictor and the
    tracker are written in this monad, so that "returns, and does not raise"
    is a statement about the result. *)

Inductive Exc (A : Type) : Type :=
| Normal (a : A)
| Raised.
Arguments Normal {A} a.
Arguments Raised {A}.

Definition bind {A B} (c : Exc A) (k : A -> Exc B) : Exc B :=
  match c with
  | Normal a => k a
  | Raised => Raised
  end.

Notation "x <- c ;; k" := (bind c (fun x => k))
  (at level 61, c at next level, right associativity).

(** A [for] loop whose body may raise, threading the loop state. *)
Fixpoint for_each {A S} (xs : list A) (body : S -> A -> Exc S) (s : S) : Exc S :=
  match xs with
  | [] => Normal s
  | x :: rest => s' <- body s x ;; for_each rest body s'
  end.

(** ** Python and NumPy primitives *)

Module Py.

(** [range(n)] for a length [n]. *)
Definition range (n : nat) : list Z := map Z.of_nat (seq 0 n).

(** [range(a, b)]. *)
Definition range2 (a b : Z) : list Z :=
  map (fun k => (a + Z.of_nat k)%Z) (seq 0 (Z.to_nat (b - a))).

(** Clipping of one bound of a slice [l[start:stop]] of a list of length
    [n]: a negative bound counts from the end, and both ends saturate. *)
Definition clip (n i : Z) : Z :=
  if (i <? 0)%Z then Z.max 0 (n + i) else Z.min i n.

(** [l[start:stop]]. *)
Definition slice {A} (l : list A) (start stop : Z) : list A :=
  let n := Z.of_nat (length l) in
  let s := clip n start in
  let e := clip n stop in
  firstn (Z.to_nat (e - s)) (skipn (Z.to_nat s) l).

(** [l[i]]: a negative index counts from the end; out of range raises. *)
Definition item {A} (l : list A) (i : Z) : Exc A :=
  let n := Z.of_nat (length l) in
  let k := if (i <? 0)%Z then (n + i)%Z else i in
  if (0 <=? k)%Z && (k <? n)%Z then
    match nth_error l (Z.to_nat k) with
    | Some a => Normal a
    | None => Raised
    end
  else Raised.

(** [x / y] on floats: a zero divisor raises. *)
Definition div (x y : R) : Exc R :=
  if Req_dec_T y 0 then Raised else Normal (x / y).

(** [sum(xs)] over floats: the accumulator starts at [0]. *)
Definition sum (xs : list R) : R := fold_left Rplus xs 0.

(** [int(x)] for a float: truncation towards zero. *)
Definition int (x : R) : Z :=
  if Rle_dec 0 x then Int_part x else (- Int_part (- x))%Z.

(** [min(a, b)] and [max(a, b)] of two numbers: the first argument wins a
    tie. *)
Definition min (a b : R) : R := if Rlt_dec b a then b else a.
Definition max (a b : R) : R := if Rlt_dec a b then b else a.

(** [sorted(xs, key=key)]: a stable sort, ascending in the key. *)
Fixpoint insert_asc {A} (key : A -> R) (x : A) (sorted : list A) : list A :=
  match sorted with
  | [] => [x]
  | y :: rest =>
      if Rlt_dec (key x) (key y) then x :: sorted
      else y :: insert_asc key x rest
  end.

Definition sorted {A} (xs : list A) (key : A -> R) : list A :=
  fold_left (fun acc x => insert_asc key x acc) xs [].

(** [xs.sort(key=key, reverse=True)]: stable as well, descending in the
    key. *)
Fixpoint insert_desc {A} (key : A -> R) (x : A) (sorted : list A) : list A :=
  match sorted with
  | [] => [x]
  | y :: rest =>
      if Rlt_dec (key y) (key x) then x :: sorted
      else y :: insert_desc key x rest
  end.

Definition sort_reverse {A} (xs : list A) (key : A -> R) : list A :=
  fold_left (fun acc x => insert_desc key x acc) xs [].

(** The range of floats: the largest finite one, and half of the smallest
    positive one.  A result beyond the first is out of range; a product of
    magnitude up to the second is [0.0]. *)
Definition FLOAT_MAX : R := (2 - / 2 ^ 52) * 2 ^ 1023.
Definition FLOAT_TINY : R := / 2 ^ 1075.

(** [x ** 2] on floats raises [OverflowError] when the result is out of
    range. *)
Definition pow2 (x : R) : Exc R :=
  if Rlt_dec FLOAT_MAX (x * x) then Raised else Normal (x * x).

(** [x * x == 0.0] on floats: the product underflows. *)
Definition underflows (x : R) : bool :=
  if Rle_dec (x * x) FLOAT_TINY then true else false.

End Py.

(** ** Points and polylines *)

Definition Point : Type := R * R.
Definition Polyline : Type := list Point.

Definition px (p : Point) : R := fst p.
Definition py (p : Point) : R := snd p.

Definition Point_eq_dec (p q : Point) : {p = q} + {p <> q}.
Proof. decide equality; apply Req_dec_T. Defined.

Definition Polyline_eq_dec (a b : Polyline) : {a = b} + {a <> b} :=
  list_eq_dec Point_eq_dec a b.

(** [np.mean(coords, axis=0)] of an array of points: the mean of each
    column. *)
Definition np_mean (pts : list Point) : Point :=
  (Py.sum (map px pts) / INR (length pts),
   Py.sum (map py pts) / INR (length pts)).

(** Euclidean distance between two points. *)
Definition euclid (a b : Point) : R :=
  sqrt ((px a - px b) * (px a - px b) + (py a - py b) * (py a - py b)).

(** ** RoadMapper configuration ([RoadMapper/config.py]) *)

Module config.
Definition MIN_TRACK_DURATION_SECONDS : R := 3.
Definition HAUSDORFF_THRESHOLD : R := 20.
Definition ENDPOINT_SNAP_TOLERANCE : R := 15.
Definition SMOOTHING_WINDOW_SIZE : Z := 5.
Definition MIN_TRACK_POINTS : Z := 5.
End config.

(** ** [smooth_polyline] *)

(** The window of index [i]: [coords[start:end]] with
    [start = max(0, i - w // 2)] and [end = min(len(coords), i + w // 2 + 1)]. *)
Definition smooth_window (coords : Polyline) (window_size i : Z) : list Point :=
  let start := Z.max 0 (i - window_size / 2) in
  let stop := Z.min (Z.of_nat (length coords)) (i + window_size / 2 + 1) in
  Py.slice coords start stop.

(** The loop appends one averaged point per index. *)
Definition smooth_polyline (points : Polyline) (window_size : Z) : Polyline :=
  if (Z.of_nat (length points) <? window_size)%Z then points
  else
    fold_left
      (fun smoothed i => smoothed ++ [np_mean (smooth_window points window_size i)])
      (Py.range (length points)) [].

(** *** Specification-side notions for the smoothing claim *)

(** The points of [l] whose index lies in [[lo, hi)], in index order. *)
Definition points_between (l : Polyline) (lo hi : Z) : list Point :=
  map snd
    (filter (fun ip => (lo <=? fst ip)%Z && (fst ip <? hi)%Z)
            (combine (Py.range (length l)) l)).

(** A weighted sum of points. *)
Fixpoint weighted_sum (ws : list R) (ps : list Point) : Point :=
  match ws, ps with
  | w :: ws', p :: ps' =>
      let r := weighted_sum ws' ps' in (w * px p + px r, w * py p + py r)
  | _, _ => (0, 0)
  end.

(** [q] is a convex combination of the points [ps]. *)
Definition in_convex_hull (ps : list Point) (q : Point) : Prop :=
  exists ws : list R,
    length ws = length ps /\
    Forall (fun w => 0 <= w) ws /\
    fold_right Rplus 0 ws = 1 /\
    q = weighted_sum ws ps.

(** ** [calculate_hausdorff_distance] *)

(** A float that may be [float('inf')]. *)
Inductive Dist : Type :=
| Fin (r : R)
| Inf.

(** [a < b] on such floats. *)
Definition Dist_ltb (a b : Dist) : bool :=
  match a, b with
  | Fin x, Fin y => if Rlt_dec x y then true else false
  | Fin _, Inf => true
  | Inf, _ => false
  end.

Definition Dist_min (a b : Dist) : Dist := if Dist_ltb b a then b else a.
Definition Dist_max (a b : Dist) : Dist := if Dist_ltb a b then b else a.

(** The distance from [a] to the nearest point of [B]; the running minimum
    starts at infinity. *)
Definition nearest (a : Point) (B : Polyline) : Dist :=
  fold_left (fun cmin b => Dist_min cmin (Fin (euclid a b))) B Inf.

(** [scipy.spatial.distance.directed_hausdorff(A, B)[0]], by its documented
    meaning: the largest, over the points of [A], of the distance to the
    nearest point of [B]; the running maximum starts at [0]. *)
Definition directed_hausdorff (A B : Polyline) : Dist :=
  fold_left (fun cmax a => Dist_max cmax (nearest a B)) A (Fin 0).

Definition calculate_hausdorff_distance (line1 line2 : Polyline) : Dist :=
  if (length line1 <? 2)%nat || (length line2 <? 2)%nat then Inf
  else
    let d1 := directed_hausdorff line1 line2 in
    let d2 := directed_hausdorff line2 line1 in
    Dist_max d1 d2.

(** A distance that is not negative. *)
Definition Dist_nonneg (d : Dist) : Prop :=
  match d with
  | Fin r => 0 <= r
  | Inf => True
  end.

(** A distance that is at least [c]. *)
Definition Dist_ge (c : R) (d : Dist) : Prop :=
  match d with
  | Fin r => c <= r
  | Inf => True
  end.

(** ** [merge_similar_tracks] *)

(** Membership in the set [used] of indices. *)
Definition in_used (used : list nat) (i : nat) : bool :=
  existsb (Nat.eqb i) used.

(** [enumerate(xs, start)]. *)
Definition enumerate {A} (xs : list A) (start : nat) : list (nat * A) :=
  combine (seq start (length xs)) xs.

(** The inner loop over [enumerate(tracks[i+1:], i+1)]: the state is
    [(similar_tracks, used)]. *)
Definition merge_scan (threshold : R) (track1 : Polyline)
    (st : list Polyline * list nat) (jt : nat * Polyline)
    : list Polyline * list nat :=
  let '(similar_tracks, used) := st in
  let '(j, track2) := jt in
  if in_used used j then st
  else if Dist_ltb (calculate_hausdorff_distance track1 track2) (Fin threshold)
       then (similar_tracks ++ [track2], j :: used)
       else st.

(** The body of the outer loop: the state is [(merged, used)].  The call
    [smooth_polyline(centroid_track)] takes the default window size. *)
Definition merge_step (tracks : list Polyline) (threshold : R)
    (st : list Polyline * list nat) (it : nat * Polyline)
    : list Polyline * list nat :=
  let '(merged, used) := st in
  let '(i, track1) := it in
  if in_used used i then st
  else
    let '(similar_tracks, used') :=
      fold_left (merge_scan threshold track1)
                (enumerate (skipn (i + 1) tracks) (i + 1))
                ([track1], i :: used) in
    if (length similar_tracks =? 1)%nat then (merged ++ [track1], used')
    else
      let centroid_track := concat similar_tracks in
      (merged ++ [smooth_polyline centroid_track config.SMOOTHING_WINDOW_SIZE],
       used').

Definition merge_similar_tracks (tracks : list Polyline) (threshold : R)
    : list Polyline :=
  if (length tracks <=? 1)%nat then tracks
  else fst (fold_left (merge_step tracks threshold)
                      (enumerate tracks 0) ([], [])).

(** *** The clustering in the words of the specification *)

(** Track number [k]. *)
Definition track_at (tracks : list Polyline) (k : nat) : Polyline :=
  nth k tracks [].

(** Whether the shape distance from the seed [i] to track [j] is below the
    threshold. *)
Definition close_to (tracks : list Polyline) (threshold : R) (i j : nat) : bool :=
  Dist_ltb (calculate_hausdorff_distance (track_at tracks i) (track_at tracks j))
           (Fin threshold).

(** Greedy seed-linked grouping of the not-yet-assigned indices [pending],
    kept in input order: the first one seeds a cluster and takes with it the
    later pending indices close to it; the others stay pending.  Each round
    removes the seed, so [length pending] rounds are enough. *)
Fixpoint greedy_clusters (close : nat -> nat -> bool) (fuel : nat)
    (pending : list nat) : list (list nat) :=
  match fuel, pending with
  | S fuel', i :: rest =>
      (i :: filter (close i) rest)
      :: greedy_clusters close fuel' (filter (fun j => negb (close i j)) rest)
  | _, _ => []
  end.

(** The polyline a cluster collapses into: a lone track is kept as it is,
    several tracks are concatenated in cluster order and smoothed again. *)
Definition cluster_output (tracks : list Polyline) (members : list nat) : Polyline :=
  match members with
  | [i] => track_at tracks i
  | _ =>
      smooth_polyline (concat (map (track_at tracks) members))
                      config.SMOOTHING_WINDOW_SIZE
  end.

(** ** [snap_endpoints] *)

(** [track[0]] and [track[-1]]; both are read only behind [len(track) >= 2]. *)
Definition first_point (track : Polyline) : Point := hd (0, 0) track.
Definition last_point (track : Polyline) : Point := last track (0, 0).

(** [snapped_track[0] = p] and [snapped_track[-1] = p]. *)
Definition set_first (track : Polyline) (p : Point) : Polyline :=
  match track with
  | [] => []
  | _ :: rest => p :: rest
  end.

Definition set_last (track : Polyline) (p : Point) : Polyline :=
  match track with
  | [] => []
  | _ => removelast track ++ [p]
  end.

(** One iteration of the inner loop over [other_track]. *)
Definition snap_against (tolerance : R) (track : Polyline)
    (snapped_track : Polyline) (other_track : Polyline) : Polyline :=
  let start_point := first_point track in
  let end_point := last_point track in
  if Polyline_eq_dec other_track track then snapped_track
  else if (length other_track <? 2)%nat then snapped_track
  else
    let other_start := first_point other_track in
    let other_end := last_point other_track in
    let snapped1 :=
      if Rlt_dec (euclid start_point other_start) tolerance
      then set_first snapped_track other_start
      else if Rlt_dec (euclid start_point other_end) tolerance
      then set_first snapped_track other_end
      else snapped_track in
    if Rlt_dec (euclid end_point other_start) tolerance
    then set_last snapped1 other_start
    else if Rlt_dec (euclid end_point other_end) tolerance
    then set_last snapped1 other_end
    else snapped1.

(** The snapped copy of one track. *)
Definition snap_track (tracks : list Polyline) (tolerance : R)
    (track : Polyline) : Polyline :=
  fold_left (snap_against tolerance track) tracks track.

Definition snap_endpoints (tracks : list Polyline) (tolerance : R)
    : list Polyline :=
  if (length tracks <=? 1)%nat then tracks
  else
    fold_left
      (fun snapped_tracks track =>
         if (length track <? 2)%nat then snapped_tracks
         else snapped_tracks ++ [snap_track tracks tolerance track])
      tracks [].

(** *** Specification-side notion for the frame of the snapping *)

(** [s] has the length of [t] and agrees with it at every interior index. *)
Definition same_interior (t s : Polyline) : Prop :=
  length s = length t /\
  forall i : nat, (0 < i)%nat -> (i + 1 < length t)%nat ->
    nth_error s i = nth_error t i.

(** ** [filter_valid_tracks] *)

(** [all_tracks] is a dictionary in insertion order; [track_frame_counts] is
    a [defaultdict(int)], which reads [0] at a missing key. *)
Definition frame_count (track_frame_counts : list (Z * Z)) (trackID : Z) : Z :=
  match find (fun kv => (fst kv =? trackID)%Z) track_frame_counts with
  | Some kv => snd kv
  | None => 0%Z
  end.

Definition min_frames (fps : R) : Z :=
  Py.int (config.MIN_TRACK_DURATION_SECONDS * fps).

Definition filter_valid_tracks (all_tracks : list (Z * Polyline))
    (track_frame_counts : list (Z * Z)) (fps : R) : list Polyline :=
  fold_left
    (fun valid_tracks item =>
       let '(trackID, track_points) := item in
       if (min_frames fps <=? frame_count track_frame_counts trackID)%Z
          && (config.MIN_TRACK_POINTS <=? Z.of_nat (length track_points))%Z
       then valid_tracks ++ [smooth_polyline track_points config.SMOOTHING_WINDOW_SIZE]
       else valid_tracks)
    all_tracks [].

(** *** Specification-side notions for the consolidation claims *)

(** Whether a raw track passes the filter. *)
Definition survives (track_frame_counts : list (Z * Z)) (fps : R)
    (item : Z * Polyline) : bool :=
  (min_frames fps <=? frame_count track_frame_counts (fst item))%Z
  && (config.MIN_TRACK_POINTS <=? Z.of_nat (length (snd item)))%Z.

(** ** Collecting the raw tracks ([video_processing.py]) *)

(** What the loop reads of a detected box: its track identifier, if the
    tracker gave one, and [xywhr = (cx, cy, w, h, angle)]. *)
Record Box : Type := {
  box_id : option Z;
  xywhr : R * R * R * R * R
}.

(** [corners @ rotation_matrix.T + [cx, cy]] for the four corners of the
    box. *)
Definition extract_obb_polyline (obb_data : Box) : list Point :=
  let '(cx, cy, w, h, angle) := xywhr obb_data in
  let cos_a := cos angle in
  let sin_a := sin angle in
  let half_w := w / 2 in
  let half_h := h / 2 in
  let corners :=
    [(- half_w, - half_h); (half_w, - half_h);
     (half_w, half_h); (- half_w, half_h)] in
  let rotated_corners :=
    map (fun c => (px c * cos_a + py c * (- sin_a),
                   px c * sin_a + py c * cos_a)) corners in
  map (fun c => (px c + cx, py c + cy)) rotated_corners.

(** [[sum(p[0] for p in polyline) / len(polyline),
      sum(p[1] for p in polyline) / len(polyline)]]. *)
Definition center_point (polyline : list Point) : Point :=
  (Py.sum (map px polyline) / INR (length polyline),
   Py.sum (map py polyline) / INR (length polyline)).

(** [d[k] = f(d[k])] on a [defaultdict]: a missing key is first inserted,
    at the end, with the default value. *)
Fixpoint dict_apply {V} (d : list (Z * V)) (k : Z) (default : V) (f : V -> V)
    : list (Z * V) :=
  match d with
  | [] => [(k, f default)]
  | (k', v) :: rest =>
      if (k' =? k)%Z then (k', f v) :: rest
      else (k', v) :: dict_apply rest k default f
  end.

(** The state of [process_video_tracks]: [all_tracks],
    [track_frame_counts] and [detection_count]. *)
Definition Collected : Type := list (Z * Polyline) * list (Z * Z) * Z.

(** The body of the loop over the boxes of one frame. *)
Definition collect_box (st : Collected) (box : Box) : Collected :=
  let '(all_tracks, track_frame_counts, detection_count) := st in
  let detection_count := (detection_count + 1)%Z in
  match box_id box with
  | None => (all_tracks, track_frame_counts, detection_count)
  | Some trackID =>
      let polyline := extract_obb_polyline box in
      let center := center_point polyline in
      (dict_apply all_tracks trackID [] (fun pts => pts ++ [center]),
       dict_apply track_frame_counts trackID 0%Z (fun c => (c + 1)%Z),
       detection_count)
  end.

(** One element of [results] per frame: [None] when the frame has no
    [obb]. *)
Definition process_video_tracks (results : list (option (list Box)))
    : Collected :=
  fold_left
    (fun st result =>
       match result with
       | None => st
       | Some obb => fold_left collect_box obb st
       end)
    results ([], [], 0%Z).

(** The frame counts that go with the tracks: one frame per point. *)
Definition counts_of (all_tracks : list (Z * Polyline)) : list (Z * Z) :=
  map (fun item => (fst item, Z.of_nat (length (snd item)))) all_tracks.

(** ** [process_tracks] *)

(** The calls to [merge_similar_tracks] and [snap_endpoints] take their
    default threshold and tolerance; the progress messages are left out. *)
Definition process_tracks (all_tracks : list (Z * Polyline))
    (track_frame_counts : list (Z * Z)) (fps : R) : list Polyline :=
  let valid_tracks := filter_valid_tracks all_tracks track_frame_counts fps in
  if (length valid_tracks =? 0)%nat then []
  else
    let merged_tracks :=
      merge_similar_tracks valid_tracks config.HAUSDORFF_THRESHOLD in
    snap_endpoints merged_tracks config.ENDPOINT_SNAP_TOLERANCE.

(** *** Specification-side notions for the consolidation stages *)

(** The point [p] lies on the line [a x + b y = c]. *)
Definition on_line (a b c : R) (p : Point) : Prop := a * px p + b * py p = c.

(** The two endpoints of a track. *)
Definition endpoints (track : Polyline) : list Point :=
  [first_point track; last_point track].

(** The invariant of the inner loop of the snapping: the copy has [n]
    points, and its two ends are among the points [E]. *)
Definition ends_within (E : list Point) (n : nat) (s : Polyline) : Prop :=
  length s = n /\ In (first_point s) E /\ In (last_point s) E.

(** The number of points of a list of tracks. *)
Definition total_points (tracks : list Polyline) : nat :=
  list_sum (map (@length Point) tracks).

(** What the collection keeps true: the counts are those of the tracks, no
    identifier is recorded twice, no track is empty, and the detections
    counted are at least the points stored. *)
Definition collected_ok (st : Collected) : Prop :=
  let '(all_tracks, track_frame_counts, detection_count) := st in
  track_frame_counts = counts_of all_tracks /\
  NoDup (map fst all_tracks) /\
  Forall (fun item => snd item <> []) all_tracks /\
  (Z.of_nat (total_points (map snd all_tracks)) <= detection_count)%Z.

(** ** Predictor configuration ([VehiclePathPredictorV1/config.py]) *)

Module pconfig.
Definition PAST_HISTORY_SECONDS : R := 4.
Definition FUTURE_PREDICTION_SECONDS : R := 2.
Definition PROCESSING_FPS : R := 50.
End pconfig.

(** ** Shapely line strings

    [lane['linestring']] is [LineString(lane['coords'])].  Its [length] and
    [interpolate] are written out by their documented meaning; [distance],
    [project] and [nearest_points], whose values no statement below looks
    into, are parameters of the lane manager. *)

(** [LineString(coords).length]: the sum of the segment lengths. *)
Fixpoint ls_length (coords : Polyline) : R :=
  match coords with
  | a :: (b :: _) as rest => euclid a b + ls_length rest
  | _ => 0
  end.

(** The point at fraction [t] of the segment from [a] to [b]. *)
Definition lerp (a b : Point) (t : R) : Point :=
  (px a + t * (px b - px a), py a + t * (py b - py a)).

(** Walking a positive distance [d] from the start of the line: the segment
    in which it falls, or the last point when the line is shorter. *)
Fixpoint ls_walk (coords : Polyline) (d : R) : option Point :=
  match coords with
  | [] => None
  | [p] => Some p
  | a :: (b :: _) as rest =>
      let seg := euclid a b in
      if Rlt_dec d seg then Some (lerp a b (d / seg))
      else ls_walk rest (d - seg)
  end.

(** [LineString(coords).interpolate(d)]: the point at distance [d] along the
    line, clamped to its ends; a negative distance is measured backwards from
    the end.  A line with fewer than two points has no such point ([None]:
    the access to its coordinates raises). *)
Definition ls_interpolate (coords : Polyline) (d : R) : option Point :=
  if (length coords <? 2)%nat then None
  else
    let d' := if Rlt_dec d 0 then ls_length coords + d else d in
    if Rle_dec d' 0 then Some (first_point coords)
    else ls_walk coords d'.

(** ** The lane manager ([lane_manager.py]) *)

Record Lane : Type := {
  id : Z;
  coords : Polyline
}.

Record LaneInfo : Type := {
  li_lane : Lane;
  li_distance : R;
  li_closest_point : Point;
  li_progress : R
}.

(** Consecutive pairs [(coords[i], coords[i+1])]. *)
Fixpoint segments (coords : Polyline) : list (Point * Point) :=
  match coords with
  | a :: (b :: _) as rest => (a, b) :: segments rest
  | _ => []
  end.

(** [seg_length] of the segment from [coords[i]] to [coords[i+1]]: the
    squares are taken with [**], which raises when they are out of range. *)
Definition seg_length (s : Point * Point) : Exc R :=
  sx <- Py.pow2 (px (snd s) - px (fst s)) ;;
  sy <- Py.pow2 (py (snd s) - py (fst s)) ;;
  Normal (sqrt (sx + sy)).

(** The first loop of [get_lane_direction_at_progress]: the state is
    [segment_lengths], of which [cumulative_length] is the sum. *)
Definition segment_lengths (coords : Polyline) : Exc (list R) :=
  for_each (segments coords)
    (fun segment_lengths s =>
       seg_length <- seg_length s ;;
       Normal (segment_lengths ++ [seg_length]))
    [].

(** [math.sqrt(dx*dx + dy*dy)] in [get_lane_direction_at_progress], where
    its being zero decides whether the division that follows raises: it is
    [0.0] when both products underflow. *)
Definition vector_length (dx dy : R) : R :=
  if Py.underflows dx && Py.underflows dy then 0
  else sqrt (dx * dx + dy * dy).

(** [x == 0] on floats. *)
Definition is_zero (x : R) : bool := if Req_dec_T x 0 then true else false.

(** The unit vector [[dx/length, dy/length]]. *)
Definition unit_vector (dx dy length : R) : Exc Point :=
  ux <- Py.div dx length ;;
  uy <- Py.div dy length ;;
  Normal (ux, uy).

(** The loop of [get_lane_direction_at_progress] over the segments; a
    degenerate segment reached by the target is skipped by [continue], which
    also skips the update of [current_length]. *)
Fixpoint direction_scan (segs : list ((Point * Point) * R))
    (target_length current_length : R) : Exc (option Point) :=
  match segs with
  | [] => Normal None
  | (s, seg_length) :: rest =>
      if Rge_dec (current_length + seg_length) target_length then
        let dx := px (snd s) - px (fst s) in
        let dy := py (snd s) - py (fst s) in
        if is_zero dx && is_zero dy
        then direction_scan rest target_length current_length
        else
          let length := vector_length dx dy in
          d <- unit_vector dx dy length ;;
          Normal (Some d)
      else direction_scan rest target_length (current_length + seg_length)
  end.

Definition get_lane_direction_at_progress (lane : Lane) (progress : R)
    : Exc (option Point) :=
  let cs := coords lane in
  if (length cs <? 2)%nat then Normal None
  else
    let total_length := ls_length cs in
    if is_zero total_length then Normal None
    else
      segment_lengths <- segment_lengths cs ;;
      let cumulative_length := Py.sum segment_lengths in
      if is_zero cumulative_length then Normal None
      else
        q <- Py.div progress total_length ;;
        let target_length := q * cumulative_length in
        found <-
          direction_scan (combine (segments cs) segment_lengths)
                         target_length 0 ;;
        match found with
        | Some d => Normal (Some d)
        | None =>
            last1 <- Py.item cs (-1) ;;
            last2 <- Py.item cs (-2) ;;
            let dx := px last1 - px last2 in
            let dy := py last1 - py last2 in
            let length := vector_length dx dy in
            if Rgt_dec length 0 then
              d <- unit_vector dx dy length ;;
              Normal (Some d)
            else Normal None
        end.

(** The loop of [get_path_along_lane]: [None] is an exception inside the
    [try] block. *)
Fixpoint path_loop (cs : Polyline) (start_progress progress_step max_progress : R)
    (indices : list Z) : option (list Point) :=
  match indices with
  | [] => Some []
  | i :: rest =>
      let current_progress :=
        Py.min (start_progress + IZR i * progress_step) (ls_length cs) in
      match ls_interpolate cs current_progress with
      | None => None
      | Some point =>
          if Rge_dec current_progress max_progress then Some [point]
          else
            match path_loop cs start_progress progress_step max_progress rest with
            | None => None
            | Some more => Some (point :: more)
            end
      end
  end.

(** The [except] clause turns any exception into the empty list. *)
Definition get_path_along_lane (lane : Lane) (start_progress distance : R)
    (num_points : Z) : list Point :=
  let cs := coords lane in
  let end_progress := start_progress + distance in
  if Rle_dec (ls_length cs) start_progress then []
  else
    let max_progress := Py.min end_progress (ls_length cs) in
    if Rle_dec max_progress start_progress then []
    else
      let progress_step :=
        (max_progress - start_progress) / IZR (Z.max 1 (num_points - 1)) in
      match path_loop cs start_progress progress_step max_progress
                      (Py.range (Z.to_nat num_points)) with
      | Some path_points => path_points
      | None => []
      end.

(** The default of [num_points]. *)
Definition default_num_points : Z := 8.

(** [get_forward_position]: [None] is the result of the [except] clause. *)
Definition get_forward_position (lane : Lane) (progress distance : R)
    : option Point :=
  let new_progress := progress + distance in
  ls_interpolate (coords lane) new_progress.

(** ** The predictor ([vehicle_predictor.py]) *)

Record Prediction : Type := {
  lane_id : Z;
  probability : R;
  path_points : list Point;
  lane_direction : Point;
  alignment : R;
  distance_to_lane : R;
  travel_distance : R
}.

(** The loop shared by the velocity and the consistency computations runs
    over [range(len(positions) - 3, len(positions))]. *)
Definition recent_indices (positions : list Point) : list Z :=
  let n := Z.of_nat (length positions) in Py.range2 (n - 3) n.

Definition _calculate_smoothed_velocity (positions : list Point)
    : Exc (option Point) :=
  if (length positions <? 4)%nat then Normal None
  else
    let dt := 1 / pconfig.PROCESSING_FPS in
    velocities <-
      for_each (recent_indices positions)
        (fun velocities i =>
           if (0 <? i)%Z then
             p <- Py.item positions i ;;
             q <- Py.item positions (i - 1) ;;
             let vel_x := (px p - px q) / dt in
             let vel_y := (py p - py q) / dt in
             Normal (velocities ++ [(vel_x, vel_y)])
           else Normal velocities)
        [] ;;
    match velocities with
    | [] => Normal None
    | _ =>
        avg_vel_x <- Py.div (Py.sum (map px velocities)) (INR (length velocities)) ;;
        avg_vel_y <- Py.div (Py.sum (map py velocities)) (INR (length velocities)) ;;
        Normal (Some (avg_vel_x, avg_vel_y))
    end.

Definition _get_movement_direction (positions : list Point)
    : Exc (option Point) :=
  if (length positions <? 5)%nat then Normal None
  else
    start_pos <- Py.item positions (-5) ;;
    end_pos <- Py.item positions (-1) ;;
    let dx := px end_pos - px start_pos in
    let dy := py end_pos - py start_pos in
    let length := sqrt (dx * dx + dy * dy) in
    if Rlt_dec length 2 then Normal None
    else
      d <- unit_vector dx dy length ;;
      Normal (Some d).

(** The squares are taken with [**], which raises when they are out of
    range. *)
Definition _get_speed (velocity : Point) : Exc R :=
  sx <- Py.pow2 (px velocity) ;;
  sy <- Py.pow2 (py velocity) ;;
  Normal (sqrt (sx + sy)).

Definition _calculate_alignment (movement_direction lane_direction : Point) : R :=
  Rabs (px movement_direction * px lane_direction
        + py movement_direction * py lane_direction).

(** The first loop of [_calculate_direction_consistency]: the unit
    directions of the recent displacements that are not null. *)
Definition recent_directions (positions : list Point) : Exc (list Point) :=
  for_each (recent_indices positions)
    (fun directions i =>
       if (0 <? i)%Z then
         p <- Py.item positions i ;;
         q <- Py.item positions (i - 1) ;;
         let dx := px p - px q in
         let dy := py p - py q in
         let length := sqrt (dx * dx + dy * dy) in
         if Rgt_dec length 0 then
           d <- unit_vector dx dy length ;;
           Normal (directions ++ [d])
         else Normal directions
       else Normal directions)
    [].

(** Its second loop and final division: the average positive part of the
    dot products of consecutive directions. *)
Definition average_alignment (directions : list Point) : Exc R :=
  acc <-
    for_each (Py.range2 1 (Z.of_nat (length directions)))
      (fun (acc : R * Z) i =>
         let '(consistency_sum, count) := acc in
         d <- Py.item directions i ;;
         e <- Py.item directions (i - 1) ;;
         let dot := px d * px e + py d * py e in
         Normal (consistency_sum + Py.max 0 dot, (count + 1)%Z))
      (0, 0%Z) ;;
  let '(consistency_sum, count) := acc in
  if (0 <? count)%Z then Py.div consistency_sum (IZR count)
  else Normal 0.5.

Definition _calculate_direction_consistency (positions : list Point) : Exc R :=
  if (length positions <? 6)%nat then Normal 0.5
  else
    directions <- recent_directions positions ;;
    if (length directions <? 2)%nat then Normal 0.5
    else average_alignment directions.

Definition _calculate_lane_probability (positions : list Point) (lane : Lane)
    (distance_to_lane alignment : R) (movement_direction : Point) : Exc R :=
  let base_probability := alignment in
  let distance_factor := Py.max 0 (1 - distance_to_lane / 50) in
  let base_probability := base_probability * distance_factor in
  consistency <- _calculate_direction_consistency positions ;;
  let base_probability := base_probability * (0.5 + 0.5 * consistency) in
  let base_probability :=
    if Rlt_dec distance_to_lane 15 then base_probability * 1.5
    else base_probability in
  Normal (Py.min 1 base_probability).

Definition _estimate_travel_distance (velocity : Point) (time_horizon : R)
    : Exc R :=
  speed <- _get_speed velocity ;;
  Normal (speed * time_horizon * pconfig.PROCESSING_FPS * 0.6).

(** The body of the loop over the candidate lanes; the state is
    [lane_predictions]. *)
Definition evaluate_lane (positions : list Point)
    (smoothed_velocity movement_direction : Point) (time_horizon : R)
    (lane_predictions : list Prediction) (lane_info : LaneInfo)
    : Exc (list Prediction) :=
  let lane := li_lane lane_info in
  let distance_to_lane := li_distance lane_info in
  let progress := li_progress lane_info in
  if Rgt_dec distance_to_lane 50 then Normal lane_predictions
  else
    found <- get_lane_direction_at_progress lane progress ;;
    match found with
    | None => Normal lane_predictions
    | Some lane_direction =>
        let alignment := _calculate_alignment movement_direction lane_direction in
        if Rlt_dec alignment 0.3 then Normal lane_predictions
        else
          probability <-
            _calculate_lane_probability positions lane distance_to_lane
                                        alignment movement_direction ;;
          if Rgt_dec probability 0.2 then
            travel <- _estimate_travel_distance smoothed_velocity time_horizon ;;
            let prediction_distance := Py.min travel 120 in
            let path_points :=
              get_path_along_lane lane progress prediction_distance
                                  default_num_points in
            if (1 <? length path_points)%nat then
              Normal (lane_predictions ++
                      [ {| lane_id := id lane;
                           probability := probability;
                           path_points := path_points;
                           lane_direction := lane_direction;
                           alignment := alignment;
                           distance_to_lane := distance_to_lane;
                           travel_distance := prediction_distance |} ])
            else Normal lane_predictions
          else Normal lane_predictions
    end.

(** The spatial queries of Shapely are parameters: [distance p cs] is
    [Point(p).distance(LineString(cs))], [project cs p] is
    [LineString(cs).project(Point(p))] and [nearest p cs] is the point of the
    line returned by [nearest_points]. *)
Section LaneQueries.

Variable distance : Point -> Polyline -> R.
Variable project : Polyline -> Point -> R.
Variable nearest_point : Point -> Polyline -> Point.

Definition get_lanes_within_distance (lanes : list Lane) (point : Point)
    (max_distance : R) : list LaneInfo :=
  let nearby_lanes :=
    fold_left
      (fun nearby lane =>
         let d := distance point (coords lane) in
         if Rle_dec d max_distance then
           nearby ++ [ {| li_lane := lane;
                          li_distance := d;
                          li_closest_point := nearest_point point (coords lane);
                          li_progress := project (coords lane) point |} ]
         else nearby)
      lanes [] in
  Py.sorted nearby_lanes li_distance.

(** [find_closest_lane]: the state of the loop is [min_distance] with
    [(closest_lane, closest_point, progress)], all three [None] together. *)
Definition closest_step (point : Point)
    (st : Dist * option (Lane * Point * R)) (lane : Lane)
    : Dist * option (Lane * Point * R) :=
  let d := distance point (coords lane) in
  if Dist_ltb (Fin d) (fst st)
  then (Fin d,
        Some (lane, nearest_point point (coords lane),
              project (coords lane) point))
  else st.

Definition find_closest_lane (lanes : list Lane) (point : Point)
    : option (Lane * Point * R) :=
  match lanes with
  | [] => None
  | _ => snd (fold_left (closest_step point) lanes (Inf, None))
  end.

(** [lanes] is [self.lane_manager.lanes]. *)
Definition predict_lane_possibilities (lanes : list Lane)
    (history : list Point) (time_horizon : R) : Exc (list Prediction) :=
  if (length history <? 8)%nat then Normal []
  else
    let positions := history in
    current_pos <- Py.item positions (-1) ;;
    sv <- _calculate_smoothed_velocity positions ;;
    match sv with
    | None => Normal []
    | Some smoothed_velocity =>
        speed <- _get_speed smoothed_velocity ;;
        if Rlt_dec speed 0.5 then Normal []
        else
          md <- _get_movement_direction positions ;;
          match md with
          | None => Normal []
          | Some movement_direction =>
              let nearby_lanes :=
                get_lanes_within_distance lanes current_pos 80 in
              match nearby_lanes with
              | [] => Normal []
              | _ =>
                  lane_predictions <-
                    for_each (firstn 4 nearby_lanes)
                      (evaluate_lane positions smoothed_velocity
                                     movement_direction time_horizon)
                      [] ;;
                  Normal (firstn 3 (Py.sort_reverse lane_predictions probability))
              end
          end
    end.

End LaneQueries.

(** *** Specification-side notions for the lane queries *)

(** Ascending, and descending, in a key. *)
Definition ascending {A} (key : A -> R) (l : list A) : Prop :=
  StronglySorted (fun a b => key a <= key b) l.


(** The elements of [l] whose key is [k], in the order of [l]. *)
Definition with_key {A} (key : A -> R) (k : R) (l : list A) : list A :=
  filter (fun a => if Req_dec_T (key a) k then true else false) l.

(** The record the lane manager builds for a lane near a point. *)
Definition lane_info (distance : Point -> Polyline -> R)
    (project : Polyline -> Point -> R)
    (nearest_point : Point -> Polyline -> Point)
    (point : Point) (lane : Lane) : LaneInfo :=
  {| li_lane := lane;
     li_distance := distance point (coords lane);
     li_closest_point := nearest_point point (coords lane);
     li_progress := project (coords lane) point |}.

(** Whether a lane is within [max_distance] of a point. *)
Definition within (distance : Point -> Polyline -> R) (point : Point)
    (max_distance : R) (lane : Lane) : bool :=
  if Rle_dec (distance point (coords lane)) max_distance then true else false.

(** The state of the search for the closest lane after the lanes [seen]:
    nothing yet, or the first of the nearest lanes seen. *)
Definition closest_so_far (distance : Point -> Polyline -> R)
    (project : Polyline -> Point -> R)
    (nearest_point : Point -> Polyline -> Point)
    (point : Point) (seen : list Lane)
    (st : Dist * option (Lane * Point * R)) : Prop :=
  (seen = [] /\ st = (Inf, None)) \/
  exists pre lane post,
    seen = pre ++ lane :: post /\
    st = (Fin (distance point (coords lane)),
          Some (lane, nearest_point point (coords lane),
                project (coords lane) point)) /\
    (forall l, In l pre ->
               distance point (coords lane) < distance point (coords l)) /\
    (forall l, In l post ->
               distance point (coords lane) <= distance point (coords l)).

(** *** Specification-side notions for the predictor's preconditions *)


(** The magnitude of a vector. *)
Definition magnitude (v : Point) : R := sqrt (px v * px v + py v * py v).

(** A vector of length one. *)
Definition is_unit (v : Point) : Prop := px v * px v + py v * py v = 1.


(** ** Exporting the lanes ([RoadMapper/output_generation.py]) and loading
    them ([lane_manager.py]) *)

Module geojson.

(** A [geojson.Feature] with a [LineString] geometry and its properties. *)
Record Feature : Type := {
  coordinates : Polyline;
  lane_id : Z;
  length : R;
  point_count : Z
}.

(** A [geojson.FeatureCollection]; [video_info] stands for the properties
    copied from the video. *)
Record FeatureCollection (V : Type) : Type := {
  features : list Feature;
  video_info : V;
  total_lanes : Z
}.
Arguments features {V} _.
Arguments video_info {V} _.
Arguments total_lanes {V} _.

End geojson.

(** The body of the loop of [create_geojson_from_tracks] over
    [enumerate(tracks)].  [simplify track] stands for the coordinates of
    [LineString(track).simplify(config.SIMPLIFY_TOLERANCE,
    preserve_topology=True)]; an exception in the [try] block skips the
    track. *)
Definition add_feature (simplify : Polyline -> Exc Polyline)
    (features : list geojson.Feature) (it : nat * Polyline)
    : list geojson.Feature :=
  let '(i, track) := it in
  if (length track <? 2)%nat then features
  else
    match simplify track with
    | Raised => features
    | Normal simplified_line =>
        features ++
        [{| geojson.coordinates := simplified_line;
            geojson.lane_id := Z.of_nat i;
            geojson.length := ls_length simplified_line;
            geojson.point_count := Z.of_nat (length track) |}]
    end.

Definition create_geojson_from_tracks {V} (simplify : Polyline -> Exc Polyline)
    (tracks : list Polyline) (video_info : V) : geojson.FeatureCollection V :=
  let features := fold_left (add_feature simplify) (enumerate tracks 0) [] in
  {| geojson.features := features;
     geojson.video_info := video_info;
     geojson.total_lanes := Z.of_nat (length features) |}.

(** [load_lanes] on the data read back from the file: one lane for each
    feature, in the order of the file. *)
Definition load_lanes {V} (data : geojson.FeatureCollection V) : list Lane :=
  fold_left
    (fun lanes feature =>
       lanes ++ [{| id := geojson.lane_id feature;
                    coords := geojson.coordinates feature |}])
    (geojson.features data) [].

(** ** The tracker's temporal smoothing ([tracker.py]) *)

(** [self.prediction_smoothing]: for each track identifier, the buffer of
    its most recent prediction lists. *)
Definition Store : Type := Z -> option (list (list Prediction)).

Definition store_set (st : Store) (track_id : Z)
    (buffer : list (list Prediction)) : Store :=
  fun k => if (k =? track_id)%Z then Some buffer else st k.

(** [min(len(pred) for pred in buffer)]; [min] of nothing raises. *)
Definition min_len {A} (buffer : list (list A)) : Exc nat :=
  match buffer with
  | [] => Raised
  | first :: rest =>
      Normal (fold_left (fun m pred => Nat.min m (length pred)) rest (length first))
  end.

(** [pred.copy()] followed by [pred['probability'] = p]. *)
Definition with_probability (pred : Prediction) (p : R) : Prediction :=
  {| lane_id := lane_id pred;
     probability := p;
     path_points := path_points pred;
     lane_direction := lane_direction pred;
     alignment := alignment pred;
     distance_to_lane := distance_to_lane pred;
     travel_distance := travel_distance pred |}.

(** The inner loop: collect, from each buffered list, the entry at rank
    [pred_idx] when it carries [wanted]; the state is
    [(all_paths, all_probs)]. *)
Definition collect_matching (pred_idx : Z) (wanted : Z)
    (acc : list (list Point) * list R) (pred_set : list Prediction)
    : Exc (list (list Point) * list R) :=
  let '(all_paths, all_probs) := acc in
  if (pred_idx <? Z.of_nat (length pred_set))%Z then
    e <- Py.item pred_set pred_idx ;;
    if (lane_id e =? wanted)%Z
    then Normal (all_paths ++ [path_points e], all_probs ++ [probability e])
    else Normal acc
  else Normal acc.

(** The body of the loop over [pred_idx]; the state is
    [smoothed_predictions]. *)
Definition smooth_rank (buffer : list (list Prediction))
    (new_predictions : list Prediction)
    (smoothed_predictions : list Prediction) (pred_idx : Z)
    : Exc (list Prediction) :=
  current <- Py.item new_predictions pred_idx ;;
  let wanted := lane_id current in
  acc <- for_each buffer (collect_matching pred_idx wanted) ([], []) ;;
  let '(all_paths, all_probs) := acc in
  match all_paths with
  | [] => Normal smoothed_predictions
  | _ =>
      avg_prob <- Py.div (Py.sum all_probs) (INR (length all_probs)) ;;
      Normal (smoothed_predictions ++ [with_probability current (avg_prob * 0.95)])
  end.

(** The buffer of a track after [new_predictions] is appended and, past two
    entries, the oldest is popped. *)
Definition push_buffer (prediction_smoothing : Store) (track_id : Z)
    (new_predictions : list Prediction) : list (list Prediction) :=
  let buffer0 :=
    match prediction_smoothing track_id with
    | None => []
    | Some b => b
    end in
  let buffer1 := buffer0 ++ [new_predictions] in
  if (2 <? length buffer1)%nat then tl buffer1 else buffer1.

(** Returns the updated store and the smoothed list. *)
Definition smooth_predictions (prediction_smoothing : Store) (track_id : Z)
    (new_predictions : list Prediction) : Exc (Store * list Prediction) :=
  let buffer := push_buffer prediction_smoothing track_id new_predictions in
  let store' := store_set prediction_smoothing track_id buffer in
  if (length buffer =? 1)%nat then Normal (store', new_predictions)
  else
    n <- min_len buffer ;;
    smoothed_predictions <-
      for_each (Py.range n) (smooth_rank buffer new_predictions) [] ;;
    Normal (store', smoothed_predictions).

(** ** The tracker's bookkeeping ([tracker.py]) *)

(** A dictionary with integer keys, in insertion order. *)
Module Dict.

Definition t (V : Type) : Type := list (Z * V).

(** [d.get(k)]. *)
Fixpoint get {V} (d : t V) (k : Z) : option V :=
  match d with
  | [] => None
  | (k', v) :: rest => if (k' =? k)%Z then Some v else get rest k
  end.

(** [d[k] = v]: in place for a key that is there, at the end otherwise. *)
Fixpoint set {V} (d : t V) (k : Z) (v : V) : t V :=
  match d with
  | [] => [(k, v)]
  | (k', v') :: rest =>
      if (k' =? k)%Z then (k', v) :: rest else (k', v') :: set rest k v
  end.

(** [del d[k]], for a key that is there (guarded or just set in the
    source). *)
Definition del {V} (d : t V) (k : Z) : t V :=
  filter (fun kv => negb (fst kv =? k)%Z) d.

(** [list(d.keys())] and [k in d]. *)
Definition keys {V} (d : t V) : list Z := map fst d.

Definition mem {V} (d : t V) (k : Z) : bool :=
  match get d k with
  | Some _ => true
  | None => false
  end.

End Dict.

(** [self.lane_predictions[track_id]]. *)
Record PredictionData : Type := {
  predictions : list Prediction;
  start_pos : Point;
  timestamp : Z
}.

(** The four dictionaries of the tracker and its frame counter. *)
Record Tracker : Type := {
  tracking_history : Dict.t (list Point);
  missed_frames : Dict.t Z;
  lane_predictions : Dict.t PredictionData;
  prediction_smoothing : Store;
  frame_index : Z
}.

Definition MISS_THRESHOLD : Z := 20.
Definition PREDICTION_INTERVAL : Z := 8.
Definition STALE_AFTER : Z := 15.

(** [self.HISTORY_LENGTH = int(PAST_HISTORY_SECONDS * self.fps) + 5]. *)
Definition HISTORY_LENGTH (fps : R) : Z :=
  (Py.int (pconfig.PAST_HISTORY_SECONDS * fps) + 5)%Z.

(** [h.append(x)] on a [deque(maxlen=maxlen)], [maxlen >= 0]: the oldest
    entries beyond the capacity are dropped. *)
Definition deque_append {A} (maxlen : Z) (h : list A) (x : A) : list A :=
  let h' := h ++ [x] in
  skipn (length h' - Z.to_nat maxlen) h'.

(** [del self.prediction_smoothing[track_id]], when it is there. *)
Definition store_del (st : Store) (track_id : Z) : Store :=
  fun k => if (k =? track_id)%Z then None else st k.

(** The loop over the detected boxes of a frame: each box gives the track
    identifier of the tracker, or else its rank in the frame, and its
    centre.  A new history is a [deque] of capacity [history_length], whose
    construction raises on a negative capacity. *)
Definition record_box (history_length : Z)
    (st : Tracker * list Z) (ib : nat * (option Z * Point))
    : Exc (Tracker * list Z) :=
  let '(tr, current_track_ids) := st in
  let '(idx, (box_id, center)) := ib in
  let track_id :=
    match box_id with
    | None => Z.of_nat idx
    | Some i => i
    end in
  history <-
    match Dict.get (tracking_history tr) track_id with
    | Some h => Normal h
    | None => if (history_length <? 0)%Z then Raised else Normal []
    end ;;
  Normal
    ({| tracking_history :=
          Dict.set (tracking_history tr) track_id
                   (deque_append history_length history center);
        missed_frames := Dict.set (missed_frames tr) track_id 0%Z;
        lane_predictions := lane_predictions tr;
        prediction_smoothing := prediction_smoothing tr;
        frame_index := frame_index tr |},
     track_id :: current_track_ids).

(** The body of the loop over [list(self.tracking_history.keys())]. *)
Definition expire_track (current_track_ids : list Z) (tr : Tracker)
    (track_id : Z) : Tracker :=
  if existsb (Z.eqb track_id) current_track_ids then tr
  else
    let missed :=
      (match Dict.get (missed_frames tr) track_id with
       | Some m => m
       | None => 0
       end + 1)%Z in
    let missed_frames' := Dict.set (missed_frames tr) track_id missed in
    if (MISS_THRESHOLD <? missed)%Z then
      {| tracking_history := Dict.del (tracking_history tr) track_id;
         missed_frames := Dict.del missed_frames' track_id;
         lane_predictions := Dict.del (lane_predictions tr) track_id;
         prediction_smoothing := store_del (prediction_smoothing tr) track_id;
         frame_index := frame_index tr |}
    else
      {| tracking_history := tracking_history tr;
         missed_frames := missed_frames';
         lane_predictions := lane_predictions tr;
         prediction_smoothing := prediction_smoothing tr;
         frame_index := frame_index tr |}.

(** The bookkeeping of one frame of [process_video]: count the frame,
    record the boxes, then age or drop the tracks that were not seen. *)
Definition update_tracks (history_length : Z) (tr : Tracker)
    (boxes : list (option Z * Point)) : Exc Tracker :=
  let tr0 :=
    {| tracking_history := tracking_history tr;
       missed_frames := missed_frames tr;
       lane_predictions := lane_predictions tr;
       prediction_smoothing := prediction_smoothing tr;
       frame_index := (frame_index tr + 1)%Z |} in
  st <- for_each (enumerate boxes 0) (record_box history_length) (tr0, []) ;;
  let '(tr1, current_track_ids) := st in
  Normal (fold_left (expire_track current_track_ids)
                    (Dict.keys (tracking_history tr1)) tr1).

(** The eviction at the head of [draw_lane_predictions]: the body of the
    loop over [list(self.lane_predictions.items())]. *)
Definition evict_if_stale (tr : Tracker) (item : Z * PredictionData) : Tracker :=
  let '(track_id, pred_data) := item in
  if (STALE_AFTER <? frame_index tr - timestamp pred_data)%Z then
    {| tracking_history := tracking_history tr;
       missed_frames := missed_frames tr;
       lane_predictions := Dict.del (lane_predictions tr) track_id;
       prediction_smoothing := store_del (prediction_smoothing tr) track_id;
       frame_index := frame_index tr |}
  else tr.

Definition evict_stale (tr : Tracker) : Tracker :=
  fold_left evict_if_stale (lane_predictions tr) tr.

(** The body of the loop of [predict_lane_trajectories] over
    [self.tracking_history.items()].  [predict history] stands for
    [self.predictor.predict_lane_possibilities(history,
    FUTURE_PREDICTION_SECONDS)].  An exception in the body is caught and the
    loop goes on with the next track; what [smooth_predictions] had written
    to its buffer before raising stays written. *)
Definition predict_track (predict : list Point -> Exc (list Prediction))
    (tr : Tracker) (item : Z * list Point) : Tracker :=
  let '(track_id, history) := item in
  let updated (lp : Dict.t PredictionData) (st : Store) : Tracker :=
    {| tracking_history := tracking_history tr;
       missed_frames := missed_frames tr;
       lane_predictions := lp;
       prediction_smoothing := st;
       frame_index := frame_index tr |} in
  if (10 <=? length history)%nat then
    match predict history with
    | Raised => tr
    | Normal [] => tr
    | Normal new_predictions =>
        match smooth_predictions (prediction_smoothing tr) track_id
                                 new_predictions with
        | Raised =>
            updated (lane_predictions tr)
                    (store_set (prediction_smoothing tr) track_id
                       (push_buffer (prediction_smoothing tr) track_id
                                    new_predictions))
        | Normal (store', smoothed_predictions) =>
            match Py.item history (-1) with
            | Raised => updated (lane_predictions tr) store'
            | Normal last_position =>
                updated
                  (Dict.set (lane_predictions tr) track_id
                     {| predictions := smoothed_predictions;
                        start_pos := last_position;
                        timestamp := frame_index tr |})
                  store'
            end
        end
    end
  else tr.

Definition predict_lane_trajectories
    (predict : list Point -> Exc (list Prediction)) (tr : Tracker) : Tracker :=
  if (length (tracking_history tr) <? 1)%nat then tr
  else fold_left (predict_track predict) (tracking_history tr) tr.

(** What one frame of [process_video] does to the tracker: the bookkeeping,
    the predictions every [PREDICTION_INTERVAL] frames, and the eviction of
    [draw_lane_predictions].  The drawing itself reads the tracker and
    writes to the image only. *)
Definition process_frame (predict : list Point -> Exc (list Prediction))
    (history_length : Z) (tr : Tracker) (boxes : list (option Z * Point))
    : Exc Tracker :=
  tr1 <- update_tracks history_length tr boxes ;;
  let tr2 :=
    if (frame_index tr1 mod PREDICTION_INTERVAL =? 0)%Z
    then predict_lane_trajectories predict tr1
    else tr1 in
  Normal (evict_stale tr2).

(** The loop over the frames of the video. *)
Definition process_frames (predict : list Point -> Exc (list Prediction))
    (history_length : Z) (frames : list (list (option Z * Point)))
    (tr : Tracker) : Exc Tracker :=
  for_each frames (process_frame predict history_length) tr.

(** The tracker as [__init__] leaves it. *)
Definition new_tracker : Tracker :=
  {| tracking_history := [];
     missed_frames := [];
     lane_predictions := [];
     prediction_smoothing := fun _ => None;
     frame_index := 0 |}.

(** *** Specification-side notions for the tracker's bookkeeping *)

(** What the tracker holds about one track: its history, its miss counter,
    its predictions and its smoothing buffer. *)
Definition track_view (tr : Tracker) (k : Z)
    : option (list Point) * option Z * option PredictionData
      * option (list (list Prediction)) :=
  (Dict.get (tracking_history tr) k, Dict.get (missed_frames tr) k,
   Dict.get (lane_predictions tr) k, prediction_smoothing tr k).

(** The track identifier a box is recorded under. *)
Definition box_track_id (ib : nat * (option Z * Point)) : Z :=
  match fst (snd ib) with
  | None => Z.of_nat (fst ib)
  | Some i => i
  end.

(** The identifiers seen in a frame. *)
Definition seen_ids (boxes : list (option Z * Point)) : list Z :=
  map box_track_id (enumerate boxes 0).

(** The miss counter of a track after one more frame without it. *)
Definition next_missed (tr : Tracker) (k : Z) : Z :=
  (match Dict.get (missed_frames tr) k with
   | Some m => m
   | None => 0
   end + 1)%Z.

(** Every history fits the capacity. *)
Definition histories_bounded (history_length : Z) (tr : Tracker) : Prop :=
  forall k h, Dict.get (tracking_history tr) k = Some h ->
              (Z.of_nat (length h) <= history_length)%Z.

(** The invariant of the loop over the boxes, after the identifiers [ids]
    have been recorded from the tracker [tr0]. *)
Definition recorded (history_length : Z) (tr0 : Tracker) (ids : list Z)
    (st : Tracker * list Z) : Prop :=
  let '(tr1, current_track_ids) := st in
  lane_predictions tr1 = lane_predictions tr0 /\
  prediction_smoothing tr1 = prediction_smoothing tr0 /\
  frame_index tr1 = frame_index tr0 /\
  NoDup (Dict.keys (tracking_history tr1)) /\
  (forall k, In k current_track_ids <-> In k ids) /\
  (forall k, ~ In k ids ->
     Dict.get (tracking_history tr1) k = Dict.get (tracking_history tr0) k /\
     Dict.get (missed_frames tr1) k = Dict.get (missed_frames tr0) k) /\
  (forall k, In k ids ->
     Dict.get (missed_frames tr1) k = Some 0%Z /\
     exists h, Dict.get (tracking_history tr1) k = Some h /\
               (Z.of_nat (length h) <= history_length)%Z /\
               (0 < history_length -> h <> [])%Z).

(** ** Example inputs *)

(** Five equally spaced points on a horizontal line. *)
Definition five_points : Polyline := [(0, 0); (1, 0); (2, 0); (3, 0); (4, 0)].

(** Five points on a parallel line a hundred units away. *)
Definition far_points : Polyline :=
  [(0, 100); (1, 100); (2, 100); (3, 100); (4, 100)].

(** Two tracks that are far from each other. *)
Definition apart_tracks : list Polyline := [five_points; far_points].

(** Two tracks whose facing endpoints are ten units apart, and two whose
    facing endpoints are twenty units apart. *)
Definition near_tracks : list Polyline :=
  [[(0, 0); (25, 0); (50, 0); (75, 0); (100, 0)];
   [(110, 0); (130, 0); (150, 0); (170, 0); (200, 0)]].

Definition gap_tracks : list Polyline :=
  [[(0, 0); (25, 0); (50, 0); (75, 0); (100, 0)];
   [(120, 0); (140, 0); (160, 0); (180, 0); (200, 0)]].

(** One raw track of five points seen in ninety frames, at thirty frames
    per second. *)
Definition one_raw_track : list (Z * Polyline) := [(1%Z, five_points)].
Definition ninety_frames : list (Z * Z) := [(1%Z, 90%Z)].

(** A straight lane seventy units long. *)
Definition straight_lane : Lane := {| id := 0%Z; coords := [(0, 0); (70, 0)] |}.


(** *** Specification-side notion for the smoothing claim *)

(** What the smoother makes of the entry [n] of the new list, given the
    entry [o] at the same rank of the other buffered list: the new entry with
    the mean of the two probabilities when the lane identifiers agree, and
    of its own alone when they differ, decayed by [0.95]. *)
Definition smoothed_entry (o n : Prediction) : Prediction :=
  with_probability n
    ((if (lane_id o =? lane_id n)%Z
      then (probability o + probability n) / 2
      else probability n) * 0.95).

(** Two one-entry prediction lists that name different lanes at rank [0],
    and a store in which track [7] has the first one buffered. *)
Definition pred_on_lane (l : Z) (p : R) : Prediction :=
  {| lane_id := l;
     probability := p;
     path_points := [(0, 0); (10, 0)];
     lane_direction := (1, 0);
     alignment := 1;
     distance_to_lane := 0;
     travel_distance := 10 |}.

Definition older_list : list Prediction := [pred_on_lane 1 0.8].
Definition newer_list : list Prediction := [pred_on_lane 2 0.6].

Definition one_buffered : Store :=
  store_set (fun _ => None) 7%Z [older_list].

(** Two frames of detections: a box of track [3], then a frame without
    boxes data, then the same track again and an unidentified box. *)
Definition box_of (i : option Z) (cx cy : R) : Box :=
  {| box_id := i; xywhr := (cx, cy, 4, 2, 0) |}.

Definition two_frames : list (option (list Box)) :=
  [Some [box_of (Some 3%Z) 10 10]; None;
   Some [box_of (Some 3%Z) 12 10; box_of None 50 50]].

(** *** Specification-side notions for the smoother's buffer *)

(** Every buffer of the store holds at most two lists. *)
Definition buffers_bounded (st : Store) : Prop :=
  forall k b, st k = Some b -> (length b <= 2)%nat.

(** The entry [e] is the entry [n] up to its probability. *)
Definition reweighted (n e : Prediction) : Prop :=
  e = with_probability n (probability e).

(** *** Specification-side notions for the frames of the tracker *)

(** Nothing is kept about a track that has no history. *)
Definition no_orphans (tr : Tracker) : Prop :=
  forall k, Dict.get (tracking_history tr) k = None ->
            track_view tr k = (None, None, None, None).

(** No stored prediction is from a later frame. *)
Definition predictions_dated (tr : Tracker) : Prop :=
  forall k d, Dict.get (lane_predictions tr) k = Some d ->
              (timestamp d <= frame_index tr)%Z.

(** Every stored prediction was made at most [STALE_AFTER] frames ago. *)
Definition predictions_recent (tr : Tracker) : Prop :=
  forall k d, Dict.get (lane_predictions tr) k = Some d ->
              (frame_index tr - STALE_AFTER <= timestamp d <= frame_index tr)%Z.

(** The state of the tracker between two frames. *)
Definition tracker_ok (history_length : Z) (tr : Tracker) : Prop :=
  NoDup (Dict.keys (tracking_history tr)) /\
  NoDup (Dict.keys (lane_predictions tr)) /\
  histories_bounded history_length tr /\
  buffers_bounded (prediction_smoothing tr) /\
  no_orphans tr /\
  predictions_recent tr.

(** A prediction is stale in the tracker [tr]. *)
Definition stale (tr : Tracker) (d : PredictionData) : bool :=
  (STALE_AFTER <? frame_index tr - timestamp d)%Z.

(** One box of track [7], and a frame that has it. *)
Definition one_detection : list (option Z * Point) := [(Some 7%Z, (1, 2))].

(** A tracker that holds a fresh prediction for track [1] and one that is
    sixteen frames old for track [2]. *)
Definition two_predictions : Tracker :=
  {| tracking_history := [(1%Z, [(0, 0)]); (2%Z, [(5, 5)])];
     missed_frames := [(1%Z, 0%Z); (2%Z, 0%Z)];
     lane_predictions :=
       [(1%Z, {| predictions := newer_list; start_pos := (0, 0);
                 timestamp := 30 |});
        (2%Z, {| predictions := older_list; start_pos := (5, 5);
                 timestamp := 16 |})];
     prediction_smoothing :=
       store_set (store_set (fun _ => None) 1%Z [newer_list]) 2%Z [older_list];
     frame_index := 32 |}.

(** A tracker that saw track [7] once, in its first frame. *)
Definition seen_once : Tracker :=
  {| tracking_history := [(7%Z, [(1, 2)])];
     missed_frames := [(7%Z, 0%Z)];
     lane_predictions := [];
     prediction_smoothing := fun _ => None;
     frame_index := 1 |}.

(** The history of a track, empty when there is none yet. *)
Definition history_of (tr : Tracker) (k : Z) : list Point :=
  match Dict.get (tracking_history tr) k with
  | Some h => h
  | None => []
  end.

(** *** Specification-side notion for the export *)

(** The features a track at rank [i] gives: one, or none when the track is
    too short or the simplification raises. *)
Definition features_of (simplify : Polyline -> Exc Polyline)
    (it : nat * Polyline) : list geojson.Feature :=
  add_feature simplify [] it.

(** *** Specification-side notions for the range of floats *)

(** The square of [x] is within the range of floats. *)
Definition square_in_range (x : R) : Prop := x * x <= Py.FLOAT_MAX.

Definition velocity_in_range (v : Point) : Prop :=
  square_in_range (px v) /\ square_in_range (py v).


(** The coordinate differences of a segment can be squared. *)
Definition squares_in_range (s : Point * Point) : Prop :=
  square_in_range (px (snd s) - px (fst s)) /\
  square_in_range (py (snd s) - py (fst s)).


(** The length of a segment. *)
Definition euclid_of (s : Point * Point) : R := euclid (fst s) (snd s).




(** A lane whose first segment is too short for its squared length. *)
Definition thin_lane : Lane :=
  {| id := 0%Z; coords := [(0, 0); (/ 2 ^ 700, 0); (10, 0)] |}.


(** * Properties *)

(** ** Loops that append *)

Lemma fold_left_append_map {A B} (f : A -> B) (xs : list A) (init : list B) :
  fold_left (fun acc x => acc ++ [f x]) xs init = init ++ map f xs.
Proof.
  revert init; induction xs as [|x xs IH]; intros init; simpl.
  - now rewrite app_nil_r.
  - rewrite IH, <- app_assoc. reflexivity.
Qed.

Lemma range_length n : length (Py.range n) = n.
Proof. unfold Py.range. now rewrite length_map, length_seq. Qed.

Lemma range_nth_error n i :
  (i < n)%nat -> nth_error (Py.range n) i = Some (Z.of_nat i).
Proof.
  intros H. unfold Py.range.
  rewrite nth_error_map, nth_error_seq.
  destruct (Nat.ltb_spec i n); [reflexivity | lia].
Qed.

(** ** Sums and means *)

Lemma fold_left_Rplus_init (xs : list R) (a : R) :
  fold_left Rplus xs a = a + fold_right Rplus 0 xs.
Proof.
  revert a; induction xs as [|x xs IH]; intros a; simpl.
  - lra.
  - rewrite IH. lra.
Qed.

Lemma sum_fold_right (xs : list R) : Py.sum xs = fold_right Rplus 0 xs.
Proof. unfold Py.sum. rewrite fold_left_Rplus_init. lra. Qed.

Lemma sum_cons (x : R) (xs : list R) : Py.sum (x :: xs) = x + Py.sum xs.
Proof. now rewrite !sum_fold_right. Qed.

Lemma weights_total (c : R) (n : nat) :
  fold_right Rplus 0 (repeat c n) = INR n * c.
Proof.
  induction n as [|n IH].
  - simpl. lra.
  - rewrite S_INR. simpl. rewrite IH. lra.
Qed.

Lemma weighted_sum_uniform (c : R) (ps : list Point) :
  weighted_sum (repeat c (length ps)) ps
  = (c * Py.sum (map px ps), c * Py.sum (map py ps)).
Proof.
  induction ps as [|p ps IH]; simpl.
  - unfold Py.sum; simpl. f_equal; lra.
  - rewrite IH, !sum_cons. unfold px, py; simpl. f_equal; lra.
Qed.

(** The mean of a non-empty list of points is a convex combination of them,
    with equal weights. *)
Lemma np_mean_in_hull (ps : list Point) :
  ps <> [] -> in_convex_hull ps (np_mean ps).
Proof.
  intros Hne.
  assert (Hpos : 0 < INR (length ps)).
  { apply lt_0_INR. destruct ps; [congruence | simpl; lia]. }
  exists (repeat (/ INR (length ps)) (length ps)).
  repeat split.
  - apply repeat_length.
  - apply Forall_forall. intros w Hw. apply repeat_spec in Hw. subst w.
    left. now apply Rinv_0_lt_compat.
  - rewrite weights_total. field. lra.
  - rewrite weighted_sum_uniform. unfold np_mean. f_equal; field; lra.
Qed.

(** ** Slices *)

Lemma points_between_offset (l : Polyline) (k lo hi : nat) :
  map snd
    (filter (fun ip : Z * Point =>
               (Z.of_nat lo <=? fst ip)%Z && (fst ip <? Z.of_nat hi)%Z)
            (combine (map Z.of_nat (seq k (length l))) l))
  = firstn (hi - Nat.max lo k) (skipn (Nat.max lo k - k) l).
Proof.
  revert k; induction l as [|a l IH]; intros k.
  - simpl. now rewrite skipn_nil, firstn_nil.
  - cbn [length seq map combine filter fst].
    destruct (Z.leb_spec (Z.of_nat lo) (Z.of_nat k));
      destruct (Z.ltb_spec (Z.of_nat k) (Z.of_nat hi)); cbn [andb map snd];
      rewrite IH.
    + replace (Nat.max lo k - k)%nat with 0%nat by lia.
      replace (hi - Nat.max lo k)%nat with (S (hi - Nat.max lo (S k)))%nat by lia.
      replace (Nat.max lo (S k) - S k)%nat with 0%nat by lia.
      reflexivity.
    + replace (hi - Nat.max lo k)%nat with 0%nat by lia.
      replace (hi - Nat.max lo (S k))%nat with 0%nat by lia.
      reflexivity.
    + replace (Nat.max lo k - k)%nat with (S (Nat.max lo (S k) - S k))%nat by lia.
      replace (Nat.max lo (S k)) with (Nat.max lo k) by lia.
      reflexivity.
    + replace (hi - Nat.max lo k)%nat with 0%nat by lia.
      replace (hi - Nat.max lo (S k))%nat with 0%nat by lia.
      reflexivity.
Qed.

Lemma points_between_firstn (l : Polyline) (lo hi : nat) :
  points_between l (Z.of_nat lo) (Z.of_nat hi) = firstn (hi - lo) (skipn lo l).
Proof.
  unfold points_between, Py.range. rewrite points_between_offset.
  now rewrite Nat.max_0_r, Nat.sub_0_r.
Qed.

(** A slice with bounds inside the list is the run of points with those
    indices. *)
Lemma slice_points_between (l : Polyline) (lo hi : Z) :
  (0 <= lo)%Z -> (0 <= hi <= Z.of_nat (length l))%Z ->
  Py.slice l lo hi = points_between l lo hi.
Proof.
  intros Hlo Hhi.
  replace (points_between l lo hi)
    with (points_between l (Z.of_nat (Z.to_nat lo)) (Z.of_nat (Z.to_nat hi)))
    by (now rewrite !Z2Nat.id by lia).
  rewrite points_between_firstn.
  unfold Py.slice, Py.clip.
  destruct (Z.ltb_spec lo 0); [lia|].
  destruct (Z.ltb_spec hi 0); [lia|].
  destruct (Z.le_gt_cases lo (Z.of_nat (length l))) as [Hin | Hout].
  - rewrite (Z.min_l lo), (Z.min_l hi) by lia.
    f_equal. lia.
  - rewrite (Z.min_r lo), (Z.min_l hi) by lia.
    rewrite Nat2Z.id, skipn_all, firstn_nil.
    rewrite skipn_all2 by lia. now rewrite firstn_nil.
Qed.

(** ** [smooth_polyline] is a clipped centred moving average *)

Lemma smooth_polyline_short (points : Polyline) (w : Z) :
  (Z.of_nat (length points) < w)%Z -> smooth_polyline points w = points.
Proof.
  intros H. unfold smooth_polyline.
  destruct (Z.ltb_spec (Z.of_nat (length points)) w); [reflexivity | lia].
Qed.

Lemma smooth_polyline_long (points : Polyline) (w : Z) :
  (w <= Z.of_nat (length points))%Z ->
  smooth_polyline points w
  = map (fun i => np_mean (smooth_window points w i)) (Py.range (length points)).
Proof.
  intros H. unfold smooth_polyline.
  destruct (Z.ltb_spec (Z.of_nat (length points)) w); [lia|].
  now rewrite fold_left_append_map.
Qed.

Lemma smooth_window_between (points : Polyline) (w : Z) (i : nat) :
  (0 <= w)%Z ->
  smooth_window points w (Z.of_nat i)
  = points_between points
      (Z.max 0 (Z.of_nat i - w / 2))
      (Z.min (Z.of_nat (length points)) (Z.of_nat i + w / 2 + 1)).
Proof.
  intros Hw. unfold smooth_window.
  assert (0 <= w / 2)%Z by (apply Z.div_pos; lia).
  apply slice_points_between; lia.
Qed.

Lemma points_between_nonempty (points : Polyline) (lo hi : Z) (i : nat) :
  (i < length points)%nat -> (0 <= lo <= Z.of_nat i)%Z ->
  (Z.of_nat i < hi <= Z.of_nat (length points))%Z ->
  points_between points lo hi <> [].
Proof.
  intros Hi Hlo Hhi.
  replace (points_between points lo hi)
    with (points_between points (Z.of_nat (Z.to_nat lo)) (Z.of_nat (Z.to_nat hi)))
    by (now rewrite !Z2Nat.id by lia).
  rewrite points_between_firstn. intros Hnil.
  apply (f_equal (@length Point)) in Hnil.
  rewrite length_firstn, length_skipn in Hnil. simpl in Hnil. lia.
Qed.

(** C7. For every point sequence: below the window size it is returned
    unchanged; otherwise the output has the length of the input, and output
    point [i] is the arithmetic mean of the input points with indices in
    [[max(0, i - w//2), min(n, i + w//2 + 1))], hence a convex combination
    of those window points.  The window size is a size: [0 <= w]. *)
Theorem smooth_polyline_moving_average (points : Polyline) (w : Z) :
  let n := Z.of_nat (length points) in
  ((n < w)%Z -> smooth_polyline points w = points) /\
  ((w <= n)%Z -> length (smooth_polyline points w) = length points) /\
  ((0 <= w <= n)%Z ->
   forall i : nat, (i < length points)%nat ->
     let window :=
       points_between points
         (Z.max 0 (Z.of_nat i - w / 2))
         (Z.min n (Z.of_nat i + w / 2 + 1)) in
     nth_error (smooth_polyline points w) i = Some (np_mean window) /\
     in_convex_hull window (np_mean window)).
Proof.
  intros n. split; [| split].
  - apply smooth_polyline_short.
  - intros H. rewrite smooth_polyline_long by exact H.
    now rewrite length_map, range_length.
  - intros [Hw Hn] i Hi window.
    assert (0 <= w / 2)%Z by (apply Z.div_pos; lia).
    split.
    + rewrite smooth_polyline_long by exact Hn.
      rewrite nth_error_map, range_nth_error by exact Hi. simpl.
      now rewrite smooth_window_between.
    + apply np_mean_in_hull.
      apply (points_between_nonempty points _ _ i); subst n; lia.
Qed.

Lemma smooth_polyline_moving_average_witness :
  length (smooth_polyline five_points 5) = length five_points /\
  nth_error (smooth_polyline five_points 5) 0
  = Some (np_mean (points_between five_points 0 3)).
Proof.
  pose proof (smooth_polyline_moving_average five_points 5) as [_ [Hlen Hmean]].
  split.
  - apply Hlen. simpl. lia.
  - apply (Hmean ltac:(simpl; lia) 0%nat). simpl. lia.
Defined.

(** ** The shape distance *)

Lemma euclid_nonneg (a b : Point) : 0 <= euclid a b.
Proof. apply sqrt_pos. Qed.

Lemma euclid_self (a : Point) : euclid a a = 0.
Proof.
  unfold euclid. replace (_ + _) with 0 by ring. apply sqrt_0.
Qed.

Lemma Dist_max_comm (a b : Dist) : Dist_max a b = Dist_max b a.
Proof.
  destruct a as [x|], b as [y|]; unfold Dist_max, Dist_ltb; try reflexivity.
  destruct (Rlt_dec x y), (Rlt_dec y x); try reflexivity; try lra.
  f_equal. lra.
Qed.

Lemma Dist_min_zero_l (d : Dist) :
  Dist_nonneg d -> Dist_min (Fin 0) d = Fin 0.
Proof.
  destruct d as [r|]; unfold Dist_min, Dist_ltb; simpl; intros H.
  - destruct (Rlt_dec r 0); [lra | reflexivity].
  - reflexivity.
Qed.

Lemma Dist_min_zero_r (d : Dist) :
  Dist_nonneg d -> Dist_min d (Fin 0) = Fin 0.
Proof.
  destruct d as [r|]; unfold Dist_min, Dist_ltb; simpl; intros H.
  - destruct (Rlt_dec 0 r); [reflexivity | f_equal; lra].
  - reflexivity.
Qed.

Lemma Dist_min_nonneg (d e : Dist) :
  Dist_nonneg d -> Dist_nonneg e -> Dist_nonneg (Dist_min d e).
Proof. unfold Dist_min. now destruct (Dist_ltb e d). Qed.

(** Once the running minimum is [0] it stays [0]. *)
Lemma nearest_from_zero (a : Point) (B : Polyline) :
  fold_left (fun cmin b => Dist_min cmin (Fin (euclid a b))) B (Fin 0) = Fin 0.
Proof.
  induction B as [|b B IH]; simpl; [reflexivity|].
  rewrite Dist_min_zero_l by apply euclid_nonneg. exact IH.
Qed.

Lemma nearest_fold_member (a : Point) (B : Polyline) (init : Dist) :
  Dist_nonneg init -> In a B ->
  fold_left (fun cmin b => Dist_min cmin (Fin (euclid a b))) B init = Fin 0.
Proof.
  revert init; induction B as [|b B IH]; intros init Hinit Hin; simpl.
  - contradiction.
  - destruct Hin as [-> | Hin].
    + rewrite euclid_self, Dist_min_zero_r by exact Hinit.
      apply nearest_from_zero.
    + apply IH; [| exact Hin].
      apply Dist_min_nonneg; [exact Hinit | apply euclid_nonneg].
Qed.

(** A point of a polyline is at distance [0] from the polyline. *)
Lemma nearest_member (a : Point) (B : Polyline) :
  In a B -> nearest a B = Fin 0.
Proof. intros H. apply nearest_fold_member; [exact I | exact H]. Qed.

Lemma directed_hausdorff_within (A' A : Polyline) :
  incl A' A ->
  fold_left (fun cmax a => Dist_max cmax (nearest a A)) A' (Fin 0) = Fin 0.
Proof.
  induction A' as [|a A' IH]; intros Hincl; simpl; [reflexivity|].
  rewrite nearest_member by (apply Hincl; now left).
  replace (Dist_max (Fin 0) (Fin 0)) with (Fin 0).
  - apply IH. intros x Hx. apply Hincl. now right.
  - unfold Dist_max, Dist_ltb. destruct (Rlt_dec 0 0); reflexivity.
Qed.

Lemma directed_hausdorff_self (A : Polyline) : directed_hausdorff A A = Fin 0.
Proof. apply directed_hausdorff_within, incl_refl. Qed.

(** C8. The shape distance is symmetric, is [0] from a polyline of at least
    two points to itself, and is infinite as soon as one argument has fewer
    than two points. *)
Theorem hausdorff_symmetric_zero_inf (A B : Polyline) :
  calculate_hausdorff_distance A B = calculate_hausdorff_distance B A /\
  ((2 <= length A)%nat -> calculate_hausdorff_distance A A = Fin 0) /\
  ((length A < 2)%nat \/ (length B < 2)%nat ->
   calculate_hausdorff_distance A B = Inf).
Proof.
  unfold calculate_hausdorff_distance. split; [| split].
  - rewrite (orb_comm (length A <? 2)%nat).
    destruct ((length B <? 2)%nat || (length A <? 2)%nat); [reflexivity|].
    apply Dist_max_comm.
  - intros H. destruct (Nat.ltb_spec (length A) 2); [lia|]. simpl.
    rewrite directed_hausdorff_self.
    unfold Dist_max, Dist_ltb. destruct (Rlt_dec 0 0); reflexivity.
  - intros [H | H].
    + destruct (Nat.ltb_spec (length A) 2); [reflexivity | lia].
    + destruct (Nat.ltb_spec (length B) 2); [| lia].
      now rewrite orb_true_r.
Qed.

Lemma hausdorff_symmetric_zero_inf_witness :
  calculate_hausdorff_distance five_points five_points = Fin 0 /\
  calculate_hausdorff_distance five_points [(0, 0)] = Inf.
Proof.
  split.
  - apply (hausdorff_symmetric_zero_inf five_points five_points). simpl. lia.
  - apply (hausdorff_symmetric_zero_inf five_points [(0, 0)]). right. simpl. lia.
Defined.

(** ** Greedy seed-linked clustering *)

Section Clustering.

Variable tracks : list Polyline.
Variable threshold : R.

Let n := length tracks.
Let tr := track_at tracks.
Let close := close_to tracks threshold.

(** The fresh indices among [js]. *)
Let fresh (used : list nat) (js : list nat) : list nat :=
  filter (fun j => negb (in_used used j)) js.

Lemma in_used_app (a b : list nat) (k : nat) :
  in_used (a ++ b) k = in_used a k || in_used b k.
Proof. apply existsb_app. Qed.

Lemma in_used_spec (used : list nat) (k : nat) :
  in_used used k = true <-> In k used.
Proof.
  unfold in_used. rewrite existsb_exists. split.
  - intros [x [Hx He]]. apply Nat.eqb_eq in He. now subst.
  - intros H. exists k. split; [exact H | apply Nat.eqb_refl].
Qed.

Lemma in_used_false (used : list nat) (k : nat) :
  in_used used k = false <-> ~ In k used.
Proof.
  rewrite <- in_used_spec. destruct (in_used used k); split; congruence.
Qed.

Lemma enumerate_as_map {A} (d : A) (l : list A) (s : nat) :
  enumerate l s = map (fun j => (j, nth (j - s) l d)) (seq s (length l)).
Proof.
  unfold enumerate. revert s; induction l as [|a l IH]; intros s; simpl.
  - reflexivity.
  - rewrite Nat.sub_diag. f_equal. rewrite IH.
    apply map_ext_in. intros j Hj. apply in_seq in Hj.
    replace (j - s)%nat with (S (j - S s)) by lia. reflexivity.
Qed.

Lemma enumerate_tail (k : nat) :
  enumerate (skipn k tracks) k = map (fun j => (j, tr j)) (seq k (n - k)).
Proof.
  rewrite (enumerate_as_map ([] : Polyline) (skipn k tracks) k), length_skipn. fold n.
  apply map_ext_in. intros j Hj. apply in_seq in Hj.
  unfold tr, track_at. rewrite nth_skipn. f_equal. f_equal. lia.
Qed.

Lemma filter_cons_true {A} (f : A -> bool) (a : A) (l : list A) :
  f a = true -> filter f (a :: l) = a :: filter f l.
Proof. intros H. simpl. now rewrite H. Qed.

Lemma filter_cons_false {A} (f : A -> bool) (a : A) (l : list A) :
  f a = false -> filter f (a :: l) = filter f l.
Proof. intros H. simpl. now rewrite H. Qed.

Lemma merge_scan_eq (i j : nat) (similar : list Polyline) (used : list nat) :
  merge_scan threshold (tr i) (similar, used) (j, tr j)
  = if in_used used j then (similar, used)
    else if close i j then (similar ++ [tr j], j :: used)
    else (similar, used).
Proof. reflexivity. Qed.

(** The inner scan adds to the cluster the fresh tracks close to the seed,
    in order, and marks them as used. *)
Lemma merge_scan_fold (i : nat) (js : list nat)
    (similar : list Polyline) (used : list nat) :
  NoDup js ->
  fold_left (merge_scan threshold (tr i)) (map (fun j => (j, tr j)) js)
            (similar, used)
  = (similar ++ map tr (filter (close i) (fresh used js)),
     rev (filter (close i) (fresh used js)) ++ used).
Proof.
  revert similar used; induction js as [|j js IH]; intros similar used Hnd.
  - simpl. now rewrite app_nil_r.
  - inversion Hnd as [|? ? Hj Hnd']; subst.
    cbn [map fold_left]. rewrite merge_scan_eq. unfold fresh.
    destruct (in_used used j) eqn:Hu.
    + rewrite (filter_cons_false _ j) by now rewrite Hu.
      apply IH; exact Hnd'.
    + rewrite (filter_cons_true _ j) by now rewrite Hu.
      destruct (close i j) eqn:Hc.
      * rewrite (filter_cons_true _ j) by exact Hc.
        rewrite IH by exact Hnd'.
        assert (Heq : fresh (j :: used) js = fresh used js).
        { apply filter_ext_in. intros k Hk. unfold in_used; simpl.
          destruct (Nat.eqb_spec k j); [subst; contradiction | reflexivity]. }
        rewrite Heq. unfold fresh. cbn [map rev].
        rewrite <- !app_assoc. reflexivity.
      * rewrite (filter_cons_false _ j) by exact Hc.
        apply IH; exact Hnd'.
Qed.

Lemma filter_filter_and {A} (f g : A -> bool) (l : list A) :
  filter f (filter g l) = filter (fun x => g x && f x) l.
Proof.
  induction l as [|a l IH]; simpl; [reflexivity|].
  destruct (g a); simpl; [destruct (f a) |]; now rewrite IH.
Qed.

(** After a cluster is closed, the fresh later indices are those that were
    fresh before and are not close to the seed. *)
Lemma fresh_after_cluster (i : nat) (used : list nat) (js : list nat) :
  ~ In i js ->
  fresh (rev (filter (close i) (fresh used js)) ++ i :: used) js
  = filter (fun j => negb (close i j)) (fresh used js).
Proof.
  intros Hi.
  set (yes := filter (close i) (fresh used js)).
  assert (Hyes : forall j, In j js -> in_used used j = false ->
                           (In j yes <-> close i j = true)).
  { intros j Hj Hu. subst yes. rewrite filter_In. unfold fresh.
    rewrite filter_In, Hu. tauto. }
  unfold fresh at 2. rewrite filter_filter_and. unfold fresh.
  apply filter_ext_in. intros j Hj.
  rewrite in_used_app.
  assert (Hji : in_used (i :: used) j = in_used used j).
  { unfold in_used; simpl. destruct (Nat.eqb_spec j i); [subst; contradiction | reflexivity]. }
  rewrite Hji.
  destruct (in_used used j) eqn:Hu; simpl.
  - now rewrite orb_true_r.
  - rewrite orb_false_r. f_equal.
    destruct (close i j) eqn:Hc.
    + apply in_used_spec. rewrite <- in_rev. now apply Hyes.
    + apply in_used_false. rewrite <- in_rev. intros H.
      apply Hyes in H; [congruence | exact Hj | exact Hu].
Qed.

Lemma cluster_output_cons (i : nat) (yes : list nat) :
  (if (length ([tr i] ++ map tr yes) =? 1)%nat then tr i
   else smooth_polyline (concat ([tr i] ++ map tr yes)) config.SMOOTHING_WINDOW_SIZE)
  = cluster_output tracks (i :: yes).
Proof.
  unfold cluster_output. destruct yes as [|j yes]; reflexivity.
Qed.

Lemma merge_step_eq (i : nat) (merged : list Polyline) (used : list nat) :
  merge_step tracks threshold (merged, used) (i, tr i)
  = if in_used used i then (merged, used)
    else
      let '(similar_tracks, used') :=
        fold_left (merge_scan threshold (tr i))
                  (enumerate (skipn (i + 1) tracks) (i + 1))
                  ([tr i], i :: used) in
      if (length similar_tracks =? 1)%nat then (merged ++ [tr i], used')
      else (merged ++ [smooth_polyline (concat similar_tracks)
                                       config.SMOOTHING_WINDOW_SIZE], used').
Proof. reflexivity. Qed.

(** The outer loop from index [k] on, against the grouping of the indices
    still fresh. *)
Lemma merge_outer (m : nat) :
  forall (k fuel : nat) (merged : list Polyline) (used : list nat),
    (k + m = n)%nat -> (m <= fuel)%nat ->
    fst (fold_left (merge_step tracks threshold)
                   (map (fun i => (i, tr i)) (seq k m)) (merged, used))
    = merged ++ map (cluster_output tracks)
                    (greedy_clusters close fuel (fresh used (seq k m))).
Proof.
  induction m as [|m IH]; intros k fuel merged used Hk Hfuel.
  - simpl. destruct fuel; simpl; now rewrite app_nil_r.
  - cbn [seq map fold_left]. rewrite merge_step_eq. unfold fresh.
    destruct (in_used used k) eqn:Hu.
    + rewrite (filter_cons_false _ k) by now rewrite Hu.
      apply IH; lia.
    + rewrite (filter_cons_true _ k) by now rewrite Hu.
      fold (fresh used (seq (S k) m)).
      replace (k + 1)%nat with (S k) by lia.
      rewrite enumerate_tail.
      replace (n - S k)%nat with m by lia.
      rewrite merge_scan_fold by apply seq_NoDup.
      assert (Hfr : fresh (k :: used) (seq (S k) m) = fresh used (seq (S k) m)).
      { apply filter_ext_in. intros j Hj. apply in_seq in Hj.
        unfold in_used; simpl. destruct (Nat.eqb_spec j k); [lia | reflexivity]. }
      rewrite Hfr.
      assert (Hnot : ~ In k (seq (S k) m)) by (rewrite in_seq; lia).
      pose proof (fresh_after_cluster k used (seq (S k) m) Hnot) as Hafter.
      set (yes := filter (close k) (fresh used (seq (S k) m))) in *.
      destruct fuel as [|fuel]; [lia|].
      cbn [greedy_clusters map]. fold yes.
      rewrite <- cluster_output_cons.
      destruct (length ([tr k] ++ map tr yes) =? 1)%nat;
        rewrite (IH (S k) fuel) by lia; rewrite Hafter, <- app_assoc; reflexivity.
Qed.

End Clustering.

(** ** Polylines that are far apart *)

Lemma euclid_ge_dy (a b : Point) : Rabs (py a - py b) <= euclid a b.
Proof.
  unfold euclid. rewrite <- sqrt_Rsqr_abs. apply sqrt_le_1_alt.
  pose proof (Rle_0_sqr (px a - px b)) as H. unfold Rsqr in *. lra.
Qed.

Lemma Dist_min_ge (c : R) (d e : Dist) :
  Dist_ge c d -> Dist_ge c e -> Dist_ge c (Dist_min d e).
Proof. unfold Dist_min. now destruct (Dist_ltb e d). Qed.

Lemma Dist_max_ge_r (c : R) (d e : Dist) :
  Dist_ge c e -> Dist_ge c (Dist_max d e).
Proof.
  destruct d as [x|], e as [y|]; unfold Dist_max, Dist_ltb; simpl; try tauto.
  destruct (Rlt_dec x y); simpl; lra.
Qed.

Lemma Dist_max_ge_l (c : R) (d e : Dist) :
  Dist_ge c d -> Dist_ge c (Dist_max d e).
Proof.
  destruct d as [x|], e as [y|]; unfold Dist_max, Dist_ltb; simpl; try tauto.
  destruct (Rlt_dec x y); simpl; lra.
Qed.

Lemma nearest_ge (c : R) (a : Point) (B : Polyline) :
  Forall (fun b => c <= euclid a b) B -> Dist_ge c (nearest a B).
Proof.
  unfold nearest. generalize Inf, (I : Dist_ge c Inf).
  induction B as [|b B IH]; intros init Hinit HB; simpl; [exact Hinit|].
  inversion HB; subst. apply IH; [| assumption].
  apply Dist_min_ge; assumption.
Qed.

Lemma directed_fold_ge (c : R) (A B : Polyline) (init : Dist) :
  Dist_ge c init ->
  Dist_ge c (fold_left (fun cmax a => Dist_max cmax (nearest a B)) A init).
Proof.
  revert init; induction A as [|a A IH]; intros init Hinit; simpl.
  - exact Hinit.
  - apply IH. now apply Dist_max_ge_l.
Qed.

Lemma directed_hausdorff_ge (c : R) (A B : Polyline) :
  A <> [] ->
  Forall (fun a => Forall (fun b => c <= euclid a b) B) A ->
  Dist_ge c (directed_hausdorff A B).
Proof.
  intros Hne HA. unfold directed_hausdorff.
  destruct A as [|a A]; [congruence|]. inversion HA as [|? ? Ha HA']; subst.
  simpl. apply directed_fold_ge, Dist_max_ge_r, nearest_ge, Ha.
Qed.

Lemma Dist_ge_not_below (c : R) (d : Dist) :
  Dist_ge c d -> Dist_ltb d (Fin c) = false.
Proof.
  destruct d as [r|]; simpl; intros H; [| reflexivity].
  destruct (Rlt_dec r c); [lra | reflexivity].
Qed.

(** Two polylines on horizontal lines [gap] apart are at shape distance at
    least [gap]. *)
Lemma hausdorff_parallel_lines (A B : Polyline) (ya yb gap : R) :
  A <> [] ->
  Forall (fun a => py a = ya) A -> Forall (fun b => py b = yb) B ->
  gap <= Rabs (ya - yb) ->
  Dist_ltb (calculate_hausdorff_distance A B) (Fin gap) = false.
Proof.
  intros Hne HA HB Hgap. apply Dist_ge_not_below.
  unfold calculate_hausdorff_distance.
  destruct (_ || _); [exact I|].
  apply Dist_max_ge_l, directed_hausdorff_ge; [exact Hne|].
  apply Forall_forall. intros a Ha. apply Forall_forall. intros b Hb.
  rewrite Forall_forall in HA, HB.
  pose proof (euclid_ge_dy a b) as Hd.
  rewrite (HA a Ha), (HB b Hb) in Hd. lra.
Qed.

Lemma apart_tracks_not_close : close_to apart_tracks 20 0 1 = false.
Proof.
  unfold close_to, apart_tracks, track_at. cbn [nth].
  apply (hausdorff_parallel_lines five_points far_points 0 100).
  - discriminate.
  - unfold five_points. repeat constructor.
  - unfold far_points. repeat constructor.
  - replace (0 - 100) with (- (100)) by ring.
    rewrite Rabs_Ropp, Rabs_pos_eq; lra.
Qed.

(** The clustering stage groups the tracks greedily around seeds, and
    collapses each group: a lone track is kept as it is, a larger group is
    concatenated in cluster order and smoothed again. *)
Lemma merge_similar_tracks_refines (tracks : list Polyline) (threshold : R) :
  merge_similar_tracks tracks threshold
  = map (cluster_output tracks)
        (greedy_clusters (close_to tracks threshold) (length tracks)
                         (seq 0 (length tracks))).
Proof.
  unfold merge_similar_tracks.
  destruct (Nat.leb_spec (length tracks) 1) as [Hshort | Hlong].
  - destruct tracks as [|t [|t' rest]]; simpl in Hshort; try lia; reflexivity.
  - pose proof (enumerate_tail tracks 0) as Henum. simpl in Henum.
    rewrite Henum, Nat.sub_0_r.
    rewrite (merge_outer tracks threshold (length tracks) 0 (length tracks))
      by lia.
    simpl app. f_equal. f_equal.
    clear. induction (seq 0 (length tracks)) as [|a l IH]; simpl;
      [reflexivity | now rewrite IH].
Qed.

Lemma apart_tracks_clusters :
  greedy_clusters (close_to apart_tracks 20) 2 [0; 1]%nat = [[0]; [1]]%nat.
Proof.
  cbn [greedy_clusters].
  rewrite (filter_cons_false _ 1%nat) by apply apart_tracks_not_close.
  rewrite (filter_cons_true (fun j => negb _) 1%nat)
    by now rewrite apart_tracks_not_close.
  reflexivity.
Qed.

Lemma smooth_five_points_head :
  hd (0, 0) (smooth_polyline five_points config.SMOOTHING_WINDOW_SIZE) = (1, 0).
Proof.
  unfold config.SMOOTHING_WINDOW_SIZE.
  rewrite smooth_polyline_long by (unfold five_points; simpl; lia).
  unfold five_points, np_mean, Py.sum, px, py. simpl.
  f_equal; lra.
Qed.

(** With one round per pending index, no index is left out of the
    grouping. *)
Lemma greedy_clusters_cover (close : nat -> nat -> bool) (fuel : nat) :
  forall pending : list nat,
    (length pending <= fuel)%nat ->
    forall i, In i pending ->
      exists c, In c (greedy_clusters close fuel pending) /\ In i c.
Proof.
  induction fuel as [|fuel IH]; intros pending Hlen i Hi.
  - destruct pending; [contradiction | simpl in Hlen; lia].
  - destruct pending as [|i0 rest]; [contradiction|].
    cbn [greedy_clusters]. destruct Hi as [-> | Hi].
    + eexists. split; [now left | now left].
    + destruct (close i0 i) eqn:Hc.
      * eexists. split; [now left|]. right. apply filter_In. now split.
      * destruct (IH (filter (fun j => negb (close i0 j)) rest)) with (i := i)
          as [c [Hc1 Hc2]].
        -- pose proof (filter_length_le (fun j => negb (close i0 j)) rest).
           simpl in Hlen. lia.
        -- apply filter_In. split; [exact Hi | now rewrite Hc].
        -- exists c. split; [now right | exact Hc2].
Qed.

(** C3 (amended). The cluster seeded at a track consists of that track plus
    the later not-yet-assigned tracks whose shape distance to it is below the
    threshold; every track falls in a cluster; a cluster of several tracks
    yields the moving-average re-smoothing of the concatenation of its
    members' points in cluster order, whereas a cluster of one track yields
    that track unchanged. *)
Theorem merge_similar_tracks_clusters (tracks : list Polyline) (threshold : R) :
  let clusters :=
    greedy_clusters (close_to tracks threshold) (length tracks)
                    (seq 0 (length tracks)) in
  merge_similar_tracks tracks threshold = map (cluster_output tracks) clusters /\
  (forall i, (i < length tracks)%nat -> exists c, In c clusters /\ In i c) /\
  (forall i, cluster_output tracks [i] = track_at tracks i) /\
  (forall i j rest,
     cluster_output tracks (i :: j :: rest)
     = smooth_polyline (concat (map (track_at tracks) (i :: j :: rest)))
                       config.SMOOTHING_WINDOW_SIZE).
Proof.
  intros clusters. repeat split.
  - apply merge_similar_tracks_refines.
  - intros i Hi. apply greedy_clusters_cover.
    + now rewrite length_seq.
    + apply in_seq. lia.
Qed.

Lemma merge_similar_tracks_clusters_witness :
  exists c,
    In c (greedy_clusters (close_to apart_tracks 20) 2 (seq 0 2)) /\ In 1%nat c.
Proof.
  apply (merge_similar_tracks_clusters apart_tracks 20). simpl. lia.
Defined.

(** C3 as stated fails on a cluster of one track: the two tracks of
    [apart_tracks] are a hundred units apart, each is a cluster of its own,
    and the first output is the first track itself, which differs from its
    re-smoothing. *)
Lemma merge_lone_track_unsmoothed :
  greedy_clusters (close_to apart_tracks 20) 2 (seq 0 2) = [[0]; [1]]%nat /\
  nth_error (merge_similar_tracks apart_tracks 20) 0 = Some five_points /\
  smooth_polyline (concat (map (track_at apart_tracks) [0%nat]))
                  config.SMOOTHING_WINDOW_SIZE
  <> five_points.
Proof.
  split; [| split].
  - apply apart_tracks_clusters.
  - rewrite merge_similar_tracks_refines.
    change (length apart_tracks) with 2%nat.
    change (seq 0 2) with [0; 1]%nat.
    rewrite apart_tracks_clusters. reflexivity.
  - intros H. apply (f_equal (hd (0, 0))) in H.
    change (concat (map (track_at apart_tracks) [0%nat]))
      with (five_points ++ []) in H.
    rewrite app_nil_r, smooth_five_points_head in H.
    unfold five_points in H. simpl in H. inversion H. lra.
Qed.

(** ** Endpoint snapping *)

Lemma fold_left_append_unless {A B} (skip : A -> bool) (f : A -> B)
    (xs : list A) (init : list B) :
  fold_left (fun acc x => if skip x then acc else acc ++ [f x]) xs init
  = init ++ map f (filter (fun x => negb (skip x)) xs).
Proof.
  revert init; induction xs as [|x xs IH]; intros init; simpl.
  - now rewrite app_nil_r.
  - rewrite IH. destruct (skip x); simpl; [reflexivity|].
    now rewrite <- app_assoc.
Qed.

Lemma set_first_length (s : Polyline) (p : Point) :
  length (set_first s p) = length s.
Proof. destruct s; reflexivity. Qed.

Lemma set_first_nth_error (s : Polyline) (p : Point) (i : nat) :
  (0 < i)%nat -> nth_error (set_first s p) i = nth_error s i.
Proof. destruct s, i; simpl; intros; try reflexivity; lia. Qed.

Lemma set_last_eq (s : Polyline) (p : Point) :
  set_last s p = match s with
                 | [] => []
                 | _ => firstn (length s - 1) s ++ [p]
                 end.
Proof.
  destruct s as [|a s]; [reflexivity|].
  unfold set_last. rewrite removelast_firstn_len.
  now rewrite Nat.sub_1_r.
Qed.

Lemma set_last_length (s : Polyline) (p : Point) :
  length (set_last s p) = length s.
Proof.
  rewrite set_last_eq. destruct s as [|a s]; [reflexivity|].
  rewrite length_app, length_firstn. simpl. lia.
Qed.

Lemma set_last_nth_error (s : Polyline) (p : Point) (i : nat) :
  (i + 1 < length s)%nat -> nth_error (set_last s p) i = nth_error s i.
Proof.
  intros Hi. rewrite set_last_eq. destruct s as [|a s]; [reflexivity|].
  rewrite nth_error_app1 by (rewrite length_firstn; simpl in *; lia).
  rewrite nth_error_firstn.
  destruct (Nat.ltb_spec i (length (a :: s) - 1)); [reflexivity | lia].
Qed.

Lemma same_interior_refl (t : Polyline) : same_interior t t.
Proof. split; [reflexivity | intros; reflexivity]. Qed.

Lemma same_interior_set_first (t s : Polyline) (p : Point) :
  same_interior t s -> same_interior t (set_first s p).
Proof.
  intros [Hlen Hin]. split.
  - now rewrite set_first_length.
  - intros i H0 H1. rewrite set_first_nth_error by exact H0. now apply Hin.
Qed.

Lemma same_interior_set_last (t s : Polyline) (p : Point) :
  same_interior t s -> same_interior t (set_last s p).
Proof.
  intros [Hlen Hin]. split.
  - now rewrite set_last_length.
  - intros i H0 H1. rewrite set_last_nth_error by lia. now apply Hin.
Qed.

Create HintDb snap.

#[local] Hint Resolve same_interior_refl same_interior_set_first
  same_interior_set_last : snap.

(** One comparison against another track rewrites endpoints only. *)
Lemma snap_against_interior (tolerance : R) (track s other : Polyline) :
  same_interior track s ->
  same_interior track (snap_against tolerance track s other).
Proof.
  intros H. unfold snap_against.
  destruct (Polyline_eq_dec other track); [exact H|].
  destruct (length other <? 2)%nat; [exact H|].
  repeat match goal with
         | |- context [Rlt_dec ?a ?b] => destruct (Rlt_dec a b)
         end; auto with snap.
Qed.

Lemma snap_fold_interior (tolerance : R) (track : Polyline)
    (others : list Polyline) (s : Polyline) :
  same_interior track s ->
  same_interior track (fold_left (snap_against tolerance track) others s).
Proof.
  revert s; induction others as [|other others IH]; intros s Hs; simpl.
  - exact Hs.
  - apply IH. now apply snap_against_interior.
Qed.

Lemma snap_track_interior (tracks : list Polyline) (tolerance : R)
    (track : Polyline) :
  same_interior track (snap_track tracks tolerance track).
Proof. apply snap_fold_interior, same_interior_refl. Qed.

Lemma snap_endpoints_long (tracks : list Polyline) (tolerance : R) :
  (1 < length tracks)%nat ->
  snap_endpoints tracks tolerance
  = map (snap_track tracks tolerance)
        (filter (fun t => negb (length t <? 2)%nat) tracks).
Proof.
  intros H. unfold snap_endpoints.
  destruct (Nat.leb_spec (length tracks) 1); [lia|].
  now rewrite fold_left_append_unless.
Qed.

Lemma Forall2_map_self {A B} (P : A -> B -> Prop) (f : A -> B) (l : list A) :
  (forall x, P x (f x)) -> Forall2 P l (map f l).
Proof. intros H. induction l; simpl; constructor; auto. Qed.

(** C10. On more than one track, the snapping stage returns, in order, one
    track for each input track of at least two points, of the same length
    and with the same points at every interior index; input tracks of fewer
    than two points are left out. *)
Theorem snap_endpoints_frame (tracks : list Polyline) (tolerance : R) :
  (1 < length tracks)%nat ->
  Forall2 same_interior
          (filter (fun t => (2 <=? length t)%nat) tracks)
          (snap_endpoints tracks tolerance).
Proof.
  intros H. rewrite snap_endpoints_long by exact H.
  rewrite (filter_ext (fun t : Polyline => (2 <=? length t)%nat)
                      (fun t : Polyline => negb (length t <? 2)%nat)).
  - apply Forall2_map_self. intros t. apply snap_track_interior.
  - intros t.
    destruct (Nat.ltb_spec (length t) 2), (Nat.leb_spec 2 (length t));
      simpl; try reflexivity; lia.
Qed.

Lemma snap_endpoints_frame_witness :
  Forall2 same_interior
          (filter (fun t => (2 <=? length t)%nat) near_tracks)
          (snap_endpoints near_tracks 15).
Proof. apply snap_endpoints_frame. simpl. lia. Defined.

(** *** Two tracks *)

Lemma euclid_sym (a b : Point) : euclid a b = euclid b a.
Proof. unfold euclid. f_equal. ring. Qed.

Lemma euclid_horizontal (x1 x2 y : R) : euclid (x1, y) (x2, y) = Rabs (x1 - x2).
Proof.
  unfold euclid, px, py; simpl. rewrite <- sqrt_Rsqr_abs. f_equal.
  unfold Rsqr. ring.
Qed.

Lemma if_Rlt_true {A} (a b : R) (x y : A) :
  a < b -> (if Rlt_dec a b then x else y) = x.
Proof. intros H. destruct (Rlt_dec a b); [reflexivity | contradiction]. Qed.

Lemma if_Rlt_false {A} (a b : R) (x y : A) :
  ~ a < b -> (if Rlt_dec a b then x else y) = y.
Proof. intros H. destruct (Rlt_dec a b); [contradiction | reflexivity]. Qed.

Lemma snap_against_self (tolerance : R) (track s : Polyline) :
  snap_against tolerance track s track = s.
Proof.
  unfold snap_against. destruct (Polyline_eq_dec track track); congruence.
Qed.

Lemma snap_against_other (tolerance : R) (track s other : Polyline) :
  other <> track -> (2 <= length other)%nat ->
  snap_against tolerance track s other
  = let s1 :=
      if Rlt_dec (euclid (first_point track) (first_point other)) tolerance
      then set_first s (first_point other)
      else if Rlt_dec (euclid (first_point track) (last_point other)) tolerance
      then set_first s (last_point other)
      else s in
    if Rlt_dec (euclid (last_point track) (first_point other)) tolerance
    then set_last s1 (first_point other)
    else if Rlt_dec (euclid (last_point track) (last_point other)) tolerance
    then set_last s1 (last_point other)
    else s1.
Proof.
  intros Hne Hlen. unfold snap_against.
  destruct (Polyline_eq_dec other track); [contradiction|].
  destruct (Nat.ltb_spec (length other) 2); [lia | reflexivity].
Qed.

(** Snapping two distinct tracks compares each with the other, as given. *)
Lemma snap_endpoints_pair (A B : Polyline) (tolerance : R) :
  (2 <= length A)%nat -> (2 <= length B)%nat ->
  snap_endpoints [A; B] tolerance
  = [snap_against tolerance A A B; snap_against tolerance B B A].
Proof.
  intros HA HB. rewrite snap_endpoints_long by (simpl; lia).
  cbn [filter].
  destruct (Nat.ltb_spec (length A) 2); [lia|].
  destruct (Nat.ltb_spec (length B) 2); [lia|].
  cbn [negb map]. unfold snap_track. cbn [fold_left].
  now rewrite !snap_against_self.
Qed.

(** The second half of C2, for any two tracks: when no endpoint of one is
    within the tolerance of an endpoint of the other, snapping changes
    nothing. *)
Lemma snap_endpoints_far_unchanged (A B : Polyline) (tolerance : R) :
  (2 <= length A)%nat -> (2 <= length B)%nat ->
  tolerance <= euclid (first_point A) (first_point B) ->
  tolerance <= euclid (first_point A) (last_point B) ->
  tolerance <= euclid (last_point A) (first_point B) ->
  tolerance <= euclid (last_point A) (last_point B) ->
  snap_endpoints [A; B] tolerance = [A; B].
Proof.
  intros HA HB Hff Hfl Hlf Hll.
  rewrite snap_endpoints_pair by assumption.
  destruct (Polyline_eq_dec A B) as [-> | Hne].
  - now rewrite !snap_against_self.
  - rewrite !snap_against_other by (assumption || congruence).
    cbv zeta.
    rewrite (euclid_sym (first_point B) (first_point A)),
            (euclid_sym (first_point B) (last_point A)),
            (euclid_sym (last_point B) (first_point A)),
            (euclid_sym (last_point B) (last_point A)).
    rewrite !if_Rlt_false by lra. reflexivity.
Qed.

(** At twenty units apart, with tolerance fifteen, nothing moves. *)
Lemma snap_endpoints_gap_tracks : snap_endpoints gap_tracks 15 = gap_tracks.
Proof.
  unfold gap_tracks.
  apply snap_endpoints_far_unchanged; try (simpl; lia);
    unfold first_point, last_point; simpl; rewrite euclid_horizontal;
    unfold Rabs; destruct (Rcase_abs _); lra.
Qed.

(** C2, evaluated. The facing endpoints [(100, 0)] and [(110, 0)] are ten
    units apart, within the tolerance of fifteen.  Each track takes the
    other's endpoint as it was in the input, so the two endpoints change
    places and remain ten units apart. *)
Theorem snap_endpoints_near_tracks :
  snap_endpoints near_tracks 15
  = [[(0, 0); (25, 0); (50, 0); (75, 0); (110, 0)];
     [(100, 0); (130, 0); (150, 0); (170, 0); (200, 0)]].
Proof.
  unfold near_tracks.
  rewrite snap_endpoints_pair by (simpl; lia).
  rewrite !snap_against_other
    by (try (simpl; lia); intros H; inversion H; lra).
  unfold first_point, last_point. cbn [hd last]. cbv zeta.
  rewrite !euclid_horizontal.
  assert (H1 : ~ Rabs (0 - 110) < 15)
    by (unfold Rabs; destruct (Rcase_abs _); lra).
  assert (H2 : ~ Rabs (0 - 200) < 15)
    by (unfold Rabs; destruct (Rcase_abs _); lra).
  assert (H3 : Rabs (100 - 110) < 15)
    by (unfold Rabs; destruct (Rcase_abs _); lra).
  assert (H4 : Rabs (110 - 100) < 15)
    by (unfold Rabs; destruct (Rcase_abs _); lra).
  assert (H5 : ~ Rabs (110 - 0) < 15)
    by (unfold Rabs; destruct (Rcase_abs _); lra).
  assert (H6 : ~ Rabs (200 - 0) < 15)
    by (unfold Rabs; destruct (Rcase_abs _); lra).
  assert (H7 : ~ Rabs (200 - 100) < 15)
    by (unfold Rabs; destruct (Rcase_abs _); lra).
  rewrite (if_Rlt_false _ _ _ _ H1), (if_Rlt_false _ _ _ _ H2),
          (if_Rlt_true _ _ _ _ H3), (if_Rlt_true _ _ _ _ H4),
          (if_Rlt_false _ _ _ _ H5), (if_Rlt_false _ _ _ _ H6),
          (if_Rlt_false _ _ _ _ H7).
  reflexivity.
Qed.

(** ** The duration filter *)

Lemma int_of_integer (z : Z) : (0 <= z)%Z -> Py.int (IZR z) = z.
Proof.
  intros H. unfold Py.int.
  destruct (Rle_dec 0 (IZR z)) as [_ | Hneg].
  - symmetry. apply Int_part_spec. lra.
  - exfalso. apply Hneg. now apply IZR_le.
Qed.

Lemma min_frames_30 : min_frames 30 = 90%Z.
Proof.
  unfold min_frames, config.MIN_TRACK_DURATION_SECONDS.
  replace (3 * 30) with (IZR 90) by (simpl; lra).
  apply int_of_integer. lia.
Qed.

Lemma survives_iff (track_frame_counts : list (Z * Z)) (fps : R)
    (item : Z * Polyline) :
  survives track_frame_counts fps item = true <->
  (Py.int (config.MIN_TRACK_DURATION_SECONDS * fps)
   <= frame_count track_frame_counts (fst item))%Z /\
  (config.MIN_TRACK_POINTS <= Z.of_nat (length (snd item)))%Z.
Proof.
  unfold survives, min_frames. rewrite andb_true_iff, !Z.leb_le. tauto.
Qed.

Lemma filter_valid_tracks_fold (all_tracks : list (Z * Polyline))
    (track_frame_counts : list (Z * Z)) (fps : R) (init : list Polyline) :
  fold_left
    (fun valid_tracks (item : Z * Polyline) =>
       let '(trackID, track_points) := item in
       if (min_frames fps <=? frame_count track_frame_counts trackID)%Z
          && (config.MIN_TRACK_POINTS <=? Z.of_nat (length track_points))%Z
       then valid_tracks ++ [smooth_polyline track_points config.SMOOTHING_WINDOW_SIZE]
       else valid_tracks)
    all_tracks init
  = init ++ map (fun item => smooth_polyline (snd item) config.SMOOTHING_WINDOW_SIZE)
                (filter (survives track_frame_counts fps) all_tracks).
Proof.
  revert init.
  induction all_tracks as [|[trackID pts] rest IH]; intros init; simpl.
  - now rewrite app_nil_r.
  - rewrite IH. unfold survives at 2. simpl.
    destruct (_ && _); simpl; [now rewrite <- app_assoc | reflexivity].
Qed.

Lemma filter_valid_tracks_eq (all_tracks : list (Z * Polyline))
    (track_frame_counts : list (Z * Z)) (fps : R) :
  filter_valid_tracks all_tracks track_frame_counts fps
  = map (fun item => smooth_polyline (snd item) config.SMOOTHING_WINDOW_SIZE)
        (filter (survives track_frame_counts fps) all_tracks).
Proof. apply filter_valid_tracks_fold. Qed.

(** C9. The filter keeps, smoothed and in input order, exactly the raw
    tracks whose frame count is at least [int(MIN_TRACK_DURATION_SECONDS *
    fps)] and whose point count is at least [MIN_TRACK_POINTS]: a frame
    count one below the threshold excludes the track, a frame count at the
    threshold retains it. *)
Theorem filter_valid_tracks_threshold (all_tracks : list (Z * Polyline))
    (track_frame_counts : list (Z * Z)) (fps : R) :
  let threshold := Py.int (config.MIN_TRACK_DURATION_SECONDS * fps) in
  let kept := filter (survives track_frame_counts fps) all_tracks in
  filter_valid_tracks all_tracks track_frame_counts fps
  = map (fun item => smooth_polyline (snd item) config.SMOOTHING_WINDOW_SIZE) kept /\
  (forall item,
     In item kept <->
     In item all_tracks /\
     (threshold <= frame_count track_frame_counts (fst item))%Z /\
     (config.MIN_TRACK_POINTS <= Z.of_nat (length (snd item)))%Z) /\
  (forall item,
     frame_count track_frame_counts (fst item) = (threshold - 1)%Z ->
     ~ In item kept) /\
  (forall item,
     In item all_tracks ->
     frame_count track_frame_counts (fst item) = threshold ->
     (config.MIN_TRACK_POINTS <= Z.of_nat (length (snd item)))%Z ->
     In item kept).
Proof.
  intros threshold kept.
  assert (Hkept : forall item,
             In item kept <->
             In item all_tracks /\
             (threshold <= frame_count track_frame_counts (fst item))%Z /\
             (config.MIN_TRACK_POINTS <= Z.of_nat (length (snd item)))%Z).
  { intros item. subst kept. rewrite filter_In, survives_iff. reflexivity. }
  split; [apply filter_valid_tracks_eq |].
  split; [exact Hkept |]. split.
  - intros item Hcount Hin. apply Hkept in Hin. lia.
  - intros item Hin Hcount Hpts. apply Hkept. repeat split; [exact Hin | lia | exact Hpts].
Qed.

Lemma filter_valid_tracks_threshold_witness :
  In (1%Z, five_points) (filter (survives ninety_frames 30) one_raw_track).
Proof.
  apply (filter_valid_tracks_threshold one_raw_track ninety_frames 30).
  - now left.
  - change (Py.int (config.MIN_TRACK_DURATION_SECONDS * 30)) with (min_frames 30).
    rewrite min_frames_30. reflexivity.
  - unfold config.MIN_TRACK_POINTS. simpl. lia.
Defined.

(** ** Sampling a path along a lane *)

Lemma py_min_Rmin (a b : R) : Py.min a b = Rmin a b.
Proof.
  unfold Py.min, Rmin. destruct (Rlt_dec b a), (Rle_dec a b); lra.
Qed.

Lemma ls_length_nonneg (cs : Polyline) : 0 <= ls_length cs.
Proof.
  induction cs as [|a [|b rest] IH]; simpl; try lra.
  pose proof (euclid_nonneg a b). simpl in IH. lra.
Qed.

Lemma ls_length_positive_two (cs : Polyline) :
  0 < ls_length cs -> (2 <= length cs)%nat.
Proof. destruct cs as [|a [|b rest]]; simpl; intros; try lra; lia. Qed.

Lemma ls_walk_some (cs : Polyline) (d : R) :
  cs <> [] -> exists p, ls_walk cs d = Some p.
Proof.
  revert d; induction cs as [|a [|b rest] IH]; intros d Hne.
  - congruence.
  - now exists a.
  - cbn [ls_walk]. destruct (Rlt_dec d (euclid a b)).
    + eexists; reflexivity.
    + apply IH. discriminate.
Qed.

Lemma ls_interpolate_some (cs : Polyline) (d : R) :
  (2 <= length cs)%nat -> exists p, ls_interpolate cs d = Some p.
Proof.
  intros H. unfold ls_interpolate.
  destruct (Nat.ltb_spec (length cs) 2); [lia|].
  destruct (Rle_dec _ 0); [eexists; reflexivity|].
  apply ls_walk_some. destruct cs; [simpl in H; lia | discriminate].
Qed.

Lemma ls_length_cons2 (a b : Point) (rest : Polyline) :
  ls_length (a :: b :: rest) = euclid a b + ls_length (b :: rest).
Proof. reflexivity. Qed.

Lemma ls_walk_cons2 (a b : Point) (rest : Polyline) (d : R) :
  ls_walk (a :: b :: rest) d
  = if Rlt_dec d (euclid a b) then Some (lerp a b (d / euclid a b))
    else ls_walk (b :: rest) (d - euclid a b).
Proof. reflexivity. Qed.

(** Walking the whole length ends on the last point. *)
Lemma ls_walk_full (cs : Polyline) :
  cs <> [] -> ls_walk cs (ls_length cs) = Some (last_point cs).
Proof.
  induction cs as [|a [|b rest] IH]; intros Hne.
  - congruence.
  - reflexivity.
  - rewrite ls_length_cons2, ls_walk_cons2.
    pose proof (ls_length_nonneg (b :: rest)) as Hpos.
    rewrite if_Rlt_false by lra.
    replace (euclid a b + ls_length (b :: rest) - euclid a b)
      with (ls_length (b :: rest)) by ring.
    rewrite IH by discriminate. reflexivity.
Qed.

Lemma ls_interpolate_start (cs : Polyline) :
  (2 <= length cs)%nat -> ls_interpolate cs 0 = Some (first_point cs).
Proof.
  intros H. unfold ls_interpolate.
  destruct (Nat.ltb_spec (length cs) 2); [lia|].
  rewrite if_Rlt_false by lra.
  destruct (Rle_dec 0 0); [reflexivity | lra].
Qed.

Lemma ls_interpolate_end (cs : Polyline) :
  0 < ls_length cs -> ls_interpolate cs (ls_length cs) = Some (last_point cs).
Proof.
  intros H. pose proof (ls_length_positive_two cs H) as Hlen.
  unfold ls_interpolate.
  destruct (Nat.ltb_spec (length cs) 2); [lia|].
  rewrite if_Rlt_false by lra.
  destruct (Rle_dec (ls_length cs) 0); [lra|].
  apply ls_walk_full. destruct cs; [simpl in Hlen; lia | discriminate].
Qed.

Lemma path_loop_continue (cs : Polyline) (start step maxp : R) (i : Z)
    (rest : list Z) (p : Point) :
  ls_interpolate cs (Py.min (start + IZR i * step) (ls_length cs)) = Some p ->
  Py.min (start + IZR i * step) (ls_length cs) < maxp ->
  path_loop cs start step maxp (i :: rest)
  = match path_loop cs start step maxp rest with
    | None => None
    | Some more => Some (p :: more)
    end.
Proof.
  intros Hp Hlt. cbn [path_loop]. rewrite Hp.
  destruct (Rge_dec _ maxp); [lra | reflexivity].
Qed.

Lemma path_loop_break (cs : Polyline) (start step maxp : R) (i : Z)
    (rest : list Z) (p : Point) :
  ls_interpolate cs (Py.min (start + IZR i * step) (ls_length cs)) = Some p ->
  Py.min (start + IZR i * step) (ls_length cs) >= maxp ->
  path_loop cs start step maxp (i :: rest) = Some [p].
Proof.
  intros Hp Hge. cbn [path_loop]. rewrite Hp.
  destruct (Rge_dec _ maxp); [reflexivity | contradiction].
Qed.

Lemma py_min_le_l (a b : R) : Py.min a b <= a.
Proof. unfold Py.min. destruct (Rlt_dec b a); lra. Qed.

Ltac sample_step cs Hlen i :=
  let p := fresh "p" in
  let Hp := fresh "Hp" in
  destruct (ls_interpolate_some cs
              (Py.min (0 + IZR i * ((ls_length cs - 0) / 7)) (ls_length cs)) Hlen)
    as [p Hp];
  rewrite (path_loop_continue cs 0 _ _ i _ p Hp)
    by (eapply Rle_lt_trans; [apply py_min_le_l | lra]).

(** Sampling the whole lane in the default eight points. *)
Lemma sample_whole_lane (cs : Polyline) :
  0 < ls_length cs ->
  exists p1 p2 p3 p4 p5 p6 : Point,
    path_loop cs 0 ((ls_length cs - 0) / 7) (ls_length cs)
              [0; 1; 2; 3; 4; 5; 6; 7]%Z
    = Some [first_point cs; p1; p2; p3; p4; p5; p6; last_point cs].
Proof.
  intros HL. pose proof (ls_length_positive_two cs HL) as Hlen.
  assert (H0 : Py.min (0 + 0 * ((ls_length cs - 0) / 7)) (ls_length cs) = 0)
    by (unfold Py.min; destruct (Rlt_dec _ _); lra).
  assert (H7 : Py.min (0 + 7 * ((ls_length cs - 0) / 7)) (ls_length cs)
               = ls_length cs)
    by (unfold Py.min; destruct (Rlt_dec _ _); lra).
  rewrite (path_loop_continue cs 0 _ _ 0%Z _ (first_point cs))
    by (rewrite H0; first [now apply ls_interpolate_start | lra]).
  sample_step cs Hlen 1%Z. sample_step cs Hlen 2%Z. sample_step cs Hlen 3%Z.
  sample_step cs Hlen 4%Z. sample_step cs Hlen 5%Z. sample_step cs Hlen 6%Z.
  rewrite (path_loop_break cs 0 _ _ 7%Z _ (last_point cs))
    by (rewrite H7; first [now apply ls_interpolate_end | lra]).
  now exists p, p0, p1, p2, p3, p4.
Qed.

(** C5. For a lane of total length [L > 0], sampling with the default of
    eight points returns nothing when the start is at or past [L] or when
    [min(start + distance, L) <= start]; sampling the whole lane from [0]
    returns exactly eight points, the first being the lane's first point and
    the last the lane's last point (exactly so over the reals). *)
Theorem get_path_along_lane_samples (lane : Lane) :
  let L := ls_length (coords lane) in
  0 < L ->
  (forall start_progress distance : R,
     L <= start_progress \/ Rmin (start_progress + distance) L <= start_progress ->
     get_path_along_lane lane start_progress distance default_num_points = []) /\
  (let path := get_path_along_lane lane 0 L default_num_points in
   length path = 8%nat /\
   nth_error path 0 = Some (first_point (coords lane)) /\
   nth_error path 7 = Some (last_point (coords lane))).
Proof.
  intros L HL. split.
  - intros start_progress distance H. unfold get_path_along_lane. fold L.
    destruct (Rle_dec L start_progress); [reflexivity|].
    rewrite py_min_Rmin.
    destruct (Rle_dec _ start_progress); [reflexivity|].
    destruct H; contradiction.
  - unfold get_path_along_lane. fold L.
    destruct (Rle_dec L 0); [lra|].
    assert (Hmin : Py.min (0 + L) L = L)
      by (unfold Py.min; destruct (Rlt_dec _ _); lra).
    rewrite Hmin.
    destruct (Rle_dec L 0); [lra|].
    change (Py.range (Z.to_nat default_num_points))
      with [0; 1; 2; 3; 4; 5; 6; 7]%Z.
    change (IZR (Z.max 1 (default_num_points - 1))) with 7.
    subst L.
    destruct (sample_whole_lane (coords lane) HL)
      as (p1 & p2 & p3 & p4 & p5 & p6 & Hpath).
    rewrite Hpath. repeat split.
Qed.

Lemma straight_lane_length : ls_length (coords straight_lane) = 70.
Proof.
  simpl. rewrite euclid_horizontal.
  unfold Rabs. destruct (Rcase_abs _); lra.
Qed.

Lemma get_path_along_lane_samples_witness :
  nth_error (get_path_along_lane straight_lane 0
               (ls_length (coords straight_lane)) default_num_points) 7
  = Some (70, 0).
Proof.
  apply (get_path_along_lane_samples straight_lane).
  rewrite straight_lane_length. lra.
Defined.

(** ** Indexing near the end of a list *)

Lemma item_suffix {A} (prefix suffix : list A) (i : Z) (j : nat) (x : A) :
  i = (Z.of_nat (length prefix) + Z.of_nat j)%Z ->
  nth_error suffix j = Some x ->
  Py.item (prefix ++ suffix) i = Normal x.
Proof.
  intros -> Hx.
  assert (Hj : (j < length suffix)%nat)
    by (apply nth_error_Some; congruence).
  unfold Py.item. rewrite length_app.
  destruct (Z.ltb_spec (Z.of_nat (length prefix) + Z.of_nat j) 0); [lia|].
  destruct (Z.leb_spec 0 (Z.of_nat (length prefix) + Z.of_nat j)); [| lia].
  destruct (Z.ltb_spec (Z.of_nat (length prefix) + Z.of_nat j)
                       (Z.of_nat (length prefix + length suffix))); [| lia].
  simpl.
  replace (Z.to_nat (Z.of_nat (length prefix) + Z.of_nat j))
    with (length prefix + j)%nat by lia.
  rewrite nth_error_app2 by lia.
  replace (length prefix + j - length prefix)%nat with j by lia.
  now rewrite Hx.
Qed.


Lemma last_four {A} (l : list A) :
  (4 <= length l)%nat -> exists prefix a b c d, l = prefix ++ [a; b; c; d].
Proof.
  intros H. exists (firstn (length l - 4) l).
  pose proof (firstn_skipn (length l - 4) l) as Hsplit.
  pose proof (length_skipn (length l - 4) l) as Hlen.
  destruct (skipn (length l - 4) l) as [|a [|b [|c [|d [|e rest]]]]];
    simpl in Hlen; try lia.
  exists a, b, c, d. now symmetry.
Qed.

Lemma recent_indices_suffix (prefix : list Point) (p4 p3 p2 p1 : Point) :
  recent_indices (prefix ++ [p4; p3; p2; p1])
  = [Z.of_nat (length prefix) + 1; Z.of_nat (length prefix) + 2;
     Z.of_nat (length prefix) + 3]%Z.
Proof.
  unfold recent_indices, Py.range2. cbv zeta. rewrite length_app. cbn [length].
  set (n := Z.of_nat (length prefix + 4)).
  replace (Z.to_nat (n - (n - 3))) with 3%nat by lia.
  cbn [seq map]. subst n.
  f_equal; [lia | f_equal; [lia | f_equal; lia]].
Qed.

(** ** The smoothed velocity and the movement direction *)

Lemma div_normal (x y : R) : y <> 0 -> Py.div x y = Normal (x / y).
Proof.
  intros H. unfold Py.div. destruct (Req_dec_T y 0); [contradiction | reflexivity].
Qed.

Ltac index_suffix :=
  first [ reflexivity | lia ].


(** Squares within and beyond the range of floats. *)
Lemma pow2_in_range (x : R) : square_in_range x -> Py.pow2 x = Normal (x * x).
Proof.
  unfold square_in_range, Py.pow2. intros H.
  destruct (Rlt_dec Py.FLOAT_MAX (x * x)); [lra | reflexivity].
Qed.

Lemma pow2_value (x a : R) : Py.pow2 x = Normal a -> a = x * x.
Proof.
  unfold Py.pow2. destruct (Rlt_dec Py.FLOAT_MAX (x * x)); [discriminate|].
  intros H. now inversion H.
Qed.





(** A velocity slower than [0.5] is in range. *)
Lemma slow_in_range (v : Point) : magnitude v < 0.5 -> velocity_in_range v.
Proof.
  unfold magnitude, velocity_in_range, square_in_range. intros H.
  assert (Hsum : px v * px v + py v * py v < 0.25).
  { destruct (Rlt_dec (px v * px v + py v * py v) 0.25) as [| Hge]; [assumption|].
    exfalso. assert (H1 : sqrt 0.25 <= sqrt (px v * px v + py v * py v))
      by (apply sqrt_le_1_alt; lra).
    replace 0.25 with (0.5 * 0.5) in H1 by lra.
    rewrite sqrt_square in H1 by lra. lra. }
  pose proof (Rle_0_sqr (px v)) as Hx. pose proof (Rle_0_sqr (py v)) as Hy.
  unfold Rsqr in Hx, Hy. unfold Py.FLOAT_MAX. split; lra.
Qed.



Section Preconditions.

Variable distance : Point -> Polyline -> R.
Variable project : Polyline -> Point -> R.
Variable nearest_point : Point -> Polyline -> Point.
Variable lanes : list Lane.
Variable time_horizon : R.

Let predict := predict_lane_possibilities distance project nearest_point lanes.





End Preconditions.




(** ** The probability score *)

Lemma unit_vector_normal (dx dy : R) :
  0 < sqrt (dx * dx + dy * dy) ->
  exists u, unit_vector dx dy (sqrt (dx * dx + dy * dy)) = Normal u /\ is_unit u.
Proof.
  intros Hpos. set (len := sqrt (dx * dx + dy * dy)) in *.
  assert (Hsq : len * len = dx * dx + dy * dy).
  { subst len. apply sqrt_sqrt. nra. }
  unfold unit_vector. rewrite !div_normal by lra. cbn [bind].
  eexists. split; [reflexivity|].
  unfold is_unit, px, py; simpl.
  replace (dx / len * (dx / len) + dy / len * (dy / len))
    with ((dx * dx + dy * dy) / (len * len)) by (field; lra).
  rewrite <- Hsq. field. lra.
Qed.

Lemma dot_unit_le_1 (d e : Point) :
  is_unit d -> is_unit e -> px d * px e + py d * py e <= 1.
Proof.
  unfold is_unit. intros Hd He.
  pose proof (Rle_0_sqr (px d - px e)) as H1.
  pose proof (Rle_0_sqr (py d - py e)) as H2.
  unfold Rsqr in *. lra.
Qed.

Lemma positive_part_bounds (d e : Point) :
  is_unit d -> is_unit e ->
  0 <= Py.max 0 (px d * px e + py d * py e) <= 1.
Proof.
  intros Hd He. pose proof (dot_unit_le_1 d e Hd He).
  unfold Py.max. destruct (Rlt_dec 0 _); lra.
Qed.

(** One round of the first loop keeps the directions unit vectors. *)
Lemma direction_step (p q : Point) (directions : list Point) :
  Forall is_unit directions ->
  exists directions',
    (let dx := px p - px q in
     let dy := py p - py q in
     let length := sqrt (dx * dx + dy * dy) in
     if Rgt_dec length 0 then
       d <- unit_vector dx dy length ;;
       Normal (directions ++ [d])
     else Normal directions) = Normal directions' /\
    Forall is_unit directions' /\
    (length directions <= length directions' <= length directions + 1)%nat.
Proof.
  intros Hu. cbv zeta.
  destruct (Rgt_dec (sqrt _) 0) as [Hpos | _].
  - destruct (unit_vector_normal _ _ Hpos) as [u [Hn Hunit]].
    rewrite Hn. cbn [bind]. eexists. split; [reflexivity|]. split.
    + apply Forall_app. split; [exact Hu | now constructor].
    + rewrite length_app. simpl. lia.
  - eexists. split; [reflexivity|]. split; [exact Hu | lia].
Qed.

Lemma recent_directions_suffix (prefix : list Point) (p4 p3 p2 p1 : Point) :
  exists directions,
    recent_directions (prefix ++ [p4; p3; p2; p1]) = Normal directions /\
    Forall is_unit directions /\ (length directions <= 3)%nat.
Proof.
  unfold recent_directions. rewrite recent_indices_suffix. cbn [for_each].
  destruct (Z.ltb_spec 0 (Z.of_nat (length prefix) + 1)); [| lia].
  destruct (Z.ltb_spec 0 (Z.of_nat (length prefix) + 2)); [| lia].
  destruct (Z.ltb_spec 0 (Z.of_nat (length prefix) + 3)); [| lia].
  rewrite (item_suffix prefix _ (Z.of_nat (length prefix) + 1) 1 p3) by index_suffix.
  rewrite (item_suffix prefix _ (Z.of_nat (length prefix) + 1 - 1) 0 p4) by index_suffix.
  cbn [bind].
  destruct (direction_step p3 p4 [] (Forall_nil _)) as [d1 [E1 [U1 L1]]].
  cbv zeta in E1. rewrite E1. cbn [bind].
  rewrite (item_suffix prefix _ (Z.of_nat (length prefix) + 2) 2 p2) by index_suffix.
  rewrite (item_suffix prefix _ (Z.of_nat (length prefix) + 2 - 1) 1 p3) by index_suffix.
  cbn [bind].
  destruct (direction_step p2 p3 d1 U1) as [d2 [E2 [U2 L2]]].
  cbv zeta in E2. rewrite E2. cbn [bind].
  rewrite (item_suffix prefix _ (Z.of_nat (length prefix) + 3) 3 p1) by index_suffix.
  rewrite (item_suffix prefix _ (Z.of_nat (length prefix) + 3 - 1) 2 p2) by index_suffix.
  cbn [bind].
  destruct (direction_step p1 p2 d2 U2) as [d3 [E3 [U3 L3]]].
  cbv zeta in E3. rewrite E3.
  exists d3. split; [reflexivity|]. split; [exact U3|]. simpl in L1. lia.
Qed.

Lemma average_alignment_two (d0 d1 : Point) :
  average_alignment [d0; d1]
  = Py.div (0 + Py.max 0 (px d1 * px d0 + py d1 * py d0)) 1.
Proof. reflexivity. Qed.

Lemma average_alignment_three (d0 d1 d2 : Point) :
  average_alignment [d0; d1; d2]
  = Py.div (0 + Py.max 0 (px d1 * px d0 + py d1 * py d0)
              + Py.max 0 (px d2 * px d1 + py d2 * py d1)) 2.
Proof. reflexivity. Qed.

Lemma average_alignment_bounds (directions : list Point) :
  Forall is_unit directions -> (2 <= length directions <= 3)%nat ->
  exists c, average_alignment directions = Normal c /\ 0 <= c <= 1.
Proof.
  intros Hu Hlen.
  destruct directions as [|d0 [|d1 [|d2 [|d3 rest]]]]; simpl in Hlen; try lia.
  - inversion Hu as [|? ? U0 Hu1]; subst. inversion Hu1 as [|? ? U1 _]; subst.
    pose proof (positive_part_bounds d1 d0 U1 U0) as Hb.
    rewrite average_alignment_two, div_normal by lra.
    eexists. split; [reflexivity|]. lra.
  - inversion Hu as [|? ? U0 Hu1]; subst. inversion Hu1 as [|? ? U1 Hu2]; subst.
    inversion Hu2 as [|? ? U2 _]; subst.
    pose proof (positive_part_bounds d1 d0 U1 U0) as Hb1.
    pose proof (positive_part_bounds d2 d1 U2 U1) as Hb2.
    rewrite average_alignment_three, div_normal by lra.
    eexists. split; [reflexivity|]. lra.
Qed.

(** The direction consistency is always computed, and lies in [[0, 1]]. *)
Lemma direction_consistency_bounds (positions : list Point) :
  exists c, _calculate_direction_consistency positions = Normal c /\ 0 <= c <= 1.
Proof.
  unfold _calculate_direction_consistency.
  destruct (Nat.ltb_spec (length positions) 6) as [| Hlong].
  - exists 0.5. split; [reflexivity | lra].
  - destruct (last_four positions) as (prefix & p4 & p3 & p2 & p1 & ->); [lia|].
    destruct (recent_directions_suffix prefix p4 p3 p2 p1) as [dirs [E [U L]]].
    rewrite E. cbn [bind].
    destruct (Nat.ltb_spec (length dirs) 2).
    + exists 0.5. split; [reflexivity | lra].
    + apply average_alignment_bounds; [exact U | lia].
Qed.

Lemma py_max_Rmax (a b : R) : Py.max a b = Rmax a b.
Proof.
  unfold Py.max, Rmax. destruct (Rlt_dec a b), (Rle_dec a b); lra.
Qed.

(** C4. Two evaluations of a candidate lane that differ only in the distance
    to the lane, five units against forty: the score is
    [alignment * max(0, 1 - distance/50) * (0.5 + 0.5 * consistency)], times
    [1.5] below fifteen units, capped at [1]; it lies in [[0, 1]], and the
    nearer candidate scores strictly higher.  A candidate reaches the score
    only with an alignment in [[0.3, 1]]; positive and at most [1] is what
    the comparison needs. *)
Theorem lane_probability_nearer_is_higher (positions : list Point) (lane : Lane)
    (alignment : R) (movement_direction : Point) :
  0 < alignment <= 1 ->
  exists consistency p_near p_far : R,
    _calculate_direction_consistency positions = Normal consistency /\
    _calculate_lane_probability positions lane 5 alignment movement_direction
    = Normal p_near /\
    _calculate_lane_probability positions lane 40 alignment movement_direction
    = Normal p_far /\
    p_near
    = Rmin 1 (alignment * Rmax 0 (1 - 5 / 50) * (0.5 + 0.5 * consistency) * 1.5) /\
    p_far
    = Rmin 1 (alignment * Rmax 0 (1 - 40 / 50) * (0.5 + 0.5 * consistency)) /\
    0 <= p_far /\ p_far < p_near /\ p_near <= 1.
Proof.
  intros Ha.
  destruct (direction_consistency_bounds positions) as [c [Ec Hc]].
  exists c. unfold _calculate_lane_probability. rewrite Ec. cbn [bind].
  rewrite (if_Rlt_true 5 15) by lra.
  rewrite (if_Rlt_false 40 15) by lra.
  rewrite !py_max_Rmax, !py_min_Rmin.
  do 2 eexists. repeat (split; [reflexivity|]).
  rewrite (Rmax_right 0 (1 - 5 / 50)) by lra.
  rewrite (Rmax_right 0 (1 - 40 / 50)) by lra.
  set (x := alignment * (0.5 + 0.5 * c)).
  assert (Hx : 0 < x <= 1) by (subst x; nra).
  replace (alignment * (1 - 5 / 50) * (0.5 + 0.5 * c) * 1.5)
    with (1.35 * x) by (subst x; nra).
  replace (alignment * (1 - 40 / 50) * (0.5 + 0.5 * c))
    with (0.2 * x) by (subst x; nra).
  unfold Rmin.
  destruct (Rle_dec 1 (1.35 * x)), (Rle_dec 1 (0.2 * x)); lra.
Qed.

Lemma lane_probability_nearer_is_higher_witness :
  exists consistency p_near p_far : R,
    _calculate_direction_consistency five_points = Normal consistency /\
    _calculate_lane_probability five_points straight_lane 5 1 (1, 0)
    = Normal p_near /\
    _calculate_lane_probability five_points straight_lane 40 1 (1, 0)
    = Normal p_far /\
    p_near = Rmin 1 (1 * Rmax 0 (1 - 5 / 50) * (0.5 + 0.5 * consistency) * 1.5) /\
    p_far = Rmin 1 (1 * Rmax 0 (1 - 40 / 50) * (0.5 + 0.5 * consistency)) /\
    0 <= p_far /\ p_far < p_near /\ p_near <= 1.
Proof.
  apply (lane_probability_nearer_is_higher five_points straight_lane 1 (1, 0)).
  lra.
Defined.

(** ** Temporal smoothing of the predictions *)

Lemma item_nth {A} (l : list A) (k : nat) (x : A) :
  nth_error l k = Some x -> Py.item l (Z.of_nat k) = Normal x.
Proof.
  intros H. apply (item_suffix [] l (Z.of_nat k) k x); [simpl; lia | exact H].
Qed.

Lemma firstn_skipn_step {A} (l : list A) (k m : nat) (x : A) :
  nth_error l k = Some x ->
  firstn (S m) (skipn k l) = x :: firstn m (skipn (S k) l).
Proof.
  revert k; induction l as [|a l IH]; intros k H.
  - destruct k; discriminate.
  - destruct k as [|k]; simpl in H.
    + inversion H; subst. reflexivity.
    + change (skipn (S k) (a :: l)) with (skipn k l).
      change (skipn (S (S k)) (a :: l)) with (skipn (S k) l).
      now apply IH.
Qed.

Lemma nth_error_combine {A B} (l : list A) (l' : list B) (k : nat) (a : A) (b : B) :
  nth_error l k = Some a -> nth_error l' k = Some b ->
  nth_error (combine l l') k = Some (a, b).
Proof.
  revert l' k; induction l as [|x l IH]; intros l' k Ha Hb.
  - destruct k; discriminate.
  - destruct l' as [|y l']; [destruct k; discriminate|].
    destruct k as [|k]; simpl in *.
    + congruence.
    + now apply IH.
Qed.

Lemma with_probability_ext (n : Prediction) (p q : R) :
  p = q -> with_probability n p = with_probability n q.
Proof. now intros ->. Qed.

(** One rank of the smoothing, with two lists in the buffer: the new entry
    always matches itself, so an entry is always produced. *)
Lemma smooth_rank_two (other new_predictions smoothed : list Prediction)
    (k : nat) (o n : Prediction) :
  nth_error other k = Some o -> nth_error new_predictions k = Some n ->
  smooth_rank [other; new_predictions] new_predictions smoothed (Z.of_nat k)
  = Normal (smoothed ++ [smoothed_entry o n]).
Proof.
  intros Ho Hn.
  assert (Hko : (k < length other)%nat) by (apply nth_error_Some; congruence).
  assert (Hkn : (k < length new_predictions)%nat)
    by (apply nth_error_Some; congruence).
  unfold smooth_rank. rewrite (item_nth _ _ _ Hn). cbn [bind for_each].
  unfold collect_matching.
  destruct (Z.ltb_spec (Z.of_nat k) (Z.of_nat (length other))); [| lia].
  destruct (Z.ltb_spec (Z.of_nat k) (Z.of_nat (length new_predictions))); [| lia].
  rewrite (item_nth _ _ _ Ho), (item_nth _ _ _ Hn). cbn [bind].
  rewrite Z.eqb_refl. unfold smoothed_entry.
  destruct (lane_id o =? lane_id n)%Z; cbn [bind app length].
  - rewrite div_normal by (simpl; lra). cbn [bind].
    do 2 f_equal. f_equal. apply with_probability_ext.
    unfold Py.sum. simpl. lra.
  - rewrite div_normal by (simpl; lra). cbn [bind].
    do 2 f_equal. f_equal. apply with_probability_ext.
    unfold Py.sum. simpl. lra.
Qed.

Lemma smooth_ranks_two (other new_predictions : list Prediction) (m : nat) :
  forall (k : nat) (smoothed : list Prediction),
    (k + m <= length other)%nat -> (k + m <= length new_predictions)%nat ->
    for_each (map Z.of_nat (seq k m))
             (smooth_rank [other; new_predictions] new_predictions) smoothed
    = Normal (smoothed ++
              map (fun on => smoothed_entry (fst on) (snd on))
                  (firstn m (skipn k (combine other new_predictions)))).
Proof.
  induction m as [|m IH]; intros k smoothed Ho Hn.
  - simpl. now rewrite app_nil_r.
  - destruct (nth_error other k) as [o|] eqn:Eo;
      [| apply nth_error_None in Eo; lia].
    destruct (nth_error new_predictions k) as [n|] eqn:En;
      [| apply nth_error_None in En; lia].
    cbn [seq map for_each].
    rewrite (smooth_rank_two _ _ _ _ o n Eo En). cbn [bind].
    rewrite IH by lia.
    rewrite (firstn_skipn_step _ k m (o, n)) by now apply nth_error_combine.
    cbn [map fst snd]. rewrite <- app_assoc. reflexivity.
Qed.

Lemma min_len_two {A} (a b : list A) :
  min_len [a; b] = Normal (Nat.min (length a) (length b)).
Proof. reflexivity. Qed.

(** With two lists in the buffer, the smoothed list has one entry per rank
    present in both: the new entry, its probability averaged with the other
    list's when the lanes agree, and decayed. *)
Lemma smooth_predictions_two (prediction_smoothing : Store) (track_id : Z)
    (other new_predictions : list Prediction) :
  push_buffer prediction_smoothing track_id new_predictions
  = [other; new_predictions] ->
  smooth_predictions prediction_smoothing track_id new_predictions
  = Normal (store_set prediction_smoothing track_id [other; new_predictions],
            map (fun on => smoothed_entry (fst on) (snd on))
                (combine other new_predictions)).
Proof.
  intros Hbuf. unfold smooth_predictions. rewrite Hbuf.
  cbn [length Nat.eqb]. rewrite min_len_two. cbn [bind]. unfold Py.range.
  rewrite smooth_ranks_two by lia. cbn [bind app].
  rewrite skipn_O, firstn_all2; [reflexivity|].
  rewrite length_combine. lia.
Qed.

(** C1 (amended). When the buffer of a vehicle holds two prediction lists,
    the other one and the new one, the smoothed list has an entry for every
    rank present in both, in order, and each is the new list's entry at
    that rank: where the lane identifiers of the two lists differ at the
    rank, the entry is kept with its own probability times [0.95]; where
    they agree, with the mean of the two probabilities times [0.95]. *)
Theorem smooth_predictions_positional (prediction_smoothing : Store)
    (track_id : Z) (other new_predictions : list Prediction) :
  push_buffer prediction_smoothing track_id new_predictions
  = [other; new_predictions] ->
  exists smoothed : list Prediction,
    smooth_predictions prediction_smoothing track_id new_predictions
    = Normal (store_set prediction_smoothing track_id [other; new_predictions],
              smoothed) /\
    length smoothed = Nat.min (length other) (length new_predictions) /\
    forall (i : nat) (o n : Prediction),
      nth_error other i = Some o -> nth_error new_predictions i = Some n ->
      nth_error smoothed i = Some (smoothed_entry o n) /\
      smoothed_entry o n = with_probability n (probability (smoothed_entry o n)) /\
      (lane_id n <> lane_id o ->
       probability (smoothed_entry o n) = probability n * 0.95) /\
      (lane_id n = lane_id o ->
       probability (smoothed_entry o n)
       = (probability o + probability n) / 2 * 0.95).
Proof.
  intros Hbuf. eexists. split; [now apply smooth_predictions_two|]. split.
  - now rewrite length_map, length_combine.
  - intros i o n Ho Hn. split; [| split; [| split]].
    + rewrite nth_error_map, (nth_error_combine _ _ _ _ _ Ho Hn). reflexivity.
    + reflexivity.
    + intros Hne. unfold smoothed_entry. cbn [probability with_probability].
      destruct (Z.eqb_spec (lane_id o) (lane_id n)); [congruence | reflexivity].
    + intros Heq. unfold smoothed_entry. cbn [probability with_probability].
      destruct (Z.eqb_spec (lane_id o) (lane_id n)); [reflexivity | congruence].
Qed.

Lemma smooth_predictions_positional_witness :
  exists smoothed : list Prediction,
    smooth_predictions one_buffered 7 newer_list
    = Normal (store_set one_buffered 7 [older_list; newer_list], smoothed) /\
    length smoothed = Nat.min (length older_list) (length newer_list) /\
    forall (i : nat) (o n : Prediction),
      nth_error older_list i = Some o -> nth_error newer_list i = Some n ->
      nth_error smoothed i = Some (smoothed_entry o n) /\
      smoothed_entry o n = with_probability n (probability (smoothed_entry o n)) /\
      (lane_id n <> lane_id o ->
       probability (smoothed_entry o n) = probability n * 0.95) /\
      (lane_id n = lane_id o ->
       probability (smoothed_entry o n)
       = (probability o + probability n) / 2 * 0.95).
Proof.
  apply (smooth_predictions_positional one_buffered 7 older_list newer_list).
  reflexivity.
Defined.

(** C1 as stated fails: track [7] has [older_list] buffered, whose only
    entry is on lane [1]; the new list's only entry is on lane [2].  The
    buffer then holds two lists, the lane identifiers differ at rank [0],
    and yet the smoothed list contains that entry, with probability
    [0.6 * 0.95]. *)
Lemma smooth_predictions_keeps_mismatch :
  push_buffer one_buffered 7 newer_list = [older_list; newer_list] /\
  lane_id (pred_on_lane 2 0.6) <> lane_id (pred_on_lane 1 0.8) /\
  smooth_predictions one_buffered 7 newer_list
  = Normal (store_set one_buffered 7 [older_list; newer_list],
            [with_probability (pred_on_lane 2 0.6) (0.6 * 0.95)]).
Proof.
  split; [reflexivity|]. split; [discriminate|].
  rewrite (smooth_predictions_two one_buffered 7 older_list newer_list)
    by reflexivity.
  reflexivity.
Qed.

(** * Further properties of the consolidation stages *)

(** ** Smoothing *)

Lemma smooth_polyline_length (points : Polyline) (w : Z) :
  length (smooth_polyline points w) = length points.
Proof.
  destruct (Z.lt_ge_cases (Z.of_nat (length points)) w) as [H | H].
  - now rewrite smooth_polyline_short.
  - rewrite smooth_polyline_long by lia. now rewrite length_map, range_length.
Qed.

Lemma np_mean_single (p : Point) : np_mean [p] = p.
Proof.
  destruct p as [x y]. unfold np_mean, Py.sum, px, py. simpl. f_equal; field.
Qed.

Lemma points_between_single (points : Polyline) (i : nat) (p : Point) :
  nth_error points i = Some p ->
  points_between points (Z.of_nat i) (Z.of_nat (S i)) = [p].
Proof.
  intros H. rewrite points_between_firstn.
  replace (S i - i)%nat with 1%nat by lia.
  revert i H; induction points as [|a l IH]; intros i H.
  - destruct i; discriminate.
  - destruct i as [|i]; simpl in *.
    + now inversion H.
    + now apply IH.
Qed.

(** X1. A window of size [0] or [1] averages each point with itself only:
    the smoothing is then the identity. *)
Theorem smooth_polyline_unit_window (points : Polyline) (w : Z) :
  (0 <= w <= 1)%Z -> smooth_polyline points w = points.
Proof.
  intros Hw.
  destruct (Z.lt_ge_cases (Z.of_nat (length points)) w) as [H | H].
  - now apply smooth_polyline_short.
  - rewrite smooth_polyline_long by lia.
    apply nth_error_ext. intros i.
    rewrite nth_error_map.
    destruct (Nat.lt_ge_cases i (length points)) as [Hi | Hi].
    + rewrite range_nth_error by exact Hi. simpl.
      rewrite smooth_window_between by lia.
      destruct (nth_error points i) as [p|] eqn:Ep;
        [| apply nth_error_None in Ep; lia].
      assert (Hhalf : (w / 2 = 0)%Z) by (apply Z.div_small; lia).
      rewrite Hhalf.
      replace (Z.max 0 (Z.of_nat i - 0)) with (Z.of_nat i) by lia.
      replace (Z.min (Z.of_nat (length points)) (Z.of_nat i + 0 + 1))
        with (Z.of_nat (S i)) by lia.
      rewrite (points_between_single _ _ _ Ep). now rewrite np_mean_single.
    + rewrite (proj2 (nth_error_None (Py.range (length points)) i))
        by (rewrite range_length; lia).
      simpl. symmetry. now apply nth_error_None.
Qed.

Lemma smooth_polyline_unit_window_witness :
  smooth_polyline five_points 1 = five_points.
Proof. apply smooth_polyline_unit_window. lia. Defined.

Lemma points_between_incl (points : Polyline) (lo hi : Z) (p : Point) :
  In p (points_between points lo hi) -> In p points.
Proof.
  unfold points_between. rewrite in_map_iff. intros [[i q] [Hq Hin]].
  simpl in Hq. subst q. apply filter_In in Hin. destruct Hin as [Hin _].
  now apply in_combine_r in Hin.
Qed.

Lemma sums_on_line (a b c : R) (ps : list Point) :
  Forall (on_line a b c) ps ->
  a * Py.sum (map px ps) + b * Py.sum (map py ps) = INR (length ps) * c.
Proof.
  induction 1 as [|p ps Hp _ IH].
  - unfold Py.sum. simpl. lra.
  - cbn [map length]. rewrite !sum_cons, S_INR. unfold on_line in Hp. lra.
Qed.

Lemma np_mean_on_line (a b c : R) (ps : list Point) :
  ps <> [] -> Forall (on_line a b c) ps -> on_line a b c (np_mean ps).
Proof.
  intros Hne Hps.
  assert (Hpos : 0 < INR (length ps)).
  { apply lt_0_INR. destruct ps; [congruence | simpl; lia]. }
  pose proof (sums_on_line a b c ps Hps) as Hsum.
  unfold np_mean.
  set (sx := Py.sum (map px ps)) in *. set (sy := Py.sum (map py ps)) in *.
  unfold on_line, px, py. cbn [fst snd].
  replace (a * (sx / INR (length ps)) + b * (sy / INR (length ps)))
    with ((a * sx + b * sy) / INR (length ps)) by (field; lra).
  rewrite Hsum. field. lra.
Qed.

(** X2. Smoothing keeps a track on its line: when every input point lies on
    the line [a x + b y = c], so does every output point. *)
Theorem smooth_polyline_on_line (points : Polyline) (w : Z) (a b c : R) :
  (0 <= w)%Z ->
  Forall (on_line a b c) points ->
  Forall (on_line a b c) (smooth_polyline points w).
Proof.
  intros Hw Hline.
  destruct (Z.lt_ge_cases (Z.of_nat (length points)) w) as [H | H].
  - now rewrite smooth_polyline_short.
  - rewrite smooth_polyline_long by lia.
    apply Forall_forall. intros q Hq. apply in_map_iff in Hq.
    destruct Hq as [i [<- Hi]]. unfold Py.range in Hi.
    apply in_map_iff in Hi. destruct Hi as [k [<- Hk]]. apply in_seq in Hk.
    assert (0 <= w / 2)%Z by (apply Z.div_pos; lia).
    rewrite smooth_window_between by exact Hw.
    apply np_mean_on_line.
    + apply (points_between_nonempty points _ _ k); lia.
    + apply Forall_forall. intros p Hp. apply points_between_incl in Hp.
      rewrite Forall_forall in Hline. now apply Hline.
Qed.

Lemma smooth_polyline_on_line_witness :
  Forall (on_line 0 1 0) (smooth_polyline five_points 5).
Proof.
  apply smooth_polyline_on_line; [lia|].
  unfold five_points, on_line, px, py. repeat constructor; simpl; lra.
Defined.

(** ** The shape distance and the clustering *)

Lemma Dist_ge_weaken (c c' : R) (d : Dist) :
  c' <= c -> Dist_ge c d -> Dist_ge c' d.
Proof. destruct d; simpl; intros; [lra | exact I]. Qed.

Lemma directed_hausdorff_nonneg (A B : Polyline) :
  Dist_ge 0 (directed_hausdorff A B).
Proof. unfold directed_hausdorff. apply directed_fold_ge. simpl. lra. Qed.

Lemma hausdorff_nonneg (A B : Polyline) :
  Dist_ge 0 (calculate_hausdorff_distance A B).
Proof.
  unfold calculate_hausdorff_distance. destruct (_ || _); [exact I|].
  apply Dist_max_ge_l, directed_hausdorff_nonneg.
Qed.

Lemma not_close_below_zero (tracks : list Polyline) (threshold : R) (i j : nat) :
  threshold <= 0 -> close_to tracks threshold i j = false.
Proof.
  intros H. unfold close_to. apply Dist_ge_not_below.
  apply (Dist_ge_weaken 0); [exact H | apply hausdorff_nonneg].
Qed.

Lemma filter_all_false {A} (f : A -> bool) (l : list A) :
  (forall x, f x = false) -> filter f l = [].
Proof. intros H. induction l; simpl; [reflexivity | now rewrite H]. Qed.

Lemma filter_all_true {A} (f : A -> bool) (l : list A) :
  (forall x, f x = true) -> filter f l = l.
Proof. intros H. induction l; simpl; [reflexivity | now rewrite H, IHl]. Qed.

(** When no track is close to another, every cluster is a lone track. *)
Lemma greedy_clusters_none_close (close : nat -> nat -> bool) (fuel : nat) :
  (forall i j, close i j = false) ->
  forall pending, (length pending <= fuel)%nat ->
    greedy_clusters close fuel pending = map (fun i => [i]) pending.
Proof.
  intros Hnone. induction fuel as [|fuel IH]; intros pending Hlen.
  - destruct pending; [reflexivity | simpl in Hlen; lia].
  - destruct pending as [|i rest]; [reflexivity|].
    cbn [greedy_clusters map].
    rewrite filter_all_false by apply Hnone.
    rewrite filter_all_true by (intros; now rewrite Hnone).
    rewrite IH by (simpl in Hlen; lia). reflexivity.
Qed.

Lemma map_track_at_seq (tracks : list Polyline) :
  map (track_at tracks) (seq 0 (length tracks)) = tracks.
Proof.
  apply nth_error_ext. intros k.
  rewrite nth_error_map, nth_error_seq.
  destruct (Nat.ltb_spec k (length tracks)) as [Hk | Hk]; simpl.
  - unfold track_at. symmetry. now apply nth_error_nth'.
  - symmetry. now apply nth_error_None.
Qed.

(** X3. The shape distance is never negative, so with a threshold that is
    not positive no two tracks are ever merged: the clustering returns its
    input. *)
Theorem merge_nothing_below_zero (tracks : list Polyline) (threshold : R) :
  threshold <= 0 ->
  (forall A B, Dist_ge 0 (calculate_hausdorff_distance A B)) /\
  merge_similar_tracks tracks threshold = tracks.
Proof.
  intros H. split; [apply hausdorff_nonneg|].
  rewrite merge_similar_tracks_refines.
  rewrite greedy_clusters_none_close.
  - rewrite map_map. cbn [cluster_output]. apply map_track_at_seq.
  - intros i j. now apply not_close_below_zero.
  - now rewrite length_seq.
Qed.

Lemma merge_nothing_below_zero_witness :
  merge_similar_tracks near_tracks 0 = near_tracks.
Proof. apply (merge_nothing_below_zero near_tracks 0). lra. Defined.

Lemma hausdorff_self_zero (A : Polyline) :
  (2 <= length A)%nat -> calculate_hausdorff_distance A A = Fin 0.
Proof.
  intros H. unfold calculate_hausdorff_distance.
  destruct (Nat.ltb_spec (length A) 2); [lia|]. simpl.
  rewrite directed_hausdorff_self.
  unfold Dist_max, Dist_ltb. destruct (Rlt_dec 0 0); reflexivity.
Qed.

(** X4. Two tracks whose shape distance is below the threshold merge into
    exactly one polyline, the smoothing of the first followed by the second,
    with as many points as the two tracks together. *)
Theorem merge_two_close_tracks (A B : Polyline) (threshold : R) :
  Dist_ltb (calculate_hausdorff_distance A B) (Fin threshold) = true ->
  merge_similar_tracks [A; B] threshold
  = [smooth_polyline (A ++ B) config.SMOOTHING_WINDOW_SIZE] /\
  total_points (merge_similar_tracks [A; B] threshold)
  = (length A + length B)%nat.
Proof.
  intros Hclose.
  assert (Hmerge : merge_similar_tracks [A; B] threshold
                   = [smooth_polyline (A ++ B) config.SMOOTHING_WINDOW_SIZE]).
  { rewrite merge_similar_tracks_refines.
    change (length [A; B]) with 2%nat. change (seq 0 2) with [0; 1]%nat.
    cbn [greedy_clusters].
    assert (Hc : close_to [A; B] threshold 0 1 = true) by exact Hclose.
    rewrite (filter_cons_true _ 1%nat) by exact Hc.
    rewrite (filter_cons_false (fun j => negb _) 1%nat) by now rewrite Hc.
    cbn [filter map cluster_output track_at nth concat].
    now rewrite app_nil_r. }
  split; [exact Hmerge|].
  rewrite Hmerge. unfold total_points. simpl.
  rewrite smooth_polyline_length, length_app. lia.
Qed.

Lemma merge_two_close_tracks_witness :
  total_points (merge_similar_tracks [five_points; five_points] 20) = 10%nat.
Proof.
  apply (merge_two_close_tracks five_points five_points 20).
  rewrite hausdorff_self_zero by (simpl; lia).
  simpl. destruct (Rlt_dec 0 20); [reflexivity | lra].
Defined.

(** *** The clusters partition the tracks *)

Lemma filter_split_perm {A} (f : A -> bool) (l : list A) :
  Permutation (filter f l ++ filter (fun x => negb (f x)) l) l.
Proof.
  induction l as [|a l IH]; simpl; [constructor|].
  destruct (f a); simpl.
  - now constructor.
  - apply Permutation_sym, Permutation_cons_app, Permutation_sym, IH.
Qed.

Lemma greedy_clusters_perm (close : nat -> nat -> bool) (fuel : nat) :
  forall pending, (length pending <= fuel)%nat ->
    Permutation (concat (greedy_clusters close fuel pending)) pending.
Proof.
  induction fuel as [|fuel IH]; intros pending Hlen.
  - destruct pending; [constructor | simpl in Hlen; lia].
  - destruct pending as [|i rest]; [constructor|].
    cbn [greedy_clusters concat app]. constructor.
    pose proof (filter_length_le (fun j => negb (close i j)) rest) as Hle.
    rewrite IH by (simpl in Hlen; lia).
    apply filter_split_perm.
Qed.

Lemma greedy_clusters_count (close : nat -> nat -> bool) (fuel : nat) :
  forall pending,
    (length (greedy_clusters close fuel pending) <= length pending)%nat.
Proof.
  induction fuel as [|fuel IH]; intros pending.
  - simpl. lia.
  - destruct pending as [|i rest]; [simpl; lia|].
    cbn [greedy_clusters length].
    pose proof (IH (filter (fun j => negb (close i j)) rest)).
    pose proof (filter_length_le (fun j => negb (close i j)) rest). lia.
Qed.

Lemma cluster_output_length (tracks : list Polyline) (members : list nat) :
  length (cluster_output tracks members)
  = list_sum (map (fun i => length (track_at tracks i)) members).
Proof.
  unfold cluster_output.
  destruct members as [|i [|j rest]].
  - rewrite smooth_polyline_length. reflexivity.
  - simpl. lia.
  - rewrite smooth_polyline_length, length_concat, map_map. reflexivity.
Qed.

Lemma list_sum_concat_map (f : nat -> nat) (cs : list (list nat)) :
  list_sum (map (fun c => list_sum (map f c)) cs)
  = list_sum (map f (concat cs)).
Proof.
  induction cs as [|c cs IH]; simpl; [reflexivity|].
  now rewrite map_app, list_sum_app, IH.
Qed.

Lemma merge_count (tracks : list Polyline) (threshold : R) :
  (length (merge_similar_tracks tracks threshold) <= length tracks)%nat /\
  (tracks <> [] -> merge_similar_tracks tracks threshold <> []).
Proof.
  rewrite merge_similar_tracks_refines. split.
  - rewrite length_map.
    pose proof (greedy_clusters_count (close_to tracks threshold)
                  (length tracks) (seq 0 (length tracks))) as H.
    now rewrite length_seq in H.
  - intros Hne. destruct tracks as [|t rest]; [congruence|]. discriminate.
Qed.

Lemma merge_total_points (tracks : list Polyline) (threshold : R) :
  total_points (merge_similar_tracks tracks threshold) = total_points tracks.
Proof.
  rewrite merge_similar_tracks_refines.
  set (clusters := greedy_clusters _ _ _).
  unfold total_points. rewrite map_map.
  rewrite (map_ext _ _ (cluster_output_length tracks)).
  rewrite list_sum_concat_map.
  assert (Hperm : Permutation (concat clusters) (seq 0 (length tracks))).
  { subst clusters. apply greedy_clusters_perm. now rewrite length_seq. }
  rewrite (Permutation_map _ Hperm).
  rewrite <- (map_map (track_at tracks) (@length Point)).
  now rewrite map_track_at_seq.
Qed.

(** X5. The clustering neither loses nor creates points: the output
    polylines have together as many points as the input tracks; and it
    returns at most as many polylines as there are tracks, and at least one
    when there is a track. *)
Theorem merge_conserves_points (tracks : list Polyline) (threshold : R) :
  total_points (merge_similar_tracks tracks threshold) = total_points tracks /\
  (length (merge_similar_tracks tracks threshold) <= length tracks)%nat /\
  (tracks <> [] -> merge_similar_tracks tracks threshold <> []).
Proof.
  split; [apply merge_total_points | apply merge_count].
Qed.

Lemma merge_conserves_points_witness :
  merge_similar_tracks apart_tracks 20 <> [].
Proof. apply (merge_conserves_points apart_tracks 20). discriminate. Defined.

(** ** Snapping *)

Lemma snap_against_no_tolerance (tolerance : R) (track s other : Polyline) :
  tolerance <= 0 -> snap_against tolerance track s other = s.
Proof.
  intros H. unfold snap_against.
  destruct (Polyline_eq_dec other track); [reflexivity|].
  destruct (length other <? 2)%nat; [reflexivity|].
  repeat rewrite if_Rlt_false
    by (match goal with |- ~ euclid ?a ?b < _ =>
          pose proof (euclid_nonneg a b); lra end).
  reflexivity.
Qed.

Lemma snap_track_no_tolerance (tracks : list Polyline) (tolerance : R)
    (track : Polyline) :
  tolerance <= 0 -> snap_track tracks tolerance track = track.
Proof.
  intros H. unfold snap_track. generalize track at 2 3 as s.
  induction tracks as [|other tracks IH]; intros s; simpl; [reflexivity|].
  rewrite snap_against_no_tolerance by exact H. apply IH.
Qed.

(** X6. With a tolerance that is not positive no endpoint moves: on more
    than one track the snapping only leaves out the tracks of fewer than two
    points. *)
Theorem snap_nothing_below_zero (tracks : list Polyline) (tolerance : R) :
  tolerance <= 0 -> (1 < length tracks)%nat ->
  snap_endpoints tracks tolerance
  = filter (fun t => (2 <=? length t)%nat) tracks.
Proof.
  intros Htol Hlen. rewrite snap_endpoints_long by exact Hlen.
  rewrite (map_ext_in _ (fun t => t))
    by (intros; now apply snap_track_no_tolerance).
  rewrite map_id. apply filter_ext. intros t.
  destruct (Nat.ltb_spec (length t) 2), (Nat.leb_spec 2 (length t));
    simpl; try reflexivity; lia.
Qed.

Lemma snap_nothing_below_zero_witness :
  snap_endpoints near_tracks 0
  = filter (fun t => (2 <=? length t)%nat) near_tracks.
Proof. apply snap_nothing_below_zero; [lra | simpl; lia]. Defined.

Lemma first_point_set_first (s : Polyline) (p : Point) :
  (1 <= length s)%nat -> first_point (set_first s p) = p.
Proof. destruct s; simpl; [lia | reflexivity]. Qed.

Lemma last_point_set_first (s : Polyline) (p : Point) :
  (2 <= length s)%nat -> last_point (set_first s p) = last_point s.
Proof. destruct s as [|a [|b r]]; simpl; intros; try lia; reflexivity. Qed.

Lemma last_point_set_last (s : Polyline) (p : Point) :
  (1 <= length s)%nat -> last_point (set_last s p) = p.
Proof.
  destruct s as [|a s]; simpl; [lia|]. intros _.
  unfold last_point, set_last. apply last_last.
Qed.

Lemma first_point_set_last (s : Polyline) (p : Point) :
  (2 <= length s)%nat -> first_point (set_last s p) = first_point s.
Proof.
  intros H. rewrite set_last_eq. destruct s as [|a [|b r]]; simpl in *; try lia.
  reflexivity.
Qed.

Lemma snap_against_ends (tolerance : R) (E : list Point)
    (track s other : Polyline) :
  (2 <= length track)%nat ->
  In (first_point other) E -> In (last_point other) E ->
  ends_within E (length track) s ->
  ends_within E (length track) (snap_against tolerance track s other).
Proof.
  intros Hlen Hf Hl Hs. unfold snap_against.
  destruct (Polyline_eq_dec other track); [exact Hs|].
  destruct (length other <? 2)%nat; [exact Hs|].
  assert (Hfirst : forall p, In p E -> ends_within E (length track) s ->
                             ends_within E (length track) (set_first s p)).
  { intros p Hp (L & F & La). repeat split.
    - now rewrite set_first_length.
    - rewrite first_point_set_first by lia. exact Hp.
    - rewrite last_point_set_first by lia. exact La. }
  assert (Hlast : forall p s', In p E -> ends_within E (length track) s' ->
                               ends_within E (length track) (set_last s' p)).
  { intros p s' Hp (L & F & La). repeat split.
    - now rewrite set_last_length.
    - rewrite first_point_set_last by lia. exact F.
    - rewrite last_point_set_last by lia. exact Hp. }
  repeat match goal with
         | |- context [Rlt_dec ?a ?b] => destruct (Rlt_dec a b)
         end; auto.
Qed.

Lemma snap_fold_ends (tolerance : R) (E : list Point) (track : Polyline)
    (others : list Polyline) (s : Polyline) :
  (2 <= length track)%nat ->
  (forall o, In o others -> In (first_point o) E /\ In (last_point o) E) ->
  ends_within E (length track) s ->
  ends_within E (length track)
              (fold_left (snap_against tolerance track) others s).
Proof.
  intros Hlen. revert s.
  induction others as [|other others IH]; intros s Hin Hs; simpl; [exact Hs|].
  apply IH.
  - intros o Ho. apply Hin. now right.
  - destruct (Hin other (or_introl eq_refl)). now apply snap_against_ends.
Qed.

Lemma endpoints_in_flat_map (tracks : list Polyline) (o : Polyline) :
  In o tracks ->
  In (first_point o) (flat_map endpoints tracks) /\
  In (last_point o) (flat_map endpoints tracks).
Proof.
  intros H. split; apply in_flat_map; exists o; (split; [exact H|]);
    unfold endpoints; simpl; auto.
Qed.

Lemma snap_track_ends (tracks : list Polyline) (tolerance : R)
    (track : Polyline) :
  In track tracks -> (2 <= length track)%nat ->
  ends_within (flat_map endpoints tracks) (length track)
              (snap_track tracks tolerance track).
Proof.
  intros Hin Hlen. apply snap_fold_ends.
  - exact Hlen.
  - intros o Ho. now apply endpoints_in_flat_map.
  - destruct (endpoints_in_flat_map tracks track Hin). now repeat split.
Qed.

(** X7. Snapping invents no coordinate: on more than one track, each end of
    each output track is an endpoint of one of the input tracks. *)
Theorem snap_endpoints_from_input (tracks : list Polyline) (tolerance : R) :
  (1 < length tracks)%nat ->
  Forall (fun s => In (first_point s) (flat_map endpoints tracks) /\
                   In (last_point s) (flat_map endpoints tracks))
         (snap_endpoints tracks tolerance).
Proof.
  intros Hlen. rewrite snap_endpoints_long by exact Hlen.
  apply Forall_forall. intros s Hs. apply in_map_iff in Hs.
  destruct Hs as [t [<- Ht]]. apply filter_In in Ht. destruct Ht as [Ht Hlong].
  destruct (Nat.ltb_spec (length t) 2); [discriminate|].
  destruct (snap_track_ends tracks tolerance t Ht) as (_ & F & L); [lia|].
  now split.
Qed.

Lemma snap_endpoints_from_input_witness :
  Forall (fun s => In (first_point s) (flat_map endpoints near_tracks) /\
                   In (last_point s) (flat_map endpoints near_tracks))
         (snap_endpoints near_tracks 15).
Proof. apply snap_endpoints_from_input. simpl. lia. Defined.

(** ** The whole consolidation *)

Lemma filter_valid_tracks_long (all_tracks : list (Z * Polyline))
    (track_frame_counts : list (Z * Z)) (fps : R) :
  Forall (fun t => (config.MIN_TRACK_POINTS <= Z.of_nat (length t))%Z)
         (filter_valid_tracks all_tracks track_frame_counts fps).
Proof.
  rewrite filter_valid_tracks_eq. apply Forall_forall. intros t Ht.
  apply in_map_iff in Ht. destruct Ht as [item [<- Hitem]].
  apply filter_In in Hitem. destruct Hitem as [_ Hs].
  apply survives_iff in Hs. rewrite smooth_polyline_length. tauto.
Qed.

Lemma greedy_clusters_members (close : nat -> nat -> bool) (fuel : nat) :
  forall pending c,
    In c (greedy_clusters close fuel pending) ->
    exists seed later, c = seed :: later /\ incl c pending.
Proof.
  induction fuel as [|fuel IH]; intros pending c Hc; [contradiction|].
  destruct pending as [|i rest]; [contradiction|].
  cbn [greedy_clusters] in Hc. destruct Hc as [<- | Hc].
  - exists i, (filter (close i) rest). split; [reflexivity|].
    intros x [-> | Hx]; [now left|]. right. now apply filter_In in Hx.
  - destruct (IH _ _ Hc) as (seed & later & -> & Hincl).
    exists seed, later. split; [reflexivity|].
    intros x Hx. right. apply Hincl in Hx. now apply filter_In in Hx.
Qed.

Lemma merge_keeps_long (tracks : list Polyline) (threshold : R) (m : nat) :
  Forall (fun t => (m <= length t)%nat) tracks ->
  Forall (fun t => (m <= length t)%nat) (merge_similar_tracks tracks threshold).
Proof.
  intros Hlong. rewrite merge_similar_tracks_refines.
  apply Forall_forall. intros t Ht. apply in_map_iff in Ht.
  destruct Ht as [c [<- Hc]].
  destruct (greedy_clusters_members _ _ _ _ Hc) as (seed & later & -> & Hincl).
  rewrite cluster_output_length. cbn [map list_sum].
  assert (Hseed : In seed (seq 0 (length tracks))) by (apply Hincl; now left).
  apply in_seq in Hseed.
  assert (Hm : (m <= length (track_at tracks seed))%nat).
  { rewrite Forall_forall in Hlong. apply Hlong. unfold track_at.
    apply nth_In. lia. }
  simpl. lia.
Qed.

Lemma filter_all_true_in {A} (f : A -> bool) (l : list A) :
  (forall x, In x l -> f x = true) -> filter f l = l.
Proof.
  induction l as [|a l IH]; intros H; simpl; [reflexivity|].
  rewrite (H a (or_introl eq_refl)), IH; [reflexivity|].
  intros x Hx. apply H. now right.
Qed.

Lemma filter_all_false_in {A} (f : A -> bool) (l : list A) :
  (forall x, In x l -> f x = false) -> filter f l = [].
Proof.
  induction l as [|a l IH]; intros H; simpl; [reflexivity|].
  rewrite (H a (or_introl eq_refl)). apply IH.
  intros x Hx. apply H. now right.
Qed.

Lemma snap_keeps_long (tracks : list Polyline) (tolerance : R) (m : nat) :
  (2 <= m)%nat ->
  Forall (fun t => (m <= length t)%nat) tracks ->
  Forall (fun t => (m <= length t)%nat) (snap_endpoints tracks tolerance) /\
  length (snap_endpoints tracks tolerance) = length tracks.
Proof.
  intros Hm Hlong.
  destruct (Nat.le_gt_cases (length tracks) 1) as [Hshort | Hmany].
  - unfold snap_endpoints.
    destruct (Nat.leb_spec (length tracks) 1); [now split | lia].
  - rewrite snap_endpoints_long by exact Hmany.
    rewrite filter_all_true_in.
    + split; [| apply length_map].
      apply Forall_forall. intros s Hs. apply in_map_iff in Hs.
      destruct Hs as [t [<- Ht]].
      destruct (snap_track_interior tracks tolerance t) as [Hlen _].
      rewrite Hlen. rewrite Forall_forall in Hlong. now apply Hlong.
    + intros t Ht. rewrite Forall_forall in Hlong. apply Hlong in Ht.
      destruct (Nat.ltb_spec (length t) 2); [lia | reflexivity].
Qed.

(** X8. The consolidation as a whole: every lane it returns has at least
    [MIN_TRACK_POINTS] points; it returns no more lanes than there are raw
    tracks; and it returns no lane exactly when no raw track passes the
    filter. *)
Theorem process_tracks_lanes (all_tracks : list (Z * Polyline))
    (track_frame_counts : list (Z * Z)) (fps : R) :
  let lanes := process_tracks all_tracks track_frame_counts fps in
  Forall (fun lane => (config.MIN_TRACK_POINTS <= Z.of_nat (length lane))%Z)
         lanes /\
  (length lanes <= length all_tracks)%nat /\
  (lanes = [] <->
   forall item, In item all_tracks ->
                survives track_frame_counts fps item = false).
Proof.
  intros lanes. subst lanes. unfold process_tracks.
  set (valid := filter_valid_tracks all_tracks track_frame_counts fps).
  assert (Hvalid5 : Forall (fun t => (5 <= length t)%nat) valid).
  { pose proof (filter_valid_tracks_long all_tracks track_frame_counts fps) as H.
    fold valid in H. unfold config.MIN_TRACK_POINTS in H.
    eapply Forall_impl; [| exact H]. simpl. intros. lia. }
  assert (Hvalid_len : length valid
                       = length (filter (survives track_frame_counts fps) all_tracks)).
  { subst valid. rewrite filter_valid_tracks_eq. apply length_map. }
  pose proof (filter_length_le (survives track_frame_counts fps) all_tracks)
    as Hfilter.
  set (merged := merge_similar_tracks valid config.HAUSDORFF_THRESHOLD).
  pose proof (merge_keeps_long valid config.HAUSDORFF_THRESHOLD 5 Hvalid5)
    as Hmerged5.
  fold merged in Hmerged5.
  destruct (merge_count valid config.HAUSDORFF_THRESHOLD)
    as [Hcount Hnonempty].
  fold merged in Hcount, Hnonempty.
  destruct (snap_keeps_long merged config.ENDPOINT_SNAP_TOLERANCE 5
              ltac:(lia) Hmerged5) as [Hsnap5 Hsnap_len].
  destruct (Nat.eqb_spec (length valid) 0) as [Hnone | Hsome].
  - split; [constructor|]. split; [simpl; lia|]. split; [| reflexivity].
    intros _ item Hitem.
    destruct (survives track_frame_counts fps item) eqn:Hs; [| reflexivity].
    assert (In item (filter (survives track_frame_counts fps) all_tracks))
      by (apply filter_In; now split).
    destruct (filter _ all_tracks); [contradiction | simpl in *; lia].
  - split; [| split; [| split]].
    + eapply Forall_impl; [| exact Hsnap5]. unfold config.MIN_TRACK_POINTS.
      simpl. intros. lia.
    + lia.
    + intros Hempty. rewrite Hempty in Hsnap_len. simpl in Hsnap_len.
      assert (merged = []) by (destruct merged; [reflexivity | discriminate]).
      exfalso. apply Hnonempty; [| assumption].
      intros Hv. apply Hsome. now rewrite Hv.
    + intros Hnone. exfalso. apply Hsome. rewrite Hvalid_len.
      rewrite filter_all_false_in by exact Hnone. reflexivity.
Qed.

Lemma process_tracks_lanes_witness :
  (length (process_tracks one_raw_track ninety_frames 30) <= 1)%nat.
Proof. apply (process_tracks_lanes one_raw_track ninety_frames 30). Defined.

(** * Properties of the collection of raw tracks *)

Lemma center_of_obb_eq (i : option Z) (cx cy w h angle : R) :
  center_point
    (extract_obb_polyline {| box_id := i; xywhr := (cx, cy, w, h, angle) |})
  = (cx, cy).
Proof.
  unfold center_point, extract_obb_polyline, Py.sum, px, py. simpl.
  f_equal; field.
Qed.

(** X9. The point stored for a detection is the centre of its box: the mean
    of the four rotated corners is [(cx, cy)], whatever the size and the
    angle. *)
Theorem center_of_obb (i : option Z) (cx cy w h angle : R) :
  center_point
    (extract_obb_polyline {| box_id := i; xywhr := (cx, cy, w, h, angle) |})
  = (cx, cy).
Proof. apply center_of_obb_eq. Qed.

Lemma dict_apply_keys_in {V} (d : list (Z * V)) (k : Z) (default : V)
    (f : V -> V) (x : Z) :
  In x (map fst (dict_apply d k default f)) <-> In x (map fst d) \/ x = k.
Proof.
  induction d as [|[k' v] rest IH]; simpl.
  - intuition.
  - destruct (Z.eqb_spec k' k); simpl.
    + subst. intuition.
    + rewrite IH. intuition.
Qed.

Lemma dict_apply_NoDup {V} (d : list (Z * V)) (k : Z) (default : V)
    (f : V -> V) :
  NoDup (map fst d) -> NoDup (map fst (dict_apply d k default f)).
Proof.
  induction d as [|[k' v] rest IH]; simpl; intros Hnd.
  - constructor; [intros [] | constructor].
  - inversion Hnd as [|? ? Hnotin Hrest]; subst.
    destruct (Z.eqb_spec k' k); simpl.
    + now constructor.
    + constructor; [| now apply IH].
      rewrite dict_apply_keys_in. intros [H | H]; [contradiction | congruence].
Qed.

Lemma dict_apply_counts (all_tracks : list (Z * Polyline)) (k : Z) (c : Point) :
  dict_apply (counts_of all_tracks) k 0%Z (fun n => (n + 1)%Z)
  = counts_of (dict_apply all_tracks k [] (fun pts => pts ++ [c])).
Proof.
  induction all_tracks as [|[k' pts] rest IH]; simpl.
  - reflexivity.
  - destruct (Z.eqb_spec k' k); simpl.
    + unfold counts_of at 2. simpl. rewrite length_app. simpl.
      do 2 f_equal. lia.
    + now rewrite IH.
Qed.

Lemma dict_apply_total (all_tracks : list (Z * Polyline)) (k : Z) (c : Point) :
  total_points (map snd (dict_apply all_tracks k [] (fun pts => pts ++ [c])))
  = S (total_points (map snd all_tracks)).
Proof.
  unfold total_points.
  induction all_tracks as [|[k' pts] rest IH]; simpl.
  - reflexivity.
  - destruct (Z.eqb_spec k' k); simpl.
    + rewrite length_app. simpl. lia.
    + rewrite IH. lia.
Qed.

Lemma dict_apply_nonempty (all_tracks : list (Z * Polyline)) (k : Z) (c : Point) :
  Forall (fun item => snd item <> []) all_tracks ->
  Forall (fun item : Z * Polyline => snd item <> [])
         (dict_apply all_tracks k [] (fun pts => pts ++ [c])).
Proof.
  induction 1 as [|[k' pts] rest Hpts Hrest IH]; simpl.
  - constructor; [discriminate | constructor].
  - destruct (Z.eqb_spec k' k).
    + constructor; [| exact Hrest]. simpl. now destruct pts.
    + now constructor.
Qed.

Lemma collect_box_ok (st : Collected) (box : Box) :
  collected_ok st -> collected_ok (collect_box st box).
Proof.
  destruct st as [[all_tracks counts] n]. intros (Hc & Hnd & Hne & Hn).
  unfold collect_box. destruct (box_id box) as [trackID|].
  - repeat split.
    + rewrite Hc. apply dict_apply_counts.
    + now apply dict_apply_NoDup.
    + now apply dict_apply_nonempty.
    + rewrite dict_apply_total. lia.
  - repeat split; try assumption. lia.
Qed.

Lemma process_video_tracks_ok (results : list (option (list Box))) :
  collected_ok (process_video_tracks results).
Proof.
  unfold process_video_tracks.
  assert (H0 : collected_ok ([], [], 0%Z)).
  { repeat split; try constructor. simpl. lia. }
  revert H0. generalize (([], [], 0%Z) : Collected) as st.
  induction results as [|result results IH]; intros st Hst; simpl.
  - exact Hst.
  - apply IH. destruct result as [obb|]; [| exact Hst].
    revert st Hst. induction obb as [|box obb IHo]; intros st Hst; simpl.
    + exact Hst.
    + apply IHo. now apply collect_box_ok.
Qed.

Lemma frame_count_of_counts (all_tracks : list (Z * Polyline)) (item : Z * Polyline) :
  NoDup (map fst all_tracks) -> In item all_tracks ->
  frame_count (counts_of all_tracks) (fst item) = Z.of_nat (length (snd item)).
Proof.
  unfold frame_count, counts_of.
  induction all_tracks as [|[k pts] rest IH]; intros Hnd Hin; [contradiction|].
  inversion Hnd as [|? ? Hnotin Hrest]; subst. simpl.
  destruct Hin as [<- | Hin]; simpl.
  - now rewrite Z.eqb_refl.
  - destruct (Z.eqb_spec k (fst item)) as [-> | Hne].
    + exfalso. apply Hnotin. now apply in_map.
    + now apply IH.
Qed.

(** X10. In what the collection returns, the frame count of every track is
    its number of points, no identifier appears twice and no track is
    empty; hence the filter keeps exactly the collected tracks with at
    least [max(int(MIN_TRACK_DURATION_SECONDS * fps), MIN_TRACK_POINTS)]
    points. *)
Theorem collected_counts_are_lengths (results : list (option (list Box)))
    (fps : R) :
  let all_tracks := fst (fst (process_video_tracks results)) in
  let track_frame_counts := snd (fst (process_video_tracks results)) in
  NoDup (map fst all_tracks) /\
  forall item, In item all_tracks ->
    snd item <> [] /\
    frame_count track_frame_counts (fst item) = Z.of_nat (length (snd item)) /\
    (survives track_frame_counts fps item = true <->
     (Z.max (min_frames fps) config.MIN_TRACK_POINTS
      <= Z.of_nat (length (snd item)))%Z).
Proof.
  pose proof (process_video_tracks_ok results) as Hok.
  destruct (process_video_tracks results) as [[all_tracks counts] n].
  destruct Hok as (Hc & Hnd & Hne & _). simpl. split; [exact Hnd|].
  intros item Hin.
  assert (Hcount : frame_count counts (fst item) = Z.of_nat (length (snd item)))
    by (rewrite Hc; now apply frame_count_of_counts).
  split; [| split].
  - rewrite Forall_forall in Hne. now apply Hne.
  - exact Hcount.
  - rewrite survives_iff, Hcount. fold (min_frames fps). lia.
Qed.

Lemma two_frames_collected :
  process_video_tracks two_frames
  = ([(3%Z, [(10, 10); (12, 10)])], [(3%Z, 2%Z)], 3%Z).
Proof.
  unfold two_frames, process_video_tracks, box_of. cbn [fold_left].
  unfold collect_box. cbn [box_id]. rewrite !center_of_obb_eq.
  reflexivity.
Qed.

Lemma collected_counts_are_lengths_witness :
  frame_count (snd (fst (process_video_tracks two_frames))) 3
  = Z.of_nat (length [(10, 10); (12, 10)]).
Proof.
  pose proof (collected_counts_are_lengths two_frames 30) as [_ H].
  apply (H (3%Z, [(10, 10); (12, 10)])).
  rewrite two_frames_collected. simpl. now left.
Defined.

(** * Further properties of the lane manager *)

(** ** Positions along a lane *)

Lemma ls_walk_beyond (cs : Polyline) (d : R) :
  cs <> [] -> ls_length cs <= d -> ls_walk cs d = Some (last_point cs).
Proof.
  revert d; induction cs as [|a [|b rest] IH]; intros d Hne Hd.
  - congruence.
  - reflexivity.
  - rewrite ls_length_cons2 in Hd. rewrite ls_walk_cons2.
    pose proof (ls_length_nonneg (b :: rest)) as Hpos.
    rewrite if_Rlt_false by lra.
    rewrite IH by (try discriminate; lra). reflexivity.
Qed.

Lemma path_loop_some_length (cs : Polyline) (start step maxp : R)
    (indices : list Z) (path : list Point) :
  path_loop cs start step maxp indices = Some path ->
  (length path <= length indices)%nat.
Proof.
  revert path; induction indices as [|i rest IH]; intros path H.
  - inversion H. simpl. lia.
  - cbn [path_loop] in H.
    destruct (ls_interpolate cs _) as [pt|]; [| discriminate].
    destruct (Rge_dec _ maxp).
    + inversion H. simpl. lia.
    + destruct (path_loop cs start step maxp rest) as [more|]; [| discriminate].
      inversion H. simpl. specialize (IH more eq_refl). lia.
Qed.

Lemma path_length_bound (lane : Lane) (start_progress distance : R)
    (num_points : Z) :
  (Z.of_nat (length (get_path_along_lane lane start_progress distance num_points))
   <= Z.max 0 num_points)%Z.
Proof.
  unfold get_path_along_lane.
  destruct (Rle_dec _ start_progress); [simpl; lia|].
  destruct (Rle_dec _ start_progress); [simpl; lia|].
  destruct (path_loop _ _ _ _ _) as [path|] eqn:E; [| simpl; lia].
  apply path_loop_some_length in E. rewrite range_length in E. lia.
Qed.

(** X12. A sampled path never has more than [num_points] points, whatever
    the lane and the range asked for. *)
Theorem path_at_most_num_points (lane : Lane) (start_progress distance : R)
    (num_points : Z) :
  (Z.of_nat (length (get_path_along_lane lane start_progress distance num_points))
   <= Z.max 0 num_points)%Z.
Proof. apply path_length_bound. Qed.





(** ** The direction of a lane *)

Lemma is_zero_spec (x : R) : is_zero x = true <-> x = 0.
Proof.
  unfold is_zero. destruct (Req_dec_T x 0); split; congruence.
Qed.


(** The length used by the divisions is either [0.0], by underflow, or the
    exact one, which is then positive. *)
Lemma vector_length_cases (dx dy : R) :
  (vector_length dx dy = 0 /\
   dx * dx <= Py.FLOAT_TINY /\ dy * dy <= Py.FLOAT_TINY) \/
  (vector_length dx dy = sqrt (dx * dx + dy * dy) /\
   0 < sqrt (dx * dx + dy * dy) /\
   (Py.FLOAT_TINY < dx * dx \/ Py.FLOAT_TINY < dy * dy)).
Proof.
  unfold vector_length, Py.underflows.
  pose proof (Rle_0_sqr dx) as Hx. pose proof (Rle_0_sqr dy) as Hy.
  unfold Rsqr in Hx, Hy.
  assert (Htiny : 0 < Py.FLOAT_TINY) by (unfold Py.FLOAT_TINY; lra).
  destruct (Rle_dec (dx * dx) Py.FLOAT_TINY) as [Hdx | Hdx];
    destruct (Rle_dec (dy * dy) Py.FLOAT_TINY) as [Hdy | Hdy]; cbn [andb].
  - left. now repeat split.
  - right. split; [reflexivity|]. split; [apply sqrt_lt_R0; lra | right; lra].
  - right. split; [reflexivity|]. split; [apply sqrt_lt_R0; lra | left; lra].
  - right. split; [reflexivity|]. split; [apply sqrt_lt_R0; lra | left; lra].
Qed.

Lemma unit_vector_by_zero (dx dy : R) : unit_vector dx dy 0 = Raised.
Proof.
  unfold unit_vector, Py.div.
  destruct (Req_dec_T 0 0) as [_ | Hne]; [reflexivity | contradiction].
Qed.

Lemma seg_length_in_range (s : Point * Point) :
  squares_in_range s -> seg_length s = Normal (euclid (fst s) (snd s)).
Proof.
  intros (Hx & Hy). unfold seg_length.
  rewrite (pow2_in_range _ Hx), (pow2_in_range _ Hy). cbn [bind].
  unfold euclid. f_equal. f_equal. ring.
Qed.

Lemma seg_length_value (s : Point * Point) (l : R) :
  seg_length s = Normal l -> l = euclid (fst s) (snd s).
Proof.
  unfold seg_length.
  destruct (Py.pow2 (px (snd s) - px (fst s))) as [a|] eqn:Ea; cbn [bind];
    [| discriminate].
  destruct (Py.pow2 (py (snd s) - py (fst s))) as [b|] eqn:Eb; cbn [bind];
    [| discriminate].
  apply pow2_value in Ea, Eb. subst a b. intros H. inversion H.
  unfold euclid. f_equal. ring.
Qed.


(** The lengths the first loop collects, when it collects them. *)
Lemma segment_lengths_loop (segs : list (Point * Point)) :
  forall init,
    (forall ls,
       for_each segs
         (fun segment_lengths s =>
            seg_length <- seg_length s ;;
            Normal (segment_lengths ++ [seg_length]))
         init = Normal ls ->
       ls = init ++ map euclid_of segs) /\
    (Forall squares_in_range segs ->
     for_each segs
       (fun segment_lengths s =>
          seg_length <- seg_length s ;;
          Normal (segment_lengths ++ [seg_length]))
       init = Normal (init ++ map euclid_of segs)).
Proof.
  induction segs as [|s rest IH]; intros init; cbn [for_each map].
  - rewrite app_nil_r. split; [intros ls H; now inversion H | reflexivity].
  - split.
    + intros ls. destruct (seg_length s) as [l|] eqn:El; cbn [bind];
        [| discriminate].
      apply seg_length_value in El. subst l. intros H.
      apply (proj1 (IH _)) in H. now rewrite <- app_assoc in H.
    + intros Hall. inversion Hall as [|? ? Hs Hrest]; subst.
      rewrite (seg_length_in_range s Hs). cbn [bind].
      rewrite (proj2 (IH _) Hrest). now rewrite <- app_assoc.
Qed.

Lemma segment_lengths_value (cs : Polyline) (ls : list R) :
  segment_lengths cs = Normal ls -> ls = map euclid_of (segments cs).
Proof. intros H. now apply (proj1 (segment_lengths_loop (segments cs) [])). Qed.

Lemma segment_lengths_in_range (cs : Polyline) :
  Forall squares_in_range (segments cs) ->
  segment_lengths cs = Normal (map euclid_of (segments cs)).
Proof. intros H. now apply (proj2 (segment_lengths_loop (segments cs) [])). Qed.


Lemma sum_seg_lengths (cs : Polyline) :
  Py.sum (map euclid_of (segments cs)) = ls_length cs.
Proof.
  induction cs as [|a [|b rest] IH]; try reflexivity.
  change (segments (a :: b :: rest)) with ((a, b) :: segments (b :: rest)).
  cbn [map]. rewrite sum_cons, IH, ls_length_cons2. reflexivity.
Qed.

Lemma combine_map_self {A B} (f : A -> B) (l : list A) :
  combine l (map f l) = map (fun x => (x, f x)) l.
Proof. induction l as [|x l IH]; simpl; [reflexivity | now rewrite IH]. Qed.









(** Outside that range the division does raise: the first segment of
    [thin_lane] is not null, but its squared length underflows. *)
Lemma direction_scan_underflow (s : Point * Point) (l : R)
    (rest : list ((Point * Point) * R)) (target current : R) :
  current + l >= target ->
  px (snd s) - px (fst s) <> 0 ->
  (px (snd s) - px (fst s)) * (px (snd s) - px (fst s)) <= Py.FLOAT_TINY ->
  (py (snd s) - py (fst s)) * (py (snd s) - py (fst s)) <= Py.FLOAT_TINY ->
  direction_scan ((s, l) :: rest) target current = Raised.
Proof.
  intros Hreach Hdx Hx Hy. cbn [direction_scan].
  destruct (Rge_dec (current + l) target); [| contradiction].
  destruct (is_zero (px (snd s) - px (fst s))) eqn:Hz;
    [apply is_zero_spec in Hz; contradiction|].
  cbn [andb].
  destruct (vector_length_cases (px (snd s) - px (fst s))
                                (py (snd s) - py (fst s)))
    as [(E0 & _) | (_ & _ & [Hbig | Hbig])]; [| lra | lra].
  now rewrite E0, unit_vector_by_zero.
Qed.

Lemma thin_lane_raises : get_lane_direction_at_progress thin_lane 0 = Raised.
Proof.
  unfold get_lane_direction_at_progress, thin_lane. cbn [coords length].
  destruct (Nat.ltb_spec 3 2) as [Hlt | _]; [lia|].
  assert (HL : ls_length [(0, 0); (/ 2 ^ 700, 0); (10, 0)] <> 0).
  { intros E. rewrite !ls_length_cons2 in E.
    pose proof (euclid_nonneg (0, 0) (/ 2 ^ 700, 0)) as H1.
    assert (H2 : euclid (/ 2 ^ 700, 0) (10, 0) = 10 - / 2 ^ 700).
    { unfold euclid, px, py. cbn [fst snd].
      replace ((/ 2 ^ 700 - 10) * (/ 2 ^ 700 - 10) + (0 - 0) * (0 - 0))
        with ((10 - / 2 ^ 700) * (10 - / 2 ^ 700)) by ring.
      apply sqrt_square. lra. }
    rewrite H2 in E. cbn [ls_length] in E. lra. }
  destruct (is_zero _) eqn:Hz; [apply is_zero_spec in Hz; contradiction|].
  assert (Hrange : Forall squares_in_range
                     (segments [(0, 0); (/ 2 ^ 700, 0); (10, 0)])).
  { cbn [segments]. constructor; [| constructor; [| constructor]];
      unfold squares_in_range, square_in_range, px, py, Py.FLOAT_MAX;
      cbn [fst snd]; split; lra. }
  rewrite (segment_lengths_in_range _ Hrange). cbn [bind].
  rewrite sum_seg_lengths.
  destruct (is_zero _) eqn:Hz'; [apply is_zero_spec in Hz'; contradiction|].
  rewrite div_normal by exact HL. cbn [bind].
  rewrite combine_map_self. cbn [segments map].
  rewrite direction_scan_underflow; [reflexivity | | | |].
  - unfold euclid_of. cbn [fst snd].
    pose proof (euclid_nonneg (0, 0) (/ 2 ^ 700, 0)). lra.
  - unfold px. cbn [fst snd]. lra.
  - unfold px, Py.FLOAT_TINY. cbn [fst snd]. lra.
  - unfold py, Py.FLOAT_TINY. cbn [fst snd]. lra.
Qed.




(** ** Sorting by a key *)

Section SortingByKey.

Context {A : Type}.
Variable key : A -> R.

Lemma insert_asc_perm (x : A) (l : list A) :
  Permutation (Py.insert_asc key x l) (x :: l).
Proof.
  induction l as [|y l IH]; simpl; [reflexivity|].
  destruct (Rlt_dec (key x) (key y)); [reflexivity|].
  rewrite IH. apply perm_swap.
Qed.


Lemma insert_asc_sorted (x : A) (l : list A) :
  ascending key l -> ascending key (Py.insert_asc key x l).
Proof.
  unfold ascending. induction 1 as [|y l Hs IH Hy]; simpl.
  - repeat constructor.
  - destruct (Rlt_dec (key x) (key y)) as [Hlt | Hge].
    + constructor; [now constructor|].
      constructor; [lra|].
      eapply Forall_impl; [| exact Hy]. simpl. intros. lra.
    + constructor; [exact IH|].
      rewrite (insert_asc_perm x l). constructor; [lra | exact Hy].
Qed.


(** Inserting into a sorted list puts the element after those of the same
    key. *)
Lemma insert_asc_stable (k : R) (x : A) (l : list A) :
  ascending key l ->
  with_key key k (Py.insert_asc key x l) = with_key key k (l ++ [x]).
Proof.
  unfold ascending, with_key. induction 1 as [|y l Hs IH Hy]; simpl.
  - reflexivity.
  - destruct (Rlt_dec (key x) (key y)) as [Hlt | Hge].
    + cbn [filter].
      destruct (Req_dec_T (key x) k) as [Hx | Hx].
      * assert (Hrest : filter (fun a => if Req_dec_T (key a) k then true else false)
                               (y :: l) = []).
        { apply filter_all_false_in. intros z [<- | Hz].
          - destruct (Req_dec_T (key y) k); [lra | reflexivity].
          - rewrite Forall_forall in Hy. specialize (Hy z Hz).
            destruct (Req_dec_T (key z) k); [lra | reflexivity]. }
        cbn [filter] in Hrest. rewrite Hrest.
        rewrite filter_app. cbn [filter].
        destruct (Req_dec_T (key y) k); [lra|].
        assert (Hl : filter (fun a => if Req_dec_T (key a) k then true else false) l = []).
        { destruct (Req_dec_T (key y) k); [lra | exact Hrest]. }
        rewrite Hl. destruct (Req_dec_T (key x) k); [reflexivity | contradiction].
      * rewrite filter_app. cbn [filter].
        destruct (Req_dec_T (key x) k); [contradiction|].
        now rewrite app_nil_r.
    + cbn [filter]. rewrite IH. destruct (Req_dec_T (key y) k); reflexivity.
Qed.

Lemma sorted_fold_asc (xs acc : list A) :
  ascending key acc ->
  ascending key (fold_left (fun acc x => Py.insert_asc key x acc) xs acc) /\
  Permutation (fold_left (fun acc x => Py.insert_asc key x acc) xs acc)
              (acc ++ xs) /\
  forall k,
    with_key key k (fold_left (fun acc x => Py.insert_asc key x acc) xs acc)
    = with_key key k (acc ++ xs).
Proof.
  revert acc; induction xs as [|x xs IH]; intros acc Hacc; simpl.
  - rewrite app_nil_r. repeat split; [exact Hacc | reflexivity].
  - destruct (IH (Py.insert_asc key x acc) (insert_asc_sorted x acc Hacc))
      as (Hs & Hp & Hk).
    split; [exact Hs|]. split.
    + rewrite Hp. etransitivity;
        [apply Permutation_app_tail, insert_asc_perm | apply Permutation_middle].
    + intros k. rewrite Hk. unfold with_key. rewrite !filter_app.
      fold (with_key key k (Py.insert_asc key x acc)).
      rewrite (insert_asc_stable k x acc Hacc). unfold with_key.
      rewrite filter_app. cbn [filter].
      destruct (Req_dec_T (key x) k); rewrite <- app_assoc; reflexivity.
Qed.


(** [sorted(xs, key=key)] is ascending, a permutation of [xs], and keeps
    the elements of equal key in their order. *)
Lemma sorted_spec (xs : list A) :
  ascending key (Py.sorted xs key) /\
  Permutation (Py.sorted xs key) xs /\
  forall k, with_key key k (Py.sorted xs key) = with_key key k xs.
Proof.
  unfold Py.sorted. apply (sorted_fold_asc xs []). constructor.
Qed.


End SortingByKey.

(** ** Spatial queries *)

Section Queries.

Variable distance : Point -> Polyline -> R.
Variable project : Polyline -> Point -> R.
Variable nearest_point : Point -> Polyline -> Point.
Variable point : Point.

Let info := lane_info distance project nearest_point point.

Lemma nearby_fold (max_distance : R) (lanes : list Lane) (init : list LaneInfo) :
  fold_left
    (fun nearby lane =>
       let d := distance point (coords lane) in
       if Rle_dec d max_distance then
         nearby ++ [ {| li_lane := lane;
                        li_distance := d;
                        li_closest_point := nearest_point point (coords lane);
                        li_progress := project (coords lane) point |} ]
       else nearby)
    lanes init
  = init ++ map info (filter (within distance point max_distance) lanes).
Proof.
  revert init; induction lanes as [|lane lanes IH]; intros init; simpl.
  - now rewrite app_nil_r.
  - rewrite IH. unfold within at 2.
    destruct (Rle_dec _ max_distance); simpl; [| reflexivity].
    now rewrite <- app_assoc.
Qed.

Lemma lanes_within_distance_eq (lanes : list Lane) (max_distance : R) :
  get_lanes_within_distance distance project nearest_point lanes point
                            max_distance
  = Py.sorted (map info (filter (within distance point max_distance) lanes))
              li_distance.
Proof.
  unfold get_lanes_within_distance. now rewrite nearby_fold.
Qed.

Lemma closest_step_keeps (seen : list Lane)
    (st : Dist * option (Lane * Point * R)) (lane : Lane) :
  closest_so_far distance project nearest_point point seen st ->
  closest_so_far distance project nearest_point point (seen ++ [lane])
                 (closest_step distance project nearest_point point st lane).
Proof.
  intros [[-> ->] | (pre & best & post & -> & -> & Hpre & Hpost)];
    unfold closest_step; cbn [fst Dist_ltb].
  - right. exists [], lane, []. repeat split; intros l [].
  - destruct (Rlt_dec (distance point (coords lane))
                      (distance point (coords best))) as [Hlt | Hge].
    + right. exists (pre ++ best :: post), lane, [].
      repeat split; [| intros l []].
      intros l Hl. apply in_app_iff in Hl.
      destruct Hl as [Hl | [<- | Hl]].
      * specialize (Hpre l Hl). lra.
      * exact Hlt.
      * specialize (Hpost l Hl). lra.
    + right. exists pre, best, (post ++ [lane]).
      repeat split.
      * now rewrite <- app_assoc.
      * exact Hpre.
      * intros l Hl. apply in_app_iff in Hl.
        destruct Hl as [Hl | [<- | []]]; [now apply Hpost | lra].
Qed.

Lemma closest_fold (rest seen : list Lane)
    (st : Dist * option (Lane * Point * R)) :
  closest_so_far distance project nearest_point point seen st ->
  closest_so_far distance project nearest_point point (seen ++ rest)
    (fold_left (closest_step distance project nearest_point point) rest st).
Proof.
  revert seen st; induction rest as [|lane rest IH]; intros seen st H; simpl.
  - now rewrite app_nil_r.
  - replace (seen ++ lane :: rest) with ((seen ++ [lane]) ++ rest)
      by now rewrite <- app_assoc.
    apply IH. now apply closest_step_keeps.
Qed.

End Queries.

(** X16. The lanes reported within a radius are exactly the lanes whose
    distance to the point is at most the radius, each with its distance,
    closest point and progress; they come in ascending order of distance,
    and lanes at the same distance keep the order of the index. *)
Theorem lanes_within_distance_sorted
    (distance : Point -> Polyline -> R) (project : Polyline -> Point -> R)
    (nearest_point : Point -> Polyline -> Point)
    (lanes : list Lane) (point : Point) (max_distance : R) :
  let found :=
    get_lanes_within_distance distance project nearest_point lanes point
                              max_distance in
  let candidates :=
    map (lane_info distance project nearest_point point)
        (filter (within distance point max_distance) lanes) in
  ascending li_distance found /\
  Permutation found candidates /\
  (forall k, with_key li_distance k found = with_key li_distance k candidates) /\
  Forall (fun i => li_distance i <= max_distance) found /\
  (length found <= length lanes)%nat.
Proof.
  intros found candidates. subst found. rewrite lanes_within_distance_eq.
  fold candidates.
  destruct (sorted_spec li_distance candidates) as (Hs & Hp & Hk).
  split; [exact Hs|]. split; [exact Hp|]. split; [exact Hk|]. split.
  - apply Forall_forall. intros i Hi.
    apply (Permutation_in _ Hp) in Hi. subst candidates.
    apply in_map_iff in Hi. destruct Hi as [lane [<- Hlane]].
    apply filter_In in Hlane. destruct Hlane as [_ Hw]. unfold within in Hw.
    simpl. destruct (Rle_dec _ max_distance); [assumption | discriminate].
  - rewrite (Permutation_length Hp). subst candidates. rewrite length_map.
    apply filter_length_le.
Qed.

(** X17. The closest lane: none exactly when there is no lane; otherwise the
    first, in the order of the index, of the lanes at the least distance,
    with its closest point and its progress. *)
Theorem find_closest_lane_nearest
    (distance : Point -> Polyline -> R) (project : Polyline -> Point -> R)
    (nearest_point : Point -> Polyline -> Point)
    (lanes : list Lane) (point : Point) :
  (find_closest_lane distance project nearest_point lanes point = None
   <-> lanes = []) /\
  (lanes <> [] ->
   exists pre lane post,
     lanes = pre ++ lane :: post /\
     find_closest_lane distance project nearest_point lanes point
     = Some (lane, nearest_point point (coords lane),
             project (coords lane) point) /\
     (forall l, In l pre ->
                distance point (coords lane) < distance point (coords l)) /\
     (forall l, In l post ->
                distance point (coords lane) <= distance point (coords l))).
Proof.
  pose proof (closest_fold distance project nearest_point point lanes []
                (Inf, None) (or_introl (conj eq_refl eq_refl))) as H.
  simpl in H.
  assert (Hsome : lanes <> [] ->
     exists pre lane post,
       lanes = pre ++ lane :: post /\
       find_closest_lane distance project nearest_point lanes point
       = Some (lane, nearest_point point (coords lane),
               project (coords lane) point) /\
       (forall l, In l pre ->
                  distance point (coords lane) < distance point (coords l)) /\
       (forall l, In l post ->
                  distance point (coords lane) <= distance point (coords l))).
  { intros Hne.
    destruct H as [[-> _] | (pre & lane & post & Hl & Hst & Hpre & Hpost)];
      [congruence|].
    exists pre, lane, post. repeat split; try assumption.
    unfold find_closest_lane. destruct lanes; [congruence|]. now rewrite Hst. }
  split; [| exact Hsome]. split.
  - intros Hnone. destruct lanes as [|l rest]; [reflexivity|].
    destruct Hsome as (pre & lane & post & _ & E & _); [discriminate|].
    congruence.
  - now intros ->.
Qed.

Lemma find_closest_lane_nearest_witness :
  exists pre lane post,
    [straight_lane] = pre ++ lane :: post /\
    find_closest_lane (fun _ _ => 0) (fun _ _ => 0) (fun p _ => p)
                      [straight_lane] (0, 0)
    = Some (lane, (0, 0), 0) /\
    (forall l, In l pre -> 0 < 0) /\
    (forall l, In l post -> 0 <= 0).
Proof.
  apply (find_closest_lane_nearest (fun _ _ => 0) (fun _ _ => 0) (fun p _ => p)
           [straight_lane] (0, 0)).
  discriminate.
Defined.

(** * Further properties of the predictor *)

(** ** Velocity, direction and alignment *)






Lemma dot_unit_ge_m1 (d e : Point) :
  is_unit d -> is_unit e -> -1 <= px d * px e + py d * py e.
Proof.
  unfold is_unit. intros Hd He.
  pose proof (Rle_0_sqr (px d + px e)) as H1.
  pose proof (Rle_0_sqr (py d + py e)) as H2.
  unfold Rsqr in *. lra.
Qed.

Lemma alignment_bounds (md ld : Point) :
  is_unit md -> is_unit ld -> 0 <= _calculate_alignment md ld <= 1.
Proof.
  intros Hm Hl. unfold _calculate_alignment.
  pose proof (dot_unit_le_1 md ld Hm Hl).
  pose proof (dot_unit_ge_m1 md ld Hm Hl).
  split; [apply Rabs_pos | apply Rabs_le; lra].
Qed.

(** X20. The alignment does not depend on the orientation of the lane: it
    is the same for a lane direction and its opposite, and symmetric in its
    arguments; for unit vectors it lies in [[0, 1]], is [1] for a lane along
    the movement and [0] for a lane across it. *)
Theorem alignment_unsigned (md ld : Point) :
  _calculate_alignment md (- px ld, - py ld) = _calculate_alignment md ld /\
  _calculate_alignment ld md = _calculate_alignment md ld /\
  (is_unit md -> is_unit ld -> 0 <= _calculate_alignment md ld <= 1) /\
  (is_unit md -> _calculate_alignment md md = 1) /\
  _calculate_alignment md (- py md, px md) = 0.
Proof.
  unfold _calculate_alignment. repeat split.
  - unfold px, py. cbn [fst snd].
    replace (fst md * - fst ld + snd md * - snd ld)
      with (- (fst md * fst ld + snd md * snd ld)) by ring.
    apply Rabs_Ropp.
  - f_equal. ring.
  - pose proof (alignment_bounds md ld H H0) as Hb.
    unfold _calculate_alignment in Hb. lra.
  - pose proof (alignment_bounds md ld H H0) as Hb.
    unfold _calculate_alignment in Hb. lra.
  - intros Hu. unfold is_unit in Hu. rewrite Hu. apply Rabs_pos_eq. lra.
  - unfold px, py. cbn [fst snd].
    replace (fst md * - snd md + snd md * fst md) with 0 by ring. apply Rabs_R0.
Qed.

Lemma alignment_unsigned_witness : _calculate_alignment (1, 0) (1, 0) = 1.
Proof.
  apply (alignment_unsigned (1, 0) (1, 0)).
  unfold is_unit, px, py. simpl. ring.
Defined.

(** ** The predictions returned *)






Section Predictions.

Variable distance : Point -> Polyline -> R.
Variable project : Polyline -> Point -> R.
Variable nearest_point : Point -> Polyline -> Point.
Variable lanes : list Lane.




End Predictions.




(** * Further properties of the temporal smoothing *)

Lemma smooth_predictions_first (prediction_smoothing : Store) (track_id : Z)
    (new_predictions : list Prediction) :
  push_buffer prediction_smoothing track_id new_predictions = [new_predictions] ->
  smooth_predictions prediction_smoothing track_id new_predictions
  = Normal (store_set prediction_smoothing track_id [new_predictions],
            new_predictions).
Proof. intros H. unfold smooth_predictions. now rewrite H. Qed.

Lemma store_set_same (st : Store) (k : Z) (b : list (list Prediction)) :
  store_set st k b k = Some b.
Proof. unfold store_set. now rewrite Z.eqb_refl. Qed.

Lemma store_set_other (st : Store) (k k' : Z) (b : list (list Prediction)) :
  k' <> k -> store_set st k b k' = st k'.
Proof.
  intros H. unfold store_set. destruct (Z.eqb_spec k' k); [contradiction|].
  reflexivity.
Qed.

Lemma combine_self {A} (l : list A) : combine l l = map (fun x => (x, x)) l.
Proof. induction l; simpl; [reflexivity | now rewrite IHl]. Qed.

Lemma smoothed_entry_self (n : Prediction) :
  smoothed_entry n n = with_probability n (probability n * 0.95).
Proof.
  unfold smoothed_entry. rewrite Z.eqb_refl. apply with_probability_ext. field.
Qed.

(** X22. The first list ever given for a vehicle passes through unchanged;
    the same list given again comes back with every probability multiplied
    by exactly [0.95], and nothing else changed. *)
Theorem smooth_same_list_twice (prediction_smoothing : Store) (track_id : Z)
    (predictions : list Prediction) :
  prediction_smoothing track_id = None ->
  exists store1,
    smooth_predictions prediction_smoothing track_id predictions
    = Normal (store1, predictions) /\
    smooth_predictions store1 track_id predictions
    = Normal (store_set store1 track_id [predictions; predictions],
              map (fun n => with_probability n (probability n * 0.95))
                  predictions).
Proof.
  intros Hnew.
  exists (store_set prediction_smoothing track_id [predictions]). split.
  - apply smooth_predictions_first. unfold push_buffer. now rewrite Hnew.
  - rewrite (smooth_predictions_two _ track_id predictions predictions).
    + rewrite combine_self, map_map. cbn [fst snd].
      do 2 f_equal. apply map_ext. intros n. apply smoothed_entry_self.
    + unfold push_buffer. now rewrite store_set_same.
Qed.

Lemma smooth_same_list_twice_witness :
  exists store1,
    smooth_predictions (fun _ => None) 7 newer_list
    = Normal (store1, newer_list) /\
    smooth_predictions store1 7 newer_list
    = Normal (store_set store1 7 [newer_list; newer_list],
              map (fun n => with_probability n (probability n * 0.95))
                  newer_list).
Proof. apply (smooth_same_list_twice (fun _ => None) 7 newer_list). reflexivity. Defined.

Lemma with_probability_same (n : Prediction) :
  with_probability n (probability n) = n.
Proof. now destruct n. Qed.

Lemma reweighted_self (n : Prediction) : reweighted n n.
Proof. unfold reweighted. now rewrite with_probability_same. Qed.

Lemma reweighted_entry (o n : Prediction) : reweighted n (smoothed_entry o n).
Proof. reflexivity. Qed.

Lemma nth_error_combine_r {A B} (l : list A) (l' : list B) (i : nat)
    (a : A) (b : B) :
  nth_error (combine l l') i = Some (a, b) -> nth_error l' i = Some b.
Proof.
  revert l' i; induction l as [|x l IH]; intros l' i H.
  - destruct i; discriminate.
  - destruct l' as [|y l']; [destruct i; discriminate|].
    destruct i as [|i]; simpl in *.
    + now inversion H.
    + now apply IH.
Qed.

Lemma buffers_bounded_set (st : Store) (k : Z) (b : list (list Prediction)) :
  buffers_bounded st -> (length b <= 2)%nat ->
  buffers_bounded (store_set st k b).
Proof.
  intros Hst Hb k' b' H. unfold store_set in H.
  destruct (k' =? k)%Z; [inversion H; now subst | now apply (Hst k')].
Qed.

(** The smoothing against one other buffered list. *)
Lemma smooth_against_other (st : Store) (track_id : Z)
    (other new_predictions : list Prediction) :
  buffers_bounded st ->
  push_buffer st track_id new_predictions = [other; new_predictions] ->
  exists st' out,
    smooth_predictions st track_id new_predictions = Normal (st', out) /\
    buffers_bounded st' /\
    (forall k, k <> track_id -> st' k = st k) /\
    (exists kept, st' track_id = Some (kept ++ [new_predictions]) /\
                  (length kept <= 1)%nat) /\
    (length out <= length new_predictions)%nat /\
    (forall i e, nth_error out i = Some e ->
       exists n, nth_error new_predictions i = Some n /\ reweighted n e).
Proof.
  intros Hst Hpush.
  rewrite (smooth_predictions_two st track_id other new_predictions Hpush).
  do 2 eexists. split; [reflexivity|]. split; [| split; [| split; [| split]]].
  - apply buffers_bounded_set; [exact Hst | simpl; lia].
  - intros k Hk. now apply store_set_other.
  - exists [other]. split; [apply store_set_same | simpl; lia].
  - rewrite length_map, length_combine. lia.
  - intros i e He. rewrite nth_error_map in He.
    destruct (nth_error (combine other new_predictions) i) as [[o n]|] eqn:E;
      [| discriminate].
    simpl in He. inversion He; subst e.
    exists n. split; [now apply nth_error_combine_r in E | apply reweighted_entry].
Qed.

(** X23. As long as no buffer holds more than two lists, the smoothing never
    raises and keeps it so: it touches the buffer of its own vehicle only,
    which then ends with the new list after at most one older list; and the
    smoothed list has no more entries than the new list, each being the new
    list's entry of the same rank up to its probability. *)
Theorem smooth_predictions_bounded (st : Store) (track_id : Z)
    (new_predictions : list Prediction) :
  buffers_bounded st ->
  exists st' out,
    smooth_predictions st track_id new_predictions = Normal (st', out) /\
    buffers_bounded st' /\
    (forall k, k <> track_id -> st' k = st k) /\
    (exists kept, st' track_id = Some (kept ++ [new_predictions]) /\
                  (length kept <= 1)%nat) /\
    (length out <= length new_predictions)%nat /\
    (forall i e, nth_error out i = Some e ->
       exists n, nth_error new_predictions i = Some n /\ reweighted n e).
Proof.
  intros Hst.
  assert (Hfirst :
    push_buffer st track_id new_predictions = [new_predictions] ->
    exists st' out,
      smooth_predictions st track_id new_predictions = Normal (st', out) /\
      buffers_bounded st' /\
      (forall k, k <> track_id -> st' k = st k) /\
      (exists kept, st' track_id = Some (kept ++ [new_predictions]) /\
                    (length kept <= 1)%nat) /\
      (length out <= length new_predictions)%nat /\
      (forall i e, nth_error out i = Some e ->
         exists n, nth_error new_predictions i = Some n /\ reweighted n e)).
  { intros Hpush. rewrite (smooth_predictions_first _ _ _ Hpush).
    do 2 eexists. split; [reflexivity|]. split; [| split; [| split; [| split]]].
    - apply buffers_bounded_set; [exact Hst | simpl; lia].
    - intros k Hk. now apply store_set_other.
    - exists []. split; [apply store_set_same | simpl; lia].
    - lia.
    - intros i e He. exists e. split; [exact He | apply reweighted_self]. }
  destruct (st track_id) as [[|a [|b [|c rest]]]|] eqn:E.
  - apply Hfirst. unfold push_buffer. now rewrite E.
  - apply (smooth_against_other st track_id a); [exact Hst|].
    unfold push_buffer. now rewrite E.
  - apply (smooth_against_other st track_id b); [exact Hst|].
    unfold push_buffer. now rewrite E.
  - apply Hst in E. simpl in E. lia.
  - apply Hfirst. unfold push_buffer. now rewrite E.
Qed.

Lemma smooth_predictions_bounded_witness :
  exists st' out,
    smooth_predictions one_buffered 7 newer_list = Normal (st', out) /\
    buffers_bounded st' /\
    (forall k, k <> 7%Z -> st' k = one_buffered k) /\
    (exists kept, st' 7%Z = Some (kept ++ [newer_list]) /\
                  (length kept <= 1)%nat) /\
    (length out <= length newer_list)%nat /\
    (forall i e, nth_error out i = Some e ->
       exists n, nth_error newer_list i = Some n /\ reweighted n e).
Proof.
  apply (smooth_predictions_bounded one_buffered 7 newer_list).
  intros k b H. unfold one_buffered, store_set in H.
  destruct (k =? 7)%Z; [| discriminate]. inversion H. simpl. lia.
Defined.

(** * Properties of the tracker's bookkeeping *)

(** ** Dictionaries *)

Lemma get_set_same {V} (d : Dict.t V) (k : Z) (v : V) :
  Dict.get (Dict.set d k v) k = Some v.
Proof.
  induction d as [|[k' v'] rest IH]; simpl.
  - now rewrite Z.eqb_refl.
  - destruct (Z.eqb_spec k' k) as [-> | Hne]; simpl.
    + now rewrite Z.eqb_refl.
    + destruct (Z.eqb_spec k' k); [contradiction | exact IH].
Qed.

Lemma get_set_other {V} (d : Dict.t V) (k k' : Z) (v : V) :
  k' <> k -> Dict.get (Dict.set d k v) k' = Dict.get d k'.
Proof.
  intros Hne. induction d as [|[j w] rest IH]; simpl.
  - destruct (Z.eqb_spec k k'); [congruence | reflexivity].
  - destruct (Z.eqb_spec j k) as [-> | Hj]; simpl.
    + destruct (Z.eqb_spec k k'); [congruence | reflexivity].
    + now rewrite IH.
Qed.

Lemma get_del_same {V} (d : Dict.t V) (k : Z) :
  Dict.get (Dict.del d k) k = None.
Proof.
  unfold Dict.del. induction d as [|[j w] rest IH]; simpl; [reflexivity|].
  destruct (Z.eqb_spec j k) as [-> | Hj]; simpl; [exact IH|].
  destruct (Z.eqb_spec j k); [contradiction | exact IH].
Qed.

Lemma get_del_other {V} (d : Dict.t V) (k k' : Z) :
  k' <> k -> Dict.get (Dict.del d k) k' = Dict.get d k'.
Proof.
  intros Hne. unfold Dict.del. induction d as [|[j w] rest IH]; simpl;
    [reflexivity|].
  destruct (Z.eqb_spec j k) as [-> | Hj]; simpl.
  - destruct (Z.eqb_spec k k'); [congruence | exact IH].
  - now rewrite IH.
Qed.

Lemma get_keys {V} (d : Dict.t V) (k : Z) :
  In k (Dict.keys d) <-> Dict.get d k <> None.
Proof.
  unfold Dict.keys. induction d as [|[j w] rest IH]; simpl.
  - split; [contradiction | congruence].
  - destruct (Z.eqb_spec j k) as [-> | Hj].
    + split; [discriminate | now left].
    + rewrite <- IH. split; [intros [H | H]; [contradiction | exact H] | now right].
Qed.

Lemma set_keys_NoDup {V} (d : Dict.t V) (k : Z) (v : V) :
  NoDup (Dict.keys d) -> NoDup (Dict.keys (Dict.set d k v)).
Proof.
  unfold Dict.keys. induction d as [|[j w] rest IH]; simpl; intros Hnd.
  - constructor; [intros [] | constructor].
  - inversion Hnd as [|? ? Hnotin Hrest]; subst.
    destruct (Z.eqb_spec j k) as [-> | Hj]; simpl.
    + now constructor.
    + constructor; [| now apply IH].
      intros Hin. apply (get_keys (Dict.set rest k v) j) in Hin.
      rewrite get_set_other in Hin by exact Hj.
      apply Hnotin. now apply (get_keys rest j).
Qed.

Lemma del_keys_NoDup {V} (d : Dict.t V) (k : Z) :
  NoDup (Dict.keys d) -> NoDup (Dict.keys (Dict.del d k)).
Proof.
  unfold Dict.keys, Dict.del. induction d as [|[j w] rest IH]; simpl; intros Hnd.
  - constructor.
  - inversion Hnd as [|? ? Hnotin Hrest]; subst.
    destruct (Z.eqb_spec j k); simpl; [now apply IH|].
    constructor; [| now apply IH].
    intros Hin. apply Hnotin. apply in_map_iff in Hin.
    destruct Hin as [[j' w'] [Hj' Hin]]. simpl in Hj'. subst j'.
    apply filter_In in Hin. destruct Hin as [Hin _].
    apply in_map_iff. now exists (j, w').
Qed.

(** ** Ageing the tracks that were not seen *)

Lemma in_ids_spec (ids : list Z) (k : Z) :
  existsb (Z.eqb k) ids = true <-> In k ids.
Proof.
  rewrite existsb_exists. split.
  - intros [x [Hx He]]. apply Z.eqb_eq in He. now subst.
  - intros H. exists k. split; [exact H | apply Z.eqb_refl].
Qed.

Lemma expire_track_other (ids : list Z) (tr : Tracker) (j k : Z) :
  k <> j -> track_view (expire_track ids tr j) k = track_view tr k.
Proof.
  intros Hne. unfold expire_track.
  destruct (existsb (Z.eqb j) ids); [reflexivity|].
  destruct (MISS_THRESHOLD <? _)%Z; unfold track_view; cbn.
  - rewrite !get_del_other, get_set_other by exact Hne.
    unfold store_del. destruct (Z.eqb_spec k j); [contradiction | reflexivity].
  - now rewrite get_set_other by exact Hne.
Qed.

Lemma expire_track_same (ids : list Z) (tr : Tracker) (k : Z) :
  track_view (expire_track ids tr k) k
  = if existsb (Z.eqb k) ids then track_view tr k
    else if (MISS_THRESHOLD <? next_missed tr k)%Z then (None, None, None, None)
    else (Dict.get (tracking_history tr) k, Some (next_missed tr k),
          Dict.get (lane_predictions tr) k, prediction_smoothing tr k).
Proof.
  unfold expire_track. fold (next_missed tr k).
  destruct (existsb (Z.eqb k) ids); [reflexivity|].
  destruct (MISS_THRESHOLD <? next_missed tr k)%Z; unfold track_view; cbn.
  - rewrite !get_del_same. unfold store_del. now rewrite Z.eqb_refl.
  - now rewrite get_set_same.
Qed.

Lemma expire_track_frame (ids : list Z) (tr : Tracker) (k : Z) :
  frame_index (expire_track ids tr k) = frame_index tr.
Proof.
  unfold expire_track. destruct (existsb _ ids); [reflexivity|].
  now destruct (MISS_THRESHOLD <? _)%Z.
Qed.

Lemma expire_fold_other (ids ks : list Z) (tr : Tracker) (k : Z) :
  ~ In k ks ->
  track_view (fold_left (expire_track ids) ks tr) k = track_view tr k.
Proof.
  revert tr; induction ks as [|j ks IH]; intros tr Hk; simpl; [reflexivity|].
  rewrite IH by (intros H; apply Hk; now right).
  apply expire_track_other. intros ->. apply Hk. now left.
Qed.

Lemma expire_fold_same (ids ks : list Z) (tr : Tracker) (k : Z) :
  NoDup ks -> In k ks ->
  track_view (fold_left (expire_track ids) ks tr) k
  = track_view (expire_track ids tr k) k.
Proof.
  revert tr; induction ks as [|j ks IH]; intros tr Hnd Hk; [contradiction|].
  inversion Hnd as [|? ? Hj Hnd']; subst. simpl.
  destruct Hk as [-> | Hk].
  - now apply expire_fold_other.
  - rewrite IH by assumption.
    assert (Hne : k <> j) by (intros ->; contradiction).
    rewrite !expire_track_same.
    unfold next_missed.
    pose proof (expire_track_other ids tr j k Hne) as Hview.
    unfold track_view in Hview. inversion Hview as [[H1 H2 H3 H4]].
    rewrite H2. unfold track_view. now rewrite H1, H2, H3, H4.
Qed.

Lemma expire_fold_frame (ids ks : list Z) (tr : Tracker) :
  frame_index (fold_left (expire_track ids) ks tr) = frame_index tr.
Proof.
  revert tr; induction ks as [|j ks IH]; intros tr; simpl; [reflexivity|].
  now rewrite IH, expire_track_frame.
Qed.

(** ** Recording the boxes of a frame *)

Lemma deque_append_length {A} (maxlen : Z) (h : list A) (x : A) :
  (0 <= maxlen)%Z ->
  (Z.of_nat (length (deque_append maxlen h x)) <= maxlen)%Z /\
  ((0 < maxlen)%Z -> deque_append maxlen h x <> []).
Proof.
  intros Hm. unfold deque_append. rewrite length_skipn, length_app. simpl.
  split; [lia|].
  intros Hpos Hnil. apply (f_equal (@length A)) in Hnil.
  rewrite length_skipn, length_app in Hnil. simpl in Hnil. lia.
Qed.

Lemma record_box_keeps (history_length : Z) (tr0 : Tracker) (ids : list Z)
    (st : Tracker * list Z) (ib : nat * (option Z * Point)) :
  (0 <= history_length)%Z ->
  recorded history_length tr0 ids st ->
  exists st',
    record_box history_length st ib = Normal st' /\
    recorded history_length tr0 (ids ++ [box_track_id ib]) st'.
Proof.
  intros Hhl. destruct st as [tr1 cur].
  intros (Hlp & Hps & Hfi & Hnd & Hcur & Hout & Hin).
  destruct ib as [idx [box_id center]]. unfold record_box.
  set (k := match box_id with None => Z.of_nat idx | Some i => i end).
  assert (Hk : box_track_id (idx, (box_id, center)) = k) by reflexivity.
  rewrite Hk.
  assert (Hh : exists history,
             match Dict.get (tracking_history tr1) k with
             | Some h => Normal h
             | None => if (history_length <? 0)%Z then Raised else Normal []
             end = Normal history).
  { destruct (Dict.get (tracking_history tr1) k) as [h|]; [now exists h|].
    destruct (Z.ltb_spec history_length 0); [lia | now exists []]. }
  destruct Hh as [history Hh]. rewrite Hh. cbn [bind].
  eexists. split; [reflexivity|].
  destruct (deque_append_length history_length history center Hhl)
    as [Hlen Hne].
  unfold recorded.
  cbn [lane_predictions prediction_smoothing frame_index tracking_history
       missed_frames].
  split; [exact Hlp|]. split; [exact Hps|]. split; [exact Hfi|].
  split; [now apply set_keys_NoDup|].
  split; [| split].
  - intros j. rewrite in_app_iff. simpl. rewrite Hcur. intuition.
  - intros j Hj.
    assert (Hj1 : ~ In j ids) by (intros H; apply Hj, in_app_iff; now left).
    assert (Hj2 : j <> k)
      by (intros ->; apply Hj, in_app_iff; right; now left).
    rewrite !get_set_other by exact Hj2. now apply Hout.
  - intros j Hj. destruct (Z.eq_dec j k) as [-> | Hne0].
    + rewrite !get_set_same. split; [reflexivity|].
      exists (deque_append history_length history center). now repeat split.
    + rewrite !get_set_other by exact Hne0. apply Hin.
      apply in_app_iff in Hj. destruct Hj as [Hj | [<- | []]];
        [exact Hj | contradiction].
Qed.

Lemma record_boxes_keep (history_length : Z) (tr0 : Tracker)
    (boxes : list (nat * (option Z * Point))) :
  (0 <= history_length)%Z ->
  forall (ids : list Z) (st : Tracker * list Z),
    recorded history_length tr0 ids st ->
    exists st',
      for_each boxes (record_box history_length) st = Normal st' /\
      recorded history_length tr0 (ids ++ map box_track_id boxes) st'.
Proof.
  intros Hhl. induction boxes as [|ib boxes IH]; intros ids st Hst; simpl.
  - exists st. now rewrite app_nil_r.
  - destruct (record_box_keeps history_length tr0 ids st ib Hhl Hst)
      as [st1 [E1 H1]].
    rewrite E1. cbn [bind].
    destruct (IH _ _ H1) as [st2 [E2 H2]].
    exists st2. split; [exact E2|]. now rewrite <- app_assoc in H2.
Qed.

Lemma expire_track_nodup (ids : list Z) (tr : Tracker) (k : Z) :
  (NoDup (Dict.keys (tracking_history tr)) ->
   NoDup (Dict.keys (tracking_history (expire_track ids tr k)))) /\
  (NoDup (Dict.keys (lane_predictions tr)) ->
   NoDup (Dict.keys (lane_predictions (expire_track ids tr k)))).
Proof.
  unfold expire_track. destruct (existsb _ ids); [now split|].
  destruct (MISS_THRESHOLD <? _)%Z; cbn; [| now split].
  split; apply del_keys_NoDup.
Qed.

Lemma expire_fold_nodup (ids ks : list Z) (tr : Tracker) :
  (NoDup (Dict.keys (tracking_history tr)) ->
   NoDup (Dict.keys (tracking_history (fold_left (expire_track ids) ks tr)))) /\
  (NoDup (Dict.keys (lane_predictions tr)) ->
   NoDup (Dict.keys (lane_predictions (fold_left (expire_track ids) ks tr)))).
Proof.
  revert tr; induction ks as [|j ks IH]; intros tr; simpl; [now split|].
  destruct (IH (expire_track ids tr j)) as [IH1 IH2].
  destruct (expire_track_nodup ids tr j) as [E1 E2].
  split; intros H; [apply IH1, E1, H | apply IH2, E2, H].
Qed.

(** The bookkeeping of a frame, track by track. *)
Lemma update_tracks_views (history_length : Z) (tr : Tracker)
    (boxes : list (option Z * Point)) :
  (0 <= history_length)%Z ->
  NoDup (Dict.keys (tracking_history tr)) ->
  exists tr',
    update_tracks history_length tr boxes = Normal tr' /\
    frame_index tr' = (frame_index tr + 1)%Z /\
    (forall k, In k (seen_ids boxes) ->
       Dict.get (missed_frames tr') k = Some 0%Z /\
       (exists h, Dict.get (tracking_history tr') k = Some h /\
                  (Z.of_nat (length h) <= history_length)%Z /\
                  (0 < history_length -> h <> [])%Z) /\
       Dict.get (lane_predictions tr') k = Dict.get (lane_predictions tr) k /\
       prediction_smoothing tr' k = prediction_smoothing tr k) /\
    (forall k, ~ In k (seen_ids boxes) ->
       track_view tr' k
       = match Dict.get (tracking_history tr) k with
         | None => track_view tr k
         | Some h =>
             if (MISS_THRESHOLD <? next_missed tr k)%Z
             then (None, None, None, None)
             else (Some h, Some (next_missed tr k),
                   Dict.get (lane_predictions tr) k, prediction_smoothing tr k)
         end) /\
    NoDup (Dict.keys (tracking_history tr')) /\
    (NoDup (Dict.keys (lane_predictions tr)) ->
     NoDup (Dict.keys (lane_predictions tr'))).
Proof.
  intros Hhl Hnd. unfold update_tracks.
  set (tr0 := {| tracking_history := tracking_history tr;
                 missed_frames := missed_frames tr;
                 lane_predictions := lane_predictions tr;
                 prediction_smoothing := prediction_smoothing tr;
                 frame_index := (frame_index tr + 1)%Z |}).
  assert (H0 : recorded history_length tr0 [] (tr0, [])).
  { unfold recorded. repeat split; try reflexivity; try exact Hnd;
      try contradiction. }
  destruct (record_boxes_keep history_length tr0 (enumerate boxes 0) Hhl [] _ H0)
    as [[tr1 cur] [E1 H1]].
  rewrite E1. cbn [bind app] in *. fold (seen_ids boxes) in H1.
  destruct H1 as (Hlp & Hps & Hfi & Hnd1 & Hcur & Hout & Hin).
  change (lane_predictions tr0) with (lane_predictions tr) in Hlp.
  change (prediction_smoothing tr0) with (prediction_smoothing tr) in Hps.
  change (frame_index tr0) with (frame_index tr + 1)%Z in Hfi.
  change (tracking_history tr0) with (tracking_history tr) in Hout.
  change (missed_frames tr0) with (missed_frames tr) in Hout.
  eexists. split; [reflexivity|].
  split; [now rewrite expire_fold_frame, Hfi|].
  assert (Hview1 : forall k,
             track_view tr1 k
             = (Dict.get (tracking_history tr1) k, Dict.get (missed_frames tr1) k,
                Dict.get (lane_predictions tr) k, prediction_smoothing tr k)).
  { intros k. unfold track_view. now rewrite Hlp, Hps. }
  split; [| split; [| split]].
  - intros k Hk. destruct (Hin k Hk) as [Hm [h [Hh Hlen]]].
    assert (Hkey : In k (Dict.keys (tracking_history tr1)))
      by (apply get_keys; congruence).
    pose proof (expire_fold_same cur _ tr1 k Hnd1 Hkey) as Hv.
    rewrite expire_track_same in Hv.
    rewrite (proj2 (in_ids_spec cur k)) in Hv by now apply Hcur.
    rewrite Hview1 in Hv. unfold track_view in Hv.
    inversion Hv as [[V1 V2 V3 V4]].
    rewrite V1, V2, V3, V4. split; [exact Hm|]. split; [| now split].
    exists h. now split.
  - intros k Hk. destruct (Hout k Hk) as [Hh Hm].
    assert (Hnot : existsb (Z.eqb k) cur = false).
    { destruct (existsb (Z.eqb k) cur) eqn:E; [| reflexivity].
      apply in_ids_spec, Hcur in E. contradiction. }
    destruct (Dict.get (tracking_history tr) k) as [h|] eqn:Eh.
    + assert (Hkey : In k (Dict.keys (tracking_history tr1)))
        by (apply get_keys; congruence).
      rewrite (expire_fold_same cur _ tr1 k Hnd1 Hkey).
      rewrite expire_track_same, Hnot.
      unfold next_missed. rewrite Hm, Hh, Hlp, Hps. reflexivity.
    + assert (Hkey : ~ In k (Dict.keys (tracking_history tr1)))
        by (rewrite get_keys; congruence).
      rewrite (expire_fold_other cur _ tr1 k Hkey), Hview1.
      unfold track_view. now rewrite Hh, Hm, Eh.
  - now apply expire_fold_nodup.
  - intros Hlpnd. apply expire_fold_nodup. now rewrite Hlp.
Qed.

(** X24. The bookkeeping of a frame never raises (for a capacity that is
    not negative) and advances the frame counter by one.  A track seen in
    the frame has its miss counter at [0] and a history within the
    capacity, and its predictions are untouched.  A track not seen is aged
    by one and, past [MISS_THRESHOLD] misses, dropped from all four
    dictionaries at once; an identifier that is neither seen nor tracked is
    left as it is. *)
Theorem update_tracks_bookkeeping (history_length : Z) (tr : Tracker)
    (boxes : list (option Z * Point)) :
  (0 <= history_length)%Z ->
  NoDup (Dict.keys (tracking_history tr)) ->
  exists tr',
    update_tracks history_length tr boxes = Normal tr' /\
    frame_index tr' = (frame_index tr + 1)%Z /\
    (forall k, In k (seen_ids boxes) ->
       Dict.get (missed_frames tr') k = Some 0%Z /\
       (exists h, Dict.get (tracking_history tr') k = Some h /\
                  (Z.of_nat (length h) <= history_length)%Z /\
                  (0 < history_length -> h <> [])%Z) /\
       Dict.get (lane_predictions tr') k = Dict.get (lane_predictions tr) k /\
       prediction_smoothing tr' k = prediction_smoothing tr k) /\
    (forall k, ~ In k (seen_ids boxes) ->
       track_view tr' k
       = match Dict.get (tracking_history tr) k with
         | None => track_view tr k
         | Some h =>
             if (MISS_THRESHOLD <? next_missed tr k)%Z
             then (None, None, None, None)
             else (Some h, Some (next_missed tr k),
                   Dict.get (lane_predictions tr) k, prediction_smoothing tr k)
         end).
Proof.
  intros Hhl Hnd.
  destruct (update_tracks_views history_length tr boxes Hhl Hnd)
    as (tr' & E & Hf & Hseen & Hunseen & _).
  exists tr'. split; [exact E|]. split; [exact Hf|]. split; assumption.
Qed.

Lemma update_tracks_bookkeeping_witness :
  exists tr',
    update_tracks 205 new_tracker one_detection = Normal tr' /\
    frame_index tr' = 1%Z /\
    Dict.get (missed_frames tr') 7%Z = Some 0%Z /\
    track_view tr' 8%Z = (None, None, None, None).
Proof.
  destruct (update_tracks_bookkeeping 205 new_tracker one_detection)
    as (tr' & E & Hf & Hseen & Hunseen); [lia | constructor |].
  exists tr'. split; [exact E|]. split; [exact Hf|]. split.
  - apply Hseen. now left.
  - rewrite Hunseen; [reflexivity|].
    intros [H | []]. discriminate H.
Defined.

(** ** Evicting the stale predictions *)

Lemma evict_if_stale_frame (tr : Tracker) (item : Z * PredictionData) :
  tracking_history (evict_if_stale tr item) = tracking_history tr /\
  missed_frames (evict_if_stale tr item) = missed_frames tr /\
  frame_index (evict_if_stale tr item) = frame_index tr.
Proof.
  destruct item as [j d]. unfold evict_if_stale.
  now destruct (STALE_AFTER <? _)%Z.
Qed.

Lemma evict_fold (items : list (Z * PredictionData)) (tr : Tracker) :
  NoDup (Dict.keys items) ->
  tracking_history (fold_left evict_if_stale items tr) = tracking_history tr /\
  missed_frames (fold_left evict_if_stale items tr) = missed_frames tr /\
  frame_index (fold_left evict_if_stale items tr) = frame_index tr /\
  (NoDup (Dict.keys (lane_predictions tr)) ->
   NoDup (Dict.keys (lane_predictions (fold_left evict_if_stale items tr)))) /\
  forall k,
    (Dict.get (lane_predictions (fold_left evict_if_stale items tr)) k,
     prediction_smoothing (fold_left evict_if_stale items tr) k)
    = match Dict.get items k with
      | Some d =>
          if stale tr d then (None, None)
          else (Dict.get (lane_predictions tr) k, prediction_smoothing tr k)
      | None => (Dict.get (lane_predictions tr) k, prediction_smoothing tr k)
      end.
Proof.
  revert tr; induction items as [|[j d] rest IH]; intros tr Hnd.
  - simpl. repeat split; try reflexivity. intros H; exact H.
  - unfold Dict.keys in Hnd. simpl in Hnd.
    inversion Hnd as [|? ? Hj Hrest]; subst.
    cbn [fold_left].
    destruct (IH (evict_if_stale tr (j, d)) Hrest) as (I1 & I2 & I3 & I4 & I5).
    destruct (evict_if_stale_frame tr (j, d)) as (F1 & F2 & F3).
    rewrite I1, I2, I3, F1, F2, F3.
    split; [reflexivity|]. split; [reflexivity|]. split; [reflexivity|].
    split.
    + intros H. apply I4. unfold evict_if_stale.
      destruct (STALE_AFTER <? _)%Z; [| exact H]. cbn. now apply del_keys_NoDup.
    + intros k. rewrite I5. cbn [Dict.get].
      destruct (Z.eqb_spec j k) as [-> | Hne].
      * assert (Hnone : Dict.get rest k = None).
        { destruct (Dict.get rest k) eqn:E; [| reflexivity].
          exfalso. apply Hj. apply (get_keys rest k). congruence. }
        rewrite Hnone. unfold evict_if_stale, stale.
        destruct (STALE_AFTER <? frame_index tr - timestamp d)%Z;
          [| reflexivity].
        cbn. rewrite get_del_same. unfold store_del. now rewrite Z.eqb_refl.
      * assert (Hsame :
          Dict.get (lane_predictions (evict_if_stale tr (j, d))) k
          = Dict.get (lane_predictions tr) k /\
          prediction_smoothing (evict_if_stale tr (j, d)) k
          = prediction_smoothing tr k).
        { unfold evict_if_stale.
          destruct (STALE_AFTER <? frame_index tr - timestamp d)%Z;
            [| now split].
          cbn. rewrite get_del_other by congruence. unfold store_del.
          destruct (Z.eqb_spec k j); [congruence | now split]. }
        destruct Hsame as [S1 S2]. rewrite S1, S2.
        unfold stale. now rewrite F3.
Qed.

(** X25. The eviction at the head of [draw_lane_predictions] deletes a
    stored prediction exactly when it was made more than [STALE_AFTER]
    frames ago, and the smoothing buffer of that track with it; the
    predictions and buffers of all other tracks, the histories, the miss
    counters and the frame counter are left as they are. *)
Theorem evict_stale_exactly (tr : Tracker) :
  NoDup (Dict.keys (lane_predictions tr)) ->
  tracking_history (evict_stale tr) = tracking_history tr /\
  missed_frames (evict_stale tr) = missed_frames tr /\
  frame_index (evict_stale tr) = frame_index tr /\
  forall k,
    (Dict.get (lane_predictions (evict_stale tr)) k,
     prediction_smoothing (evict_stale tr) k)
    = match Dict.get (lane_predictions tr) k with
      | Some d =>
          if (STALE_AFTER <? frame_index tr - timestamp d)%Z
          then (None, None)
          else (Some d, prediction_smoothing tr k)
      | None => (None, prediction_smoothing tr k)
      end.
Proof.
  intros Hnd. unfold evict_stale.
  destruct (evict_fold (lane_predictions tr) tr Hnd) as (H1 & H2 & H3 & _ & H5).
  split; [exact H1|]. split; [exact H2|]. split; [exact H3|].
  intros k. rewrite H5. unfold stale.
  now destruct (Dict.get (lane_predictions tr) k).
Qed.

Lemma evict_stale_exactly_witness :
  Dict.get (lane_predictions (evict_stale two_predictions)) 1%Z
  = Dict.get (lane_predictions two_predictions) 1%Z /\
  Dict.get (lane_predictions (evict_stale two_predictions)) 2%Z = None /\
  prediction_smoothing (evict_stale two_predictions) 2%Z = None.
Proof.
  assert (Hnd : NoDup (Dict.keys (lane_predictions two_predictions))).
  { repeat constructor; simpl; intuition discriminate. }
  destruct (evict_stale_exactly two_predictions Hnd) as (_ & _ & _ & H).
  pose proof (H 1%Z) as H1. pose proof (H 2%Z) as H2.
  cbn in H1, H2. inversion H1. inversion H2. repeat split; reflexivity.
Defined.

(** ** Predicting for the tracked vehicles *)

Lemma smooth_predictions_store (st : Store) (track_id : Z)
    (new_predictions : list Prediction) (st' : Store) (out : list Prediction) :
  smooth_predictions st track_id new_predictions = Normal (st', out) ->
  st' = store_set st track_id (push_buffer st track_id new_predictions).
Proof.
  unfold smooth_predictions.
  destruct (length (push_buffer st track_id new_predictions) =? 1)%nat.
  - intros H. now inversion H.
  - destruct (min_len _) as [n|]; cbn [bind]; [| discriminate].
    destruct (for_each _ _ _) as [sm|]; cbn [bind]; [| discriminate].
    intros H. now inversion H.
Qed.

Lemma push_buffer_length (st : Store) (track_id : Z)
    (new_predictions : list Prediction) :
  buffers_bounded st ->
  (length (push_buffer st track_id new_predictions) <= 2)%nat.
Proof.
  intros Hst. unfold push_buffer.
  destruct (st track_id) as [b|] eqn:E.
  - pose proof (Hst _ _ E) as Hb.
    destruct (Nat.ltb_spec 2 (length (b ++ [new_predictions]))) as [Hlt | Hge];
      [| exact Hge].
    rewrite length_app in Hlt. simpl in Hlt.
    destruct b as [|x b]; simpl in *; [lia|].
    rewrite length_app. simpl. lia.
  - simpl. lia.
Qed.

Lemma store_set_bounded (st : Store) (track_id : Z)
    (buffer : list (list Prediction)) :
  buffers_bounded st -> (length buffer <= 2)%nat ->
  buffers_bounded (store_set st track_id buffer).
Proof.
  intros Hst Hb k b. unfold store_set.
  destruct (k =? track_id)%Z; [| apply Hst].
  intros H. inversion H; subst. exact Hb.
Qed.

(** What a pass of the predictions over the tracks [ks] may change. *)
Lemma predict_track_frame (predict : list Point -> Exc (list Prediction))
    (tr : Tracker) (j : Z) (history : list Point) :
  tracking_history (predict_track predict tr (j, history)) = tracking_history tr /\
  missed_frames (predict_track predict tr (j, history)) = missed_frames tr /\
  frame_index (predict_track predict tr (j, history)) = frame_index tr /\
  (forall k, k <> j ->
     Dict.get (lane_predictions (predict_track predict tr (j, history))) k
     = Dict.get (lane_predictions tr) k /\
     prediction_smoothing (predict_track predict tr (j, history)) k
     = prediction_smoothing tr k) /\
  (NoDup (Dict.keys (lane_predictions tr)) ->
   NoDup (Dict.keys (lane_predictions (predict_track predict tr (j, history))))) /\
  (buffers_bounded (prediction_smoothing tr) ->
   buffers_bounded (prediction_smoothing (predict_track predict tr (j, history)))) /\
  (predictions_dated tr -> predictions_dated (predict_track predict tr (j, history))).
Proof.
  unfold predict_track.
  destruct (10 <=? length history)%nat; [| now repeat split].
  destruct (predict history) as [[|p ps]|]; try now repeat split.
  assert (Hstore : forall k, k <> j ->
            store_set (prediction_smoothing tr) j
              (push_buffer (prediction_smoothing tr) j (p :: ps)) k
            = prediction_smoothing tr k).
  { intros k Hk. unfold store_set.
    destruct (Z.eqb_spec k j); [contradiction | reflexivity]. }
  assert (Hbound : buffers_bounded (prediction_smoothing tr) ->
            buffers_bounded
              (store_set (prediction_smoothing tr) j
                 (push_buffer (prediction_smoothing tr) j (p :: ps)))).
  { intros Hb. apply store_set_bounded; [exact Hb|].
    now apply push_buffer_length. }
  destruct (smooth_predictions (prediction_smoothing tr) j (p :: ps))
    as [[store' smoothed]|] eqn:Es.
  - apply smooth_predictions_store in Es. subst store'.
    destruct (Py.item history (-1)) as [pos|]; cbn.
    + split; [reflexivity|]. split; [reflexivity|]. split; [reflexivity|].
      split; [| split; [| split]].
      * intros k Hk. rewrite get_set_other by congruence.
        split; [reflexivity | now apply Hstore].
      * apply set_keys_NoDup.
      * exact Hbound.
      * intros Hd k d. unfold predictions_dated in *. cbn.
        destruct (Z.eq_dec k j) as [-> | Hk].
        -- rewrite get_set_same. intros H. inversion H. cbn. lia.
        -- rewrite get_set_other by congruence. apply Hd.
    + split; [reflexivity|]. split; [reflexivity|]. split; [reflexivity|].
      split; [| split; [| split]].
      * intros k Hk. split; [reflexivity | now apply Hstore].
      * intros H; exact H.
      * exact Hbound.
      * intros H; exact H.
  - cbn.
    split; [reflexivity|]. split; [reflexivity|]. split; [reflexivity|].
    split; [| split; [| split]].
    + intros k Hk. split; [reflexivity | now apply Hstore].
    + intros H; exact H.
    + exact Hbound.
    + intros H; exact H.
Qed.

Lemma predict_fold (predict : list Point -> Exc (list Prediction))
    (items : list (Z * list Point)) (tr : Tracker) :
  tracking_history (fold_left (predict_track predict) items tr)
  = tracking_history tr /\
  missed_frames (fold_left (predict_track predict) items tr) = missed_frames tr /\
  frame_index (fold_left (predict_track predict) items tr) = frame_index tr /\
  (forall k, ~ In k (Dict.keys items) ->
     Dict.get (lane_predictions (fold_left (predict_track predict) items tr)) k
     = Dict.get (lane_predictions tr) k /\
     prediction_smoothing (fold_left (predict_track predict) items tr) k
     = prediction_smoothing tr k) /\
  (NoDup (Dict.keys (lane_predictions tr)) ->
   NoDup (Dict.keys
            (lane_predictions (fold_left (predict_track predict) items tr)))) /\
  (buffers_bounded (prediction_smoothing tr) ->
   buffers_bounded
     (prediction_smoothing (fold_left (predict_track predict) items tr))) /\
  (predictions_dated tr ->
   predictions_dated (fold_left (predict_track predict) items tr)).
Proof.
  revert tr; induction items as [|[j history] rest IH]; intros tr.
  - simpl. repeat split; auto.
  - cbn [fold_left].
    destruct (IH (predict_track predict tr (j, history)))
      as (I1 & I2 & I3 & I4 & I5 & I6 & I7).
    destruct (predict_track_frame predict tr j history)
      as (F1 & F2 & F3 & F4 & F5 & F6 & F7).
    rewrite I1, I2, I3, F1, F2, F3.
    split; [reflexivity|]. split; [reflexivity|]. split; [reflexivity|].
    split; [| split; [| split]].
    + intros k Hk. unfold Dict.keys in Hk. simpl in Hk.
      destruct (I4 k) as [A B]; [intros H; apply Hk; now right|].
      destruct (F4 k) as [C D]; [intros ->; apply Hk; now left|].
      rewrite A, B. now split.
    + intros H. apply I5, F5, H.
    + intros H. apply I6, F6, H.
    + intros H. apply I7, F7, H.
Qed.

Lemma predict_lane_trajectories_frame
    (predict : list Point -> Exc (list Prediction)) (tr : Tracker) :
  tracking_history (predict_lane_trajectories predict tr) = tracking_history tr /\
  missed_frames (predict_lane_trajectories predict tr) = missed_frames tr /\
  frame_index (predict_lane_trajectories predict tr) = frame_index tr /\
  (forall k, Dict.get (tracking_history tr) k = None ->
     Dict.get (lane_predictions (predict_lane_trajectories predict tr)) k
     = Dict.get (lane_predictions tr) k /\
     prediction_smoothing (predict_lane_trajectories predict tr) k
     = prediction_smoothing tr k) /\
  (NoDup (Dict.keys (lane_predictions tr)) ->
   NoDup (Dict.keys (lane_predictions (predict_lane_trajectories predict tr)))) /\
  (buffers_bounded (prediction_smoothing tr) ->
   buffers_bounded (prediction_smoothing (predict_lane_trajectories predict tr))) /\
  (predictions_dated tr ->
   predictions_dated (predict_lane_trajectories predict tr)).
Proof.
  unfold predict_lane_trajectories.
  destruct (length (tracking_history tr) <? 1)%nat; [now repeat split|].
  destruct (predict_fold predict (tracking_history tr) tr)
    as (I1 & I2 & I3 & I4 & I5 & I6 & I7).
  split; [exact I1|]. split; [exact I2|]. split; [exact I3|].
  split; [| now repeat split].
  intros k Hk. apply I4. rewrite get_keys. congruence.
Qed.

(** ** One frame after another *)

Lemma view_parts (tr : Tracker) (k : Z) h m d b :
  track_view tr k = (h, m, d, b) ->
  Dict.get (tracking_history tr) k = h /\
  Dict.get (missed_frames tr) k = m /\
  Dict.get (lane_predictions tr) k = d /\
  prediction_smoothing tr k = b.
Proof. unfold track_view. intros H. inversion H. now repeat split. Qed.

Lemma view_parts_eq (tr tr' : Tracker) (k : Z) :
  track_view tr' k = track_view tr k ->
  Dict.get (tracking_history tr') k = Dict.get (tracking_history tr) k /\
  Dict.get (missed_frames tr') k = Dict.get (missed_frames tr) k /\
  Dict.get (lane_predictions tr') k = Dict.get (lane_predictions tr) k /\
  prediction_smoothing tr' k = prediction_smoothing tr k.
Proof. intros H. now apply view_parts. Qed.

(** What the bookkeeping of a frame keeps of the state between frames. *)
Lemma update_tracks_ok (history_length : Z) (tr : Tracker)
    (boxes : list (option Z * Point)) :
  (0 <= history_length)%Z ->
  tracker_ok history_length tr ->
  exists tr1,
    update_tracks history_length tr boxes = Normal tr1 /\
    frame_index tr1 = (frame_index tr + 1)%Z /\
    NoDup (Dict.keys (tracking_history tr1)) /\
    NoDup (Dict.keys (lane_predictions tr1)) /\
    histories_bounded history_length tr1 /\
    buffers_bounded (prediction_smoothing tr1) /\
    no_orphans tr1 /\
    predictions_dated tr1.
Proof.
  intros Hhl (Hnd & Hlnd & Hhb & Hbb & Hno & Hrec).
  destruct (update_tracks_views history_length tr boxes Hhl Hnd)
    as (tr1 & E & Hf & Hseen & Hunseen & Hnd1 & Hlnd1).
  exists tr1. split; [exact E|]. split; [exact Hf|].
  split; [exact Hnd1|]. split; [now apply Hlnd1|].
  assert (Hcase : forall k,
            In k (seen_ids boxes) \/
            (~ In k (seen_ids boxes) /\
             (track_view tr1 k = track_view tr k \/
              track_view tr1 k = (None, None, None, None) \/
              exists h, Dict.get (tracking_history tr) k = Some h /\
                track_view tr1 k
                = (Some h, Some (next_missed tr k),
                   Dict.get (lane_predictions tr) k,
                   prediction_smoothing tr k)))).
  { intros k. destruct (in_dec Z.eq_dec k (seen_ids boxes)) as [Hin | Hout];
      [now left | right]. split; [exact Hout|].
    rewrite (Hunseen k Hout).
    destruct (Dict.get (tracking_history tr) k) as [h|]; [| now left].
    destruct (MISS_THRESHOLD <? next_missed tr k)%Z;
      [right; now left | right; right]. now exists h. }
  split; [| split; [| split]].
  - intros k h Hk. destruct (Hcase k) as [Hin | [Hout [Hv | [Hv | [h0 [Hh0 Hv]]]]]].
    + destruct (Hseen k Hin) as (_ & (h' & Hh' & Hlen & _) & _). congruence.
    + apply view_parts_eq in Hv. apply (Hhb k). destruct Hv as (V & _). congruence.
    + apply view_parts in Hv. destruct Hv as (V & _). congruence.
    + apply view_parts in Hv. destruct Hv as (V & _).
      apply (Hhb k). congruence.
  - intros k b Hk. destruct (Hcase k) as [Hin | [Hout [Hv | [Hv | [h0 [Hh0 Hv]]]]]].
    + destruct (Hseen k Hin) as (_ & _ & _ & Hps). apply (Hbb k). congruence.
    + apply view_parts_eq in Hv. destruct Hv as (_ & _ & _ & V).
      apply (Hbb k). congruence.
    + apply view_parts in Hv. destruct Hv as (_ & _ & _ & V). congruence.
    + apply view_parts in Hv. destruct Hv as (_ & _ & _ & V).
      apply (Hbb k). congruence.
  - intros k Hk. destruct (Hcase k) as [Hin | [Hout [Hv | [Hv | [h0 [Hh0 Hv]]]]]].
    + destruct (Hseen k Hin) as (_ & (h' & Hh' & _) & _). congruence.
    + rewrite Hv. apply Hno. apply view_parts_eq in Hv.
      destruct Hv as (V & _). congruence.
    + exact Hv.
    + apply view_parts in Hv. destruct Hv as (V & _). congruence.
  - intros k d Hk. rewrite Hf.
    assert (Hold : Dict.get (lane_predictions tr) k = Some d).
    { destruct (Hcase k) as [Hin | [Hout [Hv | [Hv | [h0 [Hh0 Hv]]]]]].
      - destruct (Hseen k Hin) as (_ & _ & Hlp & _). congruence.
      - apply view_parts_eq in Hv. destruct Hv as (_ & _ & V & _). congruence.
      - apply view_parts in Hv. destruct Hv as (_ & _ & V & _). congruence.
      - apply view_parts in Hv. destruct Hv as (_ & _ & V & _). congruence. }
    destruct (Hrec k d Hold). lia.
Qed.

Lemma process_frame_steps (predict : list Point -> Exc (list Prediction))
    (history_length : Z) (tr : Tracker) (boxes : list (option Z * Point)) :
  (0 <= history_length)%Z ->
  tracker_ok history_length tr ->
  exists tr1 tr',
    update_tracks history_length tr boxes = Normal tr1 /\
    process_frame predict history_length tr boxes = Normal tr' /\
    tracking_history tr' = tracking_history tr1 /\
    missed_frames tr' = missed_frames tr1 /\
    frame_index tr' = (frame_index tr + 1)%Z /\
    tracker_ok history_length tr'.
Proof.
  intros Hhl Hok.
  destruct (update_tracks_ok history_length tr boxes Hhl Hok)
    as (tr1 & E & Hf & Hnd1 & Hlnd1 & Hhb1 & Hbb1 & Hno1 & Hd1).
  unfold process_frame. rewrite E. cbn [bind].
  set (tr2 := if (frame_index tr1 mod PREDICTION_INTERVAL =? 0)%Z
              then predict_lane_trajectories predict tr1 else tr1).
  assert (H2 : tracking_history tr2 = tracking_history tr1 /\
               missed_frames tr2 = missed_frames tr1 /\
               frame_index tr2 = frame_index tr1 /\
               (forall k, Dict.get (tracking_history tr1) k = None ->
                  Dict.get (lane_predictions tr2) k
                  = Dict.get (lane_predictions tr1) k /\
                  prediction_smoothing tr2 k = prediction_smoothing tr1 k) /\
               NoDup (Dict.keys (lane_predictions tr2)) /\
               buffers_bounded (prediction_smoothing tr2) /\
               predictions_dated tr2).
  { unfold tr2. destruct (frame_index tr1 mod PREDICTION_INTERVAL =? 0)%Z.
    - destruct (predict_lane_trajectories_frame predict tr1)
        as (P1 & P2 & P3 & P4 & P5 & P6 & P7).
      split; [exact P1|]. split; [exact P2|]. split; [exact P3|].
      split; [exact P4|]. split; [now apply P5|]. split; [now apply P6|].
      now apply P7.
    - now repeat split. }
  destruct H2 as (T1 & T2 & T3 & T4 & T5 & T6 & T7).
  destruct (evict_fold (lane_predictions tr2) tr2 T5) as (V1 & V2 & V3 & V4 & V5).
  fold (evict_stale tr2) in V1, V2, V3, V4, V5.
  exists tr1, (evict_stale tr2).
  split; [reflexivity|]. split; [reflexivity|].
  split; [now rewrite V1|]. split; [now rewrite V2|].
  split; [now rewrite V3, T3|].
  assert (Hentry : forall k,
            (Dict.get (lane_predictions (evict_stale tr2)) k = None /\
             prediction_smoothing (evict_stale tr2) k = None) \/
            (Dict.get (lane_predictions (evict_stale tr2)) k
             = Dict.get (lane_predictions tr2) k /\
             prediction_smoothing (evict_stale tr2) k
             = prediction_smoothing tr2 k /\
             forall d, Dict.get (lane_predictions tr2) k = Some d ->
                       stale tr2 d = false)).
  { intros k. pose proof (V5 k) as Hk.
    destruct (Dict.get (lane_predictions tr2) k) as [d|] eqn:Ed.
    - destruct (stale tr2 d) eqn:Est; inversion Hk as [[A B]].
      + left. now split.
      + right. rewrite A, B. repeat split. intros d' Hd'. congruence.
    - inversion Hk as [[A B]]. right. rewrite A, B. repeat split. discriminate. }
  unfold tracker_ok.
  split; [now rewrite V1, T1|]. split; [now apply V4|].
  split; [| split; [| split]].
  - intros k h. rewrite V1, T1. apply Hhb1.
  - intros k b Hk. destruct (Hentry k) as [[_ Hn] | (_ & Hs & _)];
      [congruence|]. apply (T6 k). congruence.
  - intros k. rewrite V1, T1. intros Hk.
    destruct (view_parts _ _ _ _ _ _ (Hno1 k Hk)) as (_ & N2 & N3 & N4).
    destruct (T4 k Hk) as [L P].
    unfold track_view. rewrite V1, V2, T1, T2, Hk, N2.
    destruct (Hentry k) as [[A B] | (A & B & _)]; rewrite A, B;
      [reflexivity|]. now rewrite L, P, N3, N4.
  - intros k d Hk. rewrite V3.
    destruct (Hentry k) as [[A _] | (A & _ & Hfresh)]; [congruence|].
    rewrite A in Hk. pose proof (Hfresh d Hk) as Hst.
    pose proof (T7 k d Hk) as Hdated.
    unfold stale in Hst. apply Z.ltb_ge in Hst. lia.
Qed.

Lemma new_tracker_ok (history_length : Z) : tracker_ok history_length new_tracker.
Proof.
  unfold tracker_ok, new_tracker. cbn.
  split; [constructor|]. split; [constructor|].
  split; [intros k h H; discriminate H|].
  split; [intros k b H; discriminate H|].
  split; [intros k _; reflexivity|].
  intros k d H. discriminate H.
Qed.

Lemma process_frames_ok (predict : list Point -> Exc (list Prediction))
    (history_length : Z) (frames : list (list (option Z * Point))) :
  (0 <= history_length)%Z ->
  forall tr, tracker_ok history_length tr ->
  exists tr',
    process_frames predict history_length frames tr = Normal tr' /\
    frame_index tr' = (frame_index tr + Z.of_nat (length frames))%Z /\
    tracker_ok history_length tr'.
Proof.
  intros Hhl. unfold process_frames.
  induction frames as [|boxes frames IH]; intros tr Hok.
  - exists tr. simpl. split; [reflexivity|]. split; [lia | exact Hok].
  - destruct (process_frame_steps predict history_length tr boxes Hhl Hok)
      as (tr1 & tr2 & _ & E & _ & _ & Hf & Hok2).
    destruct (IH tr2 Hok2) as (tr' & E' & Hf' & Hok').
    exists tr'. cbn [for_each]. rewrite E. cbn [bind].
    split; [exact E'|]. split; [| exact Hok'].
    rewrite Hf', Hf. cbn [length]. lia.
Qed.

(** X26. Whatever the detections of the frames and whatever the predictor
    returns or raises, the frames of [process_video] never raise in the
    tracker's own bookkeeping, and after them the frame counter is the
    number of frames, every history fits the capacity, every smoothing
    buffer holds at most two lists, nothing is kept about a track that has
    no history, and every stored prediction was made at most [STALE_AFTER]
    frames ago. *)
Theorem process_frames_keep_state
    (predict : list Point -> Exc (list Prediction))
    (history_length : Z) (frames : list (list (option Z * Point))) :
  (0 <= history_length)%Z ->
  exists tr',
    process_frames predict history_length frames new_tracker = Normal tr' /\
    frame_index tr' = Z.of_nat (length frames) /\
    tracker_ok history_length tr'.
Proof.
  intros Hhl.
  destruct (process_frames_ok predict history_length frames Hhl new_tracker
              (new_tracker_ok history_length)) as (tr' & E & Hf & Hok).
  exists tr'. split; [exact E|]. split; [exact Hf | exact Hok].
Qed.

Lemma process_frames_keep_state_witness :
  exists tr',
    process_frames (fun _ => Raised) 205 [one_detection; []] new_tracker
    = Normal tr' /\
    frame_index tr' = 2%Z /\
    tracker_ok 205 tr'.
Proof.
  apply (process_frames_keep_state (fun _ => Raised) 205 [one_detection; []]).
  lia.
Defined.

(** A frame without the track [k]. *)
Lemma process_frame_unseen (predict : list Point -> Exc (list Prediction))
    (history_length : Z) (tr : Tracker) (boxes : list (option Z * Point))
    (k : Z) :
  (0 <= history_length)%Z ->
  tracker_ok history_length tr ->
  ~ In k (seen_ids boxes) ->
  exists tr',
    process_frame predict history_length tr boxes = Normal tr' /\
    tracker_ok history_length tr' /\
    match Dict.get (tracking_history tr) k with
    | None => Dict.get (tracking_history tr') k = None
    | Some h =>
        if (MISS_THRESHOLD <? next_missed tr k)%Z
        then Dict.get (tracking_history tr') k = None
        else Dict.get (tracking_history tr') k = Some h /\
             Dict.get (missed_frames tr') k = Some (next_missed tr k)
    end.
Proof.
  intros Hhl Hok Hk.
  destruct (process_frame_steps predict history_length tr boxes Hhl Hok)
    as (tr1 & tr' & E1 & E & Hh & Hm & _ & Hok').
  exists tr'. split; [exact E|]. split; [exact Hok'|].
  destruct Hok as (Hnd & _).
  destruct (update_tracks_views history_length tr boxes Hhl Hnd)
    as (tr1' & E1' & _ & _ & Hunseen & _).
  rewrite E1 in E1'. inversion E1'; subst tr1'.
  pose proof (Hunseen k Hk) as Hv. rewrite Hh, Hm.
  destruct (Dict.get (tracking_history tr) k) as [h|] eqn:Eh.
  - destruct (MISS_THRESHOLD <? next_missed tr k)%Z;
      apply view_parts in Hv; destruct Hv as (V1 & V2 & _);
      [exact V1 | now split].
  - apply view_parts_eq in Hv. destruct Hv as (V1 & _). congruence.
Qed.

Lemma process_frames_gone (predict : list Point -> Exc (list Prediction))
    (history_length : Z) (frames : list (list (option Z * Point))) (k : Z) :
  (0 <= history_length)%Z ->
  Forall (fun boxes => ~ In k (seen_ids boxes)) frames ->
  forall tr, tracker_ok history_length tr ->
  Dict.get (tracking_history tr) k = None ->
  exists tr',
    process_frames predict history_length frames tr = Normal tr' /\
    tracker_ok history_length tr' /\
    Dict.get (tracking_history tr') k = None.
Proof.
  intros Hhl Hall. unfold process_frames.
  induction Hall as [|boxes frames Hk Hrest IH]; intros tr Hok Hnone.
  - exists tr. split; [reflexivity|]. split; [exact Hok | exact Hnone].
  - destruct (process_frame_unseen predict history_length tr boxes k Hhl Hok Hk)
      as (tr1 & E & Hok1 & Hcase).
    rewrite Hnone in Hcase.
    destruct (IH tr1 Hok1 Hcase) as (tr' & E' & Hok' & Hnone').
    exists tr'. cbn [for_each]. rewrite E. cbn [bind].
    split; [exact E'|]. split; [exact Hok' | exact Hnone'].
Qed.

Lemma process_frames_countdown (predict : list Point -> Exc (list Prediction))
    (history_length : Z) (frames : list (list (option Z * Point))) (k : Z)
    (h : list Point) :
  (0 <= history_length)%Z ->
  Forall (fun boxes => ~ In k (seen_ids boxes)) frames ->
  forall tr m, tracker_ok history_length tr ->
  Dict.get (tracking_history tr) k = Some h ->
  Dict.get (missed_frames tr) k = Some m ->
  (m <= MISS_THRESHOLD)%Z ->
  exists tr',
    process_frames predict history_length frames tr = Normal tr' /\
    tracker_ok history_length tr' /\
    if (MISS_THRESHOLD <? m + Z.of_nat (length frames))%Z
    then Dict.get (tracking_history tr') k = None
    else Dict.get (tracking_history tr') k = Some h /\
         Dict.get (missed_frames tr') k = Some (m + Z.of_nat (length frames))%Z.
Proof.
  intros Hhl Hall.
  induction Hall as [|boxes frames Hk Hrest IH]; intros tr m Hok Hh Hm Hle.
  - exists tr. unfold process_frames. cbn [for_each length].
    split; [reflexivity|]. split; [exact Hok|].
    replace (m + Z.of_nat 0)%Z with m by lia.
    destruct (Z.ltb_spec MISS_THRESHOLD m); [lia | now split].
  - destruct (process_frame_unseen predict history_length tr boxes k Hhl Hok Hk)
      as (tr1 & E & Hok1 & Hcase).
    rewrite Hh in Hcase. unfold next_missed in Hcase. rewrite Hm in Hcase.
    unfold process_frames. cbn [for_each]. rewrite E. cbn [bind].
    fold (process_frames predict history_length frames tr1).
    replace (m + Z.of_nat (length (boxes :: frames)))%Z
      with (m + 1 + Z.of_nat (length frames))%Z by (cbn [length]; lia).
    destruct (Z.ltb_spec MISS_THRESHOLD (m + 1)) as [Hgone | Hstay].
    + destruct (process_frames_gone predict history_length frames k Hhl Hrest
                  tr1 Hok1 Hcase) as (tr' & E' & Hok' & Hnone).
      exists tr'. split; [exact E'|]. split; [exact Hok'|].
      destruct (Z.ltb_spec MISS_THRESHOLD (m + 1 + Z.of_nat (length frames)));
        [exact Hnone | lia].
    + destruct Hcase as [Hh1 Hm1].
      destruct (IH tr1 (m + 1)%Z Hok1 Hh1 Hm1 Hstay) as (tr' & E' & Hok' & Hres).
      exists tr'. split; [exact E'|]. split; [exact Hok' | exact Hres].
Qed.

(** X27. A track that is not detected in the next frames keeps its history
    as it is while its miss counter goes up by one a frame; with the frame
    that takes the counter past [MISS_THRESHOLD] the track is dropped, and
    nothing is kept about it: no history, no miss counter, no prediction
    and no smoothing buffer, for as long as it stays undetected. *)
Theorem undetected_track_dropped
    (predict : list Point -> Exc (list Prediction))
    (history_length : Z) (frames : list (list (option Z * Point))) (k : Z)
    (tr : Tracker) (h : list Point) (m : Z) :
  (0 <= history_length)%Z ->
  tracker_ok history_length tr ->
  Dict.get (tracking_history tr) k = Some h ->
  Dict.get (missed_frames tr) k = Some m ->
  (m <= MISS_THRESHOLD)%Z ->
  Forall (fun boxes => ~ In k (seen_ids boxes)) frames ->
  exists tr',
    process_frames predict history_length frames tr = Normal tr' /\
    track_view tr' k
    = if (MISS_THRESHOLD <? m + Z.of_nat (length frames))%Z
      then (None, None, None, None)
      else (Some h, Some (m + Z.of_nat (length frames))%Z,
            Dict.get (lane_predictions tr') k, prediction_smoothing tr' k).
Proof.
  intros Hhl Hok Hh Hm Hle Hall.
  destruct (process_frames_countdown predict history_length frames k h Hhl Hall
              tr m Hok Hh Hm Hle) as (tr' & E & Hok' & Hres).
  exists tr'. split; [exact E|].
  destruct (MISS_THRESHOLD <? m + Z.of_nat (length frames))%Z.
  - destruct Hok' as (_ & _ & _ & _ & Hno & _). now apply Hno.
  - destruct Hres as [Hh' Hm']. unfold track_view. now rewrite Hh', Hm'.
Qed.

Lemma undetected_track_dropped_witness :
  exists tr',
    process_frames (fun _ => Raised) 205 (repeat [] 21) seen_once = Normal tr' /\
    track_view tr' 7%Z = (None, None, None, None).
Proof.
  assert (Hok : tracker_ok 205 seen_once).
  { unfold tracker_ok.
    split; [repeat constructor; intros []|]. split; [constructor|].
    split; [| split; [| split]].
    - intros k h. unfold seen_once.
      cbn [tracking_history Dict.get]. destruct (7 =? k)%Z; [| discriminate].
      intros H. inversion H. cbn [length]. lia.
    - intros k b H. discriminate H.
    - intros k. unfold track_view, seen_once.
      cbn [tracking_history missed_frames lane_predictions
           prediction_smoothing Dict.get].
      destruct (7 =? k)%Z; [discriminate | reflexivity].
    - intros k d H. discriminate H. }
  destruct (undetected_track_dropped (fun _ => Raised) 205 (repeat [] 21) 7%Z
              seen_once [(1, 2)] 0%Z) as (tr' & E & V).
  - lia.
  - exact Hok.
  - reflexivity.
  - reflexivity.
  - unfold MISS_THRESHOLD. lia.
  - repeat constructor; intros [].
  - exists tr'. split; [exact E | exact V].
Defined.

(** ** The position a detection adds to the history *)

Lemma for_each_app {A S} (xs ys : list A) (body : S -> A -> Exc S) (s : S) :
  for_each (xs ++ ys) body s = (s' <- for_each xs body s ;; for_each ys body s').
Proof.
  revert s; induction xs as [|x xs IH]; intros s; simpl; [reflexivity|].
  destruct (body s x) as [s1|]; cbn [bind]; [apply IH | reflexivity].
Qed.

Lemma enumerate_app {A} (xs ys : list A) (start : nat) :
  enumerate (xs ++ ys) start
  = enumerate xs start ++ enumerate ys (start + length xs).
Proof.
  unfold enumerate. revert start; induction xs as [|x xs IH]; intros start; simpl.
  - now rewrite Nat.add_0_r.
  - rewrite (IH (S start)).
    replace (start + S (length xs))%nat with (S start + length xs)%nat by lia.
    reflexivity.
Qed.

Lemma record_box_other (history_length : Z) (st st' : Tracker * list Z)
    (ib : nat * (option Z * Point)) (k : Z) :
  record_box history_length st ib = Normal st' ->
  k <> box_track_id ib ->
  Dict.get (tracking_history (fst st')) k = Dict.get (tracking_history (fst st)) k.
Proof.
  destruct st as [tr cur], ib as [idx [box_id center]]. unfold record_box.
  change (match box_id with Some i => i | None => Z.of_nat idx end)
    with (box_track_id (idx, (box_id, center))).
  destruct (match Dict.get (tracking_history tr) _ with
            | Some h => Normal h
            | None => _
            end) as [history|]; cbn [bind]; [| discriminate].
  intros H Hk. inversion H. cbn. now rewrite get_set_other.
Qed.

Lemma record_boxes_other (history_length : Z)
    (items : list (nat * (option Z * Point))) (k : Z) :
  ~ In k (map box_track_id items) ->
  forall st st',
    for_each items (record_box history_length) st = Normal st' ->
    Dict.get (tracking_history (fst st')) k
    = Dict.get (tracking_history (fst st)) k.
Proof.
  induction items as [|ib items IH]; intros Hk st st'; simpl.
  - intros H. now inversion H.
  - destruct (record_box history_length st ib) as [st1|] eqn:E; cbn [bind];
      [| discriminate].
    intros H. rewrite (IH (fun Hin => Hk (or_intror Hin)) st1 st' H).
    apply (record_box_other history_length st st1 ib k E).
    intros ->. apply Hk. now left.
Qed.

Lemma record_box_same (history_length : Z) (st st' : Tracker * list Z)
    (ib : nat * (option Z * Point)) :
  record_box history_length st ib = Normal st' ->
  Dict.get (tracking_history (fst st')) (box_track_id ib)
  = Some (deque_append history_length (history_of (fst st) (box_track_id ib))
                       (snd (snd ib))).
Proof.
  destruct st as [tr cur], ib as [idx [box_id center]]. unfold record_box.
  change (match box_id with Some i => i | None => Z.of_nat idx end)
    with (box_track_id (idx, (box_id, center))).
  unfold history_of. cbn [fst snd].
  destruct (Dict.get (tracking_history tr) _) as [h|].
  - cbn [bind]. intros H. inversion H. cbn. now rewrite get_set_same.
  - destruct (history_length <? 0)%Z; cbn [bind]; [discriminate|].
    intros H. inversion H. cbn. now rewrite get_set_same.
Qed.

Lemma deque_append_last {A} (maxlen : Z) (h : list A) (x : A) :
  (0 < maxlen)%Z -> exists older, deque_append maxlen h x = older ++ [x].
Proof.
  intros Hpos. unfold deque_append.
  set (n := (length (h ++ [x]) - Z.to_nat maxlen)%nat).
  assert (Hn : (n <= length h)%nat).
  { unfold n. rewrite length_app. simpl. lia. }
  exists (skipn n h). rewrite skipn_app.
  replace (n - length h)%nat with 0%nat by lia. reflexivity.
Qed.

Lemma update_tracks_unfold (history_length : Z) (tr : Tracker)
    (boxes : list (option Z * Point)) :
  (0 <= history_length)%Z ->
  NoDup (Dict.keys (tracking_history tr)) ->
  exists tr1 cur,
    for_each (enumerate boxes 0) (record_box history_length)
      ({| tracking_history := tracking_history tr;
          missed_frames := missed_frames tr;
          lane_predictions := lane_predictions tr;
          prediction_smoothing := prediction_smoothing tr;
          frame_index := (frame_index tr + 1)%Z |}, [])
    = Normal (tr1, cur) /\
    NoDup (Dict.keys (tracking_history tr1)) /\
    (forall k, In k cur <-> In k (seen_ids boxes)) /\
    update_tracks history_length tr boxes
    = Normal (fold_left (expire_track cur) (Dict.keys (tracking_history tr1)) tr1).
Proof.
  intros Hhl Hnd. unfold update_tracks.
  set (tr0 := {| tracking_history := tracking_history tr;
                 missed_frames := missed_frames tr;
                 lane_predictions := lane_predictions tr;
                 prediction_smoothing := prediction_smoothing tr;
                 frame_index := (frame_index tr + 1)%Z |}).
  assert (H0 : recorded history_length tr0 [] (tr0, [])).
  { unfold recorded. repeat split; try reflexivity; try exact Hnd;
      try contradiction. }
  destruct (record_boxes_keep history_length tr0 (enumerate boxes 0) Hhl [] _ H0)
    as [[tr1 cur] [E1 H1]].
  rewrite E1. cbn [bind app] in *. fold (seen_ids boxes) in H1.
  destruct H1 as (_ & _ & _ & Hnd1 & Hcur & _).
  exists tr1, cur. split; [reflexivity|]. split; [exact Hnd1|].
  split; [exact Hcur | reflexivity].
Qed.

(** X28. A detection that is the only one of its track in the frame
    appends its centre to the history of the track (a new history for a new
    track), the oldest position leaving when the capacity is exceeded; so
    with a positive capacity the centre is the last position of the
    history after the frame. *)
Theorem detection_appended (history_length : Z) (tr : Tracker)
    (pre post : list (option Z * Point)) (box_id : option Z) (center : Point)
    (k : Z) :
  (0 <= history_length)%Z ->
  NoDup (Dict.keys (tracking_history tr)) ->
  box_track_id (length pre, (box_id, center)) = k ->
  ~ In k (map box_track_id (enumerate pre 0)) ->
  ~ In k (map box_track_id (enumerate post (S (length pre)))) ->
  exists tr',
    update_tracks history_length tr (pre ++ (box_id, center) :: post)
    = Normal tr' /\
    Dict.get (tracking_history tr') k
    = Some (deque_append history_length (history_of tr k) center) /\
    ((0 < history_length)%Z ->
     exists older, Dict.get (tracking_history tr') k = Some (older ++ [center])).
Proof.
  intros Hhl Hnd Hk Hpre Hpost.
  destruct (update_tracks_unfold history_length tr
              (pre ++ (box_id, center) :: post) Hhl Hnd)
    as (tr1 & cur & E & Hnd1 & Hcur & Eu).
  assert (Hshape : enumerate (pre ++ (box_id, center) :: post) 0
                   = enumerate pre 0
                     ++ (length pre, (box_id, center))
                        :: enumerate post (S (length pre))).
  { rewrite enumerate_app. reflexivity. }
  assert (Hseen : In k (seen_ids (pre ++ (box_id, center) :: post))).
  { unfold seen_ids. rewrite Hshape, map_app. apply in_or_app. right.
    left. exact Hk. }
  rewrite Hshape, for_each_app in E.
  destruct (for_each (enumerate pre 0) _ _) as [st_pre|] eqn:Epre;
    cbn [bind] in E; [| discriminate].
  cbn [for_each] in E.
  destruct (record_box history_length st_pre (length pre, (box_id, center)))
    as [st_box|] eqn:Ebox; cbn [bind] in E; [| discriminate].
  pose proof (record_boxes_other history_length _ k Hpre _ _ Epre) as H1.
  pose proof (record_box_same history_length _ _ _ Ebox) as H2.
  pose proof (record_boxes_other history_length _ k Hpost _ _ E) as H3.
  rewrite Hk in H2. cbn [fst snd] in H1, H2, H3.
  assert (Hhist : Dict.get (tracking_history tr1) k
                  = Some (deque_append history_length (history_of tr k) center)).
  { rewrite H3, H2. unfold history_of. now rewrite H1. }
  assert (Hkey : In k (Dict.keys (tracking_history tr1)))
    by (apply get_keys; congruence).
  pose proof (expire_fold_same cur _ tr1 k Hnd1 Hkey) as Hv.
  rewrite expire_track_same in Hv.
  rewrite (proj2 (in_ids_spec cur k)) in Hv by now apply Hcur.
  apply view_parts_eq in Hv. destruct Hv as (V & _).
  eexists. split; [exact Eu|]. rewrite V, Hhist.
  split; [reflexivity|].
  intros Hpos.
  destruct (deque_append_last history_length (history_of tr k) center Hpos)
    as [older Ho].
  exists older. now rewrite Ho.
Qed.

Lemma detection_appended_witness :
  exists tr',
    update_tracks 205 seen_once [(Some 7%Z, (3, 4))] = Normal tr' /\
    Dict.get (tracking_history tr') 7%Z = Some [(1, 2); (3, 4)].
Proof.
  destruct (detection_appended 205 seen_once [] [] (Some 7%Z) (3, 4) 7%Z)
    as (tr' & E & H & _).
  - lia.
  - repeat constructor. intros [].
  - reflexivity.
  - intros [].
  - intros [].
  - exists tr'. split; [exact E | exact H].
Defined.

(** * Properties of the export of the lanes *)

Lemma enumerate_cons {A} (x : A) (xs : list A) (start : nat) :
  enumerate (x :: xs) start = (start, x) :: enumerate xs (S start).
Proof. reflexivity. Qed.

Lemma add_feature_app (simplify : Polyline -> Exc Polyline)
    (fs : list geojson.Feature) (it : nat * Polyline) :
  add_feature simplify fs it = fs ++ features_of simplify it.
Proof.
  destruct it as [i track]. unfold features_of, add_feature.
  destruct (length track <? 2)%nat; [now rewrite app_nil_r|].
  destruct (simplify track); [reflexivity | now rewrite app_nil_r].
Qed.

Lemma add_features_flat (simplify : Polyline -> Exc Polyline)
    (items : list (nat * Polyline)) (fs : list geojson.Feature) :
  fold_left (add_feature simplify) items fs
  = fs ++ flat_map (features_of simplify) items.
Proof.
  revert fs; induction items as [|it items IH]; intros fs; simpl.
  - now rewrite app_nil_r.
  - now rewrite IH, add_feature_app, <- app_assoc.
Qed.

Lemma features_of_cases (simplify : Polyline -> Exc Polyline) (i : nat)
    (track : Polyline) :
  (features_of simplify (i, track) = [] /\
   ((length track < 2)%nat \/ simplify track = Raised)) \/
  (exists f, features_of simplify (i, track) = [f] /\
             geojson.lane_id f = Z.of_nat i /\
             (2 <= length track)%nat /\
             simplify track = Normal (geojson.coordinates f) /\
             geojson.point_count f = Z.of_nat (length track) /\
             geojson.length f = ls_length (geojson.coordinates f)).
Proof.
  unfold features_of, add_feature.
  destruct (Nat.ltb_spec (length track) 2) as [Hshort | Hlong].
  - left. split; [reflexivity | now left].
  - destruct (simplify track) as [s|].
    + right. eexists. split; [reflexivity|]. cbn. now repeat split.
    + left. split; [reflexivity | now right].
Qed.

Lemma features_from (simplify : Polyline -> Exc Polyline)
    (tracks : list Polyline) (start : nat) (f : geojson.Feature) :
  In f (flat_map (features_of simplify) (enumerate tracks start)) ->
  exists i track,
    (start <= i)%nat /\
    geojson.lane_id f = Z.of_nat i /\
    nth_error tracks (i - start) = Some track /\
    (2 <= length track)%nat /\
    simplify track = Normal (geojson.coordinates f) /\
    geojson.point_count f = Z.of_nat (length track).
Proof.
  revert start; induction tracks as [|t tracks IH]; intros start; [intros []|].
  rewrite enumerate_cons. cbn [flat_map]. rewrite in_app_iff.
  intros [Hin | Hin].
  - destruct (features_of_cases simplify start t)
      as [[E _] | [g (E & Hid & Hlen & Hs & Hpc & _)]];
      rewrite E in Hin; [destruct Hin|].
    destruct Hin as [<- | []].
    exists start, t. rewrite Nat.sub_diag. now repeat split.
  - destruct (IH (S start) Hin) as (i & track & Hi & Hid & Hnth & Hrest).
    exists i, track. split; [lia|]. split; [exact Hid|]. split; [| exact Hrest].
    replace (i - start)%nat with (S (i - S start)) by lia. exact Hnth.
Qed.

Lemma features_sorted (simplify : Polyline -> Exc Polyline)
    (tracks : list Polyline) (start : nat) :
  StronglySorted Z.lt
    (map geojson.lane_id
         (flat_map (features_of simplify) (enumerate tracks start))).
Proof.
  revert start; induction tracks as [|t tracks IH]; intros start;
    [constructor|].
  rewrite enumerate_cons. cbn [flat_map].
  destruct (features_of_cases simplify start t)
    as [[E _] | [g (E & Hid & _)]]; rewrite E; cbn [app map]; [apply IH|].
  constructor; [apply IH|].
  apply Forall_forall. intros z Hz. apply in_map_iff in Hz.
  destruct Hz as [f [<- Hf]].
  destruct (features_from simplify tracks (S start) f Hf) as (i & _ & Hi & Hfi & _).
  rewrite Hid, Hfi. lia.
Qed.

Lemma features_count (simplify : Polyline -> Exc Polyline)
    (tracks : list Polyline) (start : nat) :
  (length (flat_map (features_of simplify) (enumerate tracks start))
   <= length tracks)%nat.
Proof.
  revert start; induction tracks as [|t tracks IH]; intros start; [simpl; lia|].
  rewrite enumerate_cons. cbn [flat_map]. rewrite length_app.
  specialize (IH (S start)).
  destruct (features_of_cases simplify start t) as [[E _] | [g (E & _)]];
    rewrite E; simpl; lia.
Qed.

Lemma features_all (simplify : Polyline -> Exc Polyline)
    (tracks : list Polyline) (start : nat) :
  (forall t, In t tracks -> (2 <= length t)%nat /\ simplify t <> Raised) ->
  map geojson.lane_id
      (flat_map (features_of simplify) (enumerate tracks start))
  = map Z.of_nat (seq start (length tracks)).
Proof.
  revert start; induction tracks as [|t tracks IH]; intros start Hall;
    [reflexivity|].
  rewrite enumerate_cons. cbn [flat_map length seq map].
  destruct (Hall t (or_introl eq_refl)) as [Hlen Hs].
  destruct (features_of_cases simplify start t)
    as [[_ [Hshort | Hraised]] | [g (E & Hid & _)]]; [lia | contradiction |].
  rewrite E. cbn [app map]. rewrite Hid. f_equal.
  apply IH. intros t' Ht'. apply Hall. now right.
Qed.

Lemma load_lanes_map {V} (data : geojson.FeatureCollection V) :
  load_lanes data
  = map (fun feature => {| id := geojson.lane_id feature;
                           coords := geojson.coordinates feature |})
        (geojson.features data).
Proof. unfold load_lanes. now rewrite fold_left_append_map. Qed.

(** X29. The lanes the predictor loads from the mapper's export carry
    strictly increasing, hence distinct, identifiers: each is the rank, in
    the list of tracks, of a track of at least two points whose simplified
    line it is.  There are no more lanes than tracks, [total_lanes] counts
    them, and when every track has two points and simplifies without an
    error the identifiers are [0 .. len(tracks) - 1]. *)
Theorem exported_lanes {V} (simplify : Polyline -> Exc Polyline)
    (tracks : list Polyline) (video : V) :
  let data := create_geojson_from_tracks simplify tracks video in
  let lanes := load_lanes data in
  StronglySorted Z.lt (map id lanes) /\
  (forall lane, In lane lanes ->
     exists i track,
       id lane = Z.of_nat i /\
       nth_error tracks i = Some track /\
       (2 <= length track)%nat /\
       simplify track = Normal (coords lane)) /\
  (length lanes <= length tracks)%nat /\
  geojson.total_lanes data = Z.of_nat (length lanes) /\
  ((forall t, In t tracks -> (2 <= length t)%nat /\ simplify t <> Raised) ->
   map id lanes = Py.range (length tracks)).
Proof.
  intros data lanes. subst lanes. rewrite load_lanes_map. subst data.
  unfold create_geojson_from_tracks. cbn [geojson.features geojson.total_lanes].
  rewrite add_features_flat. cbn [app].
  rewrite map_map. cbn [id]. rewrite length_map.
  split; [apply features_sorted|].
  split; [| split; [apply features_count | split; [reflexivity|]]].
  - intros lane Hin. apply in_map_iff in Hin. destruct Hin as [f [<- Hf]].
    destruct (features_from simplify tracks 0 f Hf)
      as (i & track & _ & Hid & Hnth & Hlen & Hs & _).
    exists i, track. cbn [id coords]. rewrite Nat.sub_0_r in Hnth.
    now repeat split.
  - intros Hall. unfold Py.range. now apply features_all.
Qed.

Lemma exported_lanes_witness :
  map id (load_lanes
            (create_geojson_from_tracks (fun t => Normal t) apart_tracks tt))
  = Py.range 2.
Proof.
  pose proof (exported_lanes (fun t => Normal t) apart_tracks tt) as H.
  cbv zeta in H. destruct H as (_ & _ & _ & _ & H).
  apply H. intros t Ht. split; [| discriminate].
  destruct Ht as [<- | [<- | []]]; simpl; lia.
Defined.
